(** * ion-segment: selection state machine of [segment.tsx]

    A shallow embedding of the [Segment] component class of
    [core/src/components/segment/segment.tsx] and the properties of its
    event handlers.

    The component is a class whose methods mutate [this] and call into the
    DOM.  Here a method is a function in a small state-and-exception monad
    over the record [Segment], which holds the fields of the class together
    with the part of the DOM the methods read (the slotted buttons, the
    focused element, the text direction) and a trace of the calls made to
    the outside (events emitted, [setContent], [writeTask], [scrollTo]).

    Conventions.
    - An element is named by what it is ([Elt]): the i-th slotted
      [ion-segment-button], the [ion-segment] host, or another element.
      Identity of elements ([===] on nodes) is equality of these names.
    - Pixel coordinates are integers; only comparisons, sums and
      differences are made on them.  The scroll ratio is a rational.
      [-0], [NaN] and the rounding of doubles are left out.
    - The trace is kept most recent first.
    - Left out: a button of another segment as the element clicked, focused
      or under the pointer ([EOther] stands for an element that has no
      [value] and no indicator in its tree, which such a button has), and a
      host that is removed from its document while a gesture goes on
      ([getRootNode()] of the host is taken to have [elementFromPoint]). *)

From Stdlib Require Import ZArith QArith Qround.
From stdpp Require Import base tactics decidable option list numbers strings.

Local Open Scope Z_scope.

(** ** Values, geometry and elements *)

(** [SegmentValue = string | number] *)
Inductive SegmentValue :=
  | VString (s : string)
  | VNumber (n : Z).

#[global] Instance SegmentValue_eq_dec : EqDecision SegmentValue.
Proof. solve_decision. Defined.

(** The part of a [DOMRect] that the component reads. *)
Record DOMRect := { left : Z; top : Z; width : Z; height : Z }.

Inductive Elt :=
  | EButton (i : nat)   (* the i-th element of [getButtons()] *)
  | ESegment            (* the host, tagName ION-SEGMENT *)
  | EOther.             (* an element that is no ion-segment-button and no
                           ion-segment: no [value], no indicator in its tree *)

#[global] Instance Elt_eq_dec : EqDecision Elt.
Proof. solve_decision. Defined.

(** [ion-segment-button], as far as the segment reads or writes it. *)
Module Button.
Record t := {
  value : SegmentValue;
  disabled : bool;
  contentId : option string;
  (* getBoundingClientRect() of the button *)
  rect : DOMRect;
  (* getBoundingClientRect() of its [.segment-button-indicator], [None]
     when querySelector finds no such element *)
  indicator : option DOMRect;
  (* classList: segment-button-activated, segment-button-after-checked *)
  activatedClass : bool;
  afterCheckedClass : bool;
}.

Definition with_disabled (d : bool) (b : t) : t :=
  {| value := value b; disabled := d; contentId := contentId b;
     rect := rect b; indicator := indicator b;
     activatedClass := activatedClass b;
     afterCheckedClass := afterCheckedClass b |}.

Definition with_activatedClass (a : bool) (b : t) : t :=
  {| value := value b; disabled := disabled b; contentId := contentId b;
     rect := rect b; indicator := indicator b;
     activatedClass := a;
     afterCheckedClass := afterCheckedClass b |}.

Definition with_afterCheckedClass (a : bool) (b : t) : t :=
  {| value := value b; disabled := disabled b; contentId := contentId b;
     rect := rect b; indicator := indicator b;
     activatedClass := activatedClass b;
     afterCheckedClass := a |}.
End Button.

(** [ion-segment-view]: the segment writes its [disabled] property and calls
    its [setContent] method (recorded in the trace). *)
Record SegmentView := { view_disabled : bool }.

(** Calls that leave the component. *)
Inductive Effect :=
  | IonChange (v : option SegmentValue)          (* ionChange.emit({ value }) *)
  | IonSelect (v : option SegmentValue)          (* ionSelect.emit({ value }) *)
  | IonStyle                                     (* ionStyle.emit({ segment: true }) *)
  | SetContent (id : string) (smoothScroll : bool)  (* segmentView.setContent *)
  | WriteTask (current : nat) (xPosition previousWidth currentWidth : Z)
      (* writeTask scheduled by checkButton: the indicator of button
         [current] is placed with translate3d(xPosition) and
         scaleX(previousWidth / currentWidth), then released *)
  | ScrollTo (button : nat) (smoothScroll : bool)   (* el.scrollTo centring a button *)
  | StopImmediatePropagation
  | PreventDefault
  | ConsoleError.                                (* an exception caught by the runtime *)

#[global] Instance Effect_eq_dec : EqDecision Effect.
Proof. solve_decision. Defined.

(** ** The component *)

Record Segment := {
  (* private fields *)
  gesture : option bool;            (* the gesture once created, with its enabled flag *)
  valueBeforeGesture : option SegmentValue;
  segmentViewEl : option SegmentView;
  lastNextIndex : option Z;
  triggerScrollOnValueChange : option bool;
  (* @State and @Prop *)
  activated : bool;
  disabled : bool;
  scrollable : bool;
  swipeGesture : bool;
  value : option SegmentValue;
  selectOnFocus : bool;
  (* the document, as the component sees it *)
  buttons : list Button.t;          (* el.querySelectorAll('ion-segment-button') *)
  activeElement : option Elt;       (* document.activeElement *)
  rtl : bool;                       (* isRTL(this.el) *)
  (* calls made so far, most recent first *)
  trace : list Effect;
}.

Definition with_gesture x s :=
  {| gesture := x; valueBeforeGesture := valueBeforeGesture s;
     segmentViewEl := segmentViewEl s; lastNextIndex := lastNextIndex s;
     triggerScrollOnValueChange := triggerScrollOnValueChange s;
     activated := activated s; disabled := disabled s;
     scrollable := scrollable s; swipeGesture := swipeGesture s;
     value := value s; selectOnFocus := selectOnFocus s;
     buttons := buttons s; activeElement := activeElement s; rtl := rtl s;
     trace := trace s |}.

Definition with_valueBeforeGesture x s :=
  {| gesture := gesture s; valueBeforeGesture := x;
     segmentViewEl := segmentViewEl s; lastNextIndex := lastNextIndex s;
     triggerScrollOnValueChange := triggerScrollOnValueChange s;
     activated := activated s; disabled := disabled s;
     scrollable := scrollable s; swipeGesture := swipeGesture s;
     value := value s; selectOnFocus := selectOnFocus s;
     buttons := buttons s; activeElement := activeElement s; rtl := rtl s;
     trace := trace s |}.

Definition with_segmentViewEl x s :=
  {| gesture := gesture s; valueBeforeGesture := valueBeforeGesture s;
     segmentViewEl := x; lastNextIndex := lastNextIndex s;
     triggerScrollOnValueChange := triggerScrollOnValueChange s;
     activated := activated s; disabled := disabled s;
     scrollable := scrollable s; swipeGesture := swipeGesture s;
     value := value s; selectOnFocus := selectOnFocus s;
     buttons := buttons s; activeElement := activeElement s; rtl := rtl s;
     trace := trace s |}.

Definition with_lastNextIndex x s :=
  {| gesture := gesture s; valueBeforeGesture := valueBeforeGesture s;
     segmentViewEl := segmentViewEl s; lastNextIndex := x;
     triggerScrollOnValueChange := triggerScrollOnValueChange s;
     activated := activated s; disabled := disabled s;
     scrollable := scrollable s; swipeGesture := swipeGesture s;
     value := value s; selectOnFocus := selectOnFocus s;
     buttons := buttons s; activeElement := activeElement s; rtl := rtl s;
     trace := trace s |}.

Definition with_triggerScrollOnValueChange x s :=
  {| gesture := gesture s; valueBeforeGesture := valueBeforeGesture s;
     segmentViewEl := segmentViewEl s; lastNextIndex := lastNextIndex s;
     triggerScrollOnValueChange := x;
     activated := activated s; disabled := disabled s;
     scrollable := scrollable s; swipeGesture := swipeGesture s;
     value := value s; selectOnFocus := selectOnFocus s;
     buttons := buttons s; activeElement := activeElement s; rtl := rtl s;
     trace := trace s |}.

Definition with_activated x s :=
  {| gesture := gesture s; valueBeforeGesture := valueBeforeGesture s;
     segmentViewEl := segmentViewEl s; lastNextIndex := lastNextIndex s;
     triggerScrollOnValueChange := triggerScrollOnValueChange s;
     activated := x; disabled := disabled s;
     scrollable := scrollable s; swipeGesture := swipeGesture s;
     value := value s; selectOnFocus := selectOnFocus s;
     buttons := buttons s; activeElement := activeElement s; rtl := rtl s;
     trace := trace s |}.

Definition with_disabled x s :=
  {| gesture := gesture s; valueBeforeGesture := valueBeforeGesture s;
     segmentViewEl := segmentViewEl s; lastNextIndex := lastNextIndex s;
     triggerScrollOnValueChange := triggerScrollOnValueChange s;
     activated := activated s; disabled := x;
     scrollable := scrollable s; swipeGesture := swipeGesture s;
     value := value s; selectOnFocus := selectOnFocus s;
     buttons := buttons s; activeElement := activeElement s; rtl := rtl s;
     trace := trace s |}.

Definition with_value x s :=
  {| gesture := gesture s; valueBeforeGesture := valueBeforeGesture s;
     segmentViewEl := segmentViewEl s; lastNextIndex := lastNextIndex s;
     triggerScrollOnValueChange := triggerScrollOnValueChange s;
     activated := activated s; disabled := disabled s;
     scrollable := scrollable s; swipeGesture := swipeGesture s;
     value := x; selectOnFocus := selectOnFocus s;
     buttons := buttons s; activeElement := activeElement s; rtl := rtl s;
     trace := trace s |}.

Definition with_buttons x s :=
  {| gesture := gesture s; valueBeforeGesture := valueBeforeGesture s;
     segmentViewEl := segmentViewEl s; lastNextIndex := lastNextIndex s;
     triggerScrollOnValueChange := triggerScrollOnValueChange s;
     activated := activated s; disabled := disabled s;
     scrollable := scrollable s; swipeGesture := swipeGesture s;
     value := value s; selectOnFocus := selectOnFocus s;
     buttons := x; activeElement := activeElement s; rtl := rtl s;
     trace := trace s |}.

Definition with_activeElement x s :=
  {| gesture := gesture s; valueBeforeGesture := valueBeforeGesture s;
     segmentViewEl := segmentViewEl s; lastNextIndex := lastNextIndex s;
     triggerScrollOnValueChange := triggerScrollOnValueChange s;
     activated := activated s; disabled := disabled s;
     scrollable := scrollable s; swipeGesture := swipeGesture s;
     value := value s; selectOnFocus := selectOnFocus s;
     buttons := buttons s; activeElement := x; rtl := rtl s;
     trace := trace s |}.

Definition with_trace x s :=
  {| gesture := gesture s; valueBeforeGesture := valueBeforeGesture s;
     segmentViewEl := segmentViewEl s; lastNextIndex := lastNextIndex s;
     triggerScrollOnValueChange := triggerScrollOnValueChange s;
     activated := activated s; disabled := disabled s;
     scrollable := scrollable s; swipeGesture := swipeGesture s;
     value := value s; selectOnFocus := selectOnFocus s;
     buttons := buttons s; activeElement := activeElement s; rtl := rtl s;
     trace := x |}.

(** ** The monad of methods

    A call returns normally with a result and the new state, or throws (a
    [TypeError] on reading a property of [undefined]) leaving the state as
    it was at the throw.  [OutOfFuel] is the bounded unfolding of the
    watcher recursion running out; [assign_value_total] shows it does not
    happen. *)

Inductive result (A : Type) :=
  | Ok (a : A) (s : Segment)
  | Throw (s : Segment)
  | OutOfFuel.
Arguments Ok {A} a s.
Arguments Throw {A} s.
Arguments OutOfFuel {A}.

Definition M (A : Type) := Segment → result A.

Definition ret {A} (a : A) : M A := λ s, Ok a s.

Definition bind {A B} (m : M A) (k : A → M B) : M B := λ s,
  match m s with
  | Ok a s' => k a s'
  | Throw s' => Throw s'
  | OutOfFuel => OutOfFuel
  end.

Definition throw {A} : M A := λ s, Throw s.
Definition get : M Segment := λ s, Ok s s.
Definition modify (f : Segment → Segment) : M unit := λ s, Ok tt (f s).
Definition emit (e : Effect) : M unit := modify (λ s, with_trace (e :: trace s) s).
Definition when (b : bool) (m : M unit) : M unit := if b then m else ret tt.

Declare Scope seg_scope.
Delimit Scope seg_scope with seg.
Notation "x <- m ;; k" := (bind m (λ x, k))
  (at level 100, m at next level, right associativity) : seg_scope.
Notation "m ;; k" := (bind m (λ _, k))
  (at level 100, right associativity) : seg_scope.
Local Open Scope seg_scope.

(** The browser calling a listener: an exception that escapes the listener
    is reported and the next event is dispatched all the same. *)
Definition dispatch {A} (m : M A) : M unit := λ s,
  match m s with
  | Ok _ s' => Ok tt s'
  | Throw s' => Ok tt s'
  | OutOfFuel => OutOfFuel
  end.

Fixpoint dispatch_all (listeners : list (M unit)) : M unit :=
  match listeners with
  | [] => ret tt
  | m :: listeners => dispatch m ;; dispatch_all listeners
  end.

(** ** Array helpers *)

(** [Array.prototype.find], returning the position with the element. *)
Definition find {A} (P : A → Prop) `{∀ x, Decision (P x)} (l : list A)
  : option (nat * A) := list_find P l.

(** [Array.prototype.findIndex]: [-1] when nothing is found. *)
Definition findIndex {A} (P : A → Prop) `{∀ x, Decision (P x)} (l : list A) : Z :=
  match list_find P l with
  | Some (i, _) => Z.of_nat i
  | None => -1
  end.

(** [array[i]] for a JavaScript number [i]: [undefined] out of range. *)
Definition at_index {A} (l : list A) (i : Z) : option A :=
  if decide (0 ≤ i) then l !! Z.to_nat i else None.

(** [Math.round]: the nearest integer, halves towards +infinity. *)
Definition Math_round (x : Q) : Z := Qfloor (x + (1 # 2))%Q.

(** [button.value === v] for the (possibly undefined) group value [v]. *)
Definition has_value (v : option SegmentValue) (b : Button.t) : Prop :=
  v = Some (Button.value b).

#[global] Instance has_value_dec v b : Decision (has_value v b).
Proof. unfold has_value. apply _. Defined.

(** [a ?? b] *)
Definition nullish {A} (a b : option A) : option A :=
  match a with
  | Some _ => a
  | None => b
  end.

(** ** Reading elements *)

(** [element.value]: [undefined] on the host and on an element that is no
    button (buttons of other segments are left out, see the conventions). *)
Definition elt_value (s : Segment) (e : Elt) : option SegmentValue :=
  match e with
  | EButton i => Button.value <$> buttons s !! i
  | ESegment | EOther => None
  end.

(** [buttons[i]] as an element. *)
Definition button_at (s : Segment) (i : Z) : option Elt :=
  (λ _, EButton (Z.to_nat i)) <$> at_index (buttons s) i.

(** [buttons.find((button) => button.value === this.value)] as an element. *)
Definition checked (s : Segment) : option Elt :=
  (λ p, EButton p.1) <$> find (has_value (value s)) (buttons s).

(** ** Methods that do not assign [value] *)

Definition getButtons : M (list Button.t) := λ s, Ok (buttons s) s.

Definition emitValueChange : M unit :=
  s <- get ;;
  emit (IonChange (value s)).

Definition emitStyle : M unit := emit IonStyle.

Definition gestureChanged : M unit :=
  s <- get ;;
  match gesture s with
  | Some _ =>
      modify (with_gesture
                (Some (negb (scrollable s) && negb (disabled s) && swipeGesture s)))
  | None => ret tt
  end.

Definition setActivated (a : bool) : M unit :=
  buttons <- getButtons ;;
  modify (with_buttons (Button.with_activatedClass a <$> buttons)) ;;
  modify (with_activated a).

Definition setCheckedClasses : M unit :=
  buttons <- getButtons ;;
  s <- get ;;
  let index := findIndex (has_value (value s)) buttons in
  let next := index + 1 in
  let cleared := Button.with_afterCheckedClass false <$> buttons in
  modify (with_buttons
            (if decide (next < Z.of_nat (length buttons))
             then alter (Button.with_afterCheckedClass true) (Z.to_nat next) cleared
             else cleared)).

(** [root.querySelector('.segment-button-indicator')] with its bounding box.
    Reading [shadowRoot] of [undefined] throws; the host and an element
    that is no button hold no indicator in their own tree, and neither does
    a button that is no longer among the slotted ones.  (A button of another
    segment would hold one; such elements are left out, see the
    conventions.) *)
Definition getIndicator (button : option Elt) : M (option DOMRect) :=
  match button with
  | None => throw
  | Some (EButton i) =>
      buttons <- getButtons ;;
      ret (b ← buttons !! i; Button.indicator b)
  | Some ESegment | Some EOther => ret None
  end.

Definition updateSegmentView (smoothScroll : bool) : M unit :=
  buttons <- getButtons ;;
  s <- get ;;
  match find (has_value (value s)) buttons with
  | Some (_, button) =>
      match Button.contentId button with
      | Some id =>
          if decide (id = EmptyString) then ret tt
          else match segmentViewEl s with
               | Some _ => emit (SetContent id smoothScroll)
               | None => ret tt
               end
      | None => ret tt
      end
  | None => ret tt
  end.

(** The position handed to [scrollTo] is computed from the layout and is
    not kept: the trace records which button is centred and how. *)
Definition scrollActiveButtonIntoView (smoothScroll : bool) : M unit :=
  s <- get ;;
  if scrollable s then
    buttons <- getButtons ;;
    match find (has_value (value s)) buttons with
    | Some (i, _) => emit (ScrollTo i smoothScroll)
    | None => ret tt
    end
  else ret tt.

(** ** Assigning [value]: the watcher and its recursion

    [value] is a mutable [@Prop] watched by [valueChanged].  The methods
    below that assign [this.value] are written over the assignment
    [assign], which the fixpoint [assign_value] then provides. *)

Section Watched.
Variable assign : option SegmentValue → M unit.

Definition checkButton_ (previous current : option Elt) : M unit :=
  previousIndicator <- getIndicator previous ;;
  currentIndicator <- getIndicator current ;;
  match previousIndicator, currentIndicator, current with
  | Some previousClientRect, Some currentClientRect, Some (EButton c) =>
      let xPosition := left previousClientRect - left currentClientRect in
      emit (WriteTask c xPosition (width previousClientRect)
                      (width currentClientRect)) ;;
      s <- get ;;
      assign (elt_value s (EButton c)) ;;
      setCheckedClasses
  | _, _, _ => ret tt
  end.

Definition valueChanged_ (value oldValue : option SegmentValue) : M unit :=
  s <- get ;;
  if bool_decide (is_Some (segmentViewEl s) ∧ value = None) then
    buttons <- getButtons ;;
    match buttons with
    | first :: _ => assign (Some (Button.value first))
    | [] => throw
    end
  else
    match oldValue, value with
     | Some _, Some _ =>
         buttons <- getButtons ;;
         match find (has_value oldValue) buttons,
               find (has_value value) buttons with
         | Some (previous, _), Some (current, _) =>
             match segmentViewEl s with
             | None =>
                 checkButton_ (Some (EButton previous)) (Some (EButton current))
             | Some _ =>
                 if decide (triggerScrollOnValueChange s ≠ Some false)
                 then updateSegmentView true
                 else ret tt
             end
         | _, _ => ret tt
         end
     | None, Some _ =>
         when (bool_decide (is_Some (segmentViewEl s))) (updateSegmentView true)
     | _, None => ret tt
     end ;;
    emit (IonSelect value) ;;
    s <- get ;;
    when (bool_decide (segmentViewEl s = None)) (scrollActiveButtonIntoView true) ;;
    modify (with_triggerScrollOnValueChange None).
End Watched.

(** Modelled from the Stencil runtime, which is not part of this
    repository: assigning a watched property stores the new value and,
    when it differs from the old one, calls the watcher at once with the
    new and the old value; an exception of the watcher is caught and
    logged.  [fuel] bounds the nesting of assignments made by the watcher
    itself. *)
Definition caught (r : result unit) : result unit :=
  match r with
  | Ok _ s' => Ok tt s'
  | Throw s' => Ok tt (with_trace (ConsoleError :: trace s') s')
  | OutOfFuel => OutOfFuel
  end.

Fixpoint assign_value (fuel : nat) (v : option SegmentValue) (s : Segment)
  : result unit :=
  if decide (v = value s) then Ok tt s
  else match fuel with
       | O => OutOfFuel
       | S fuel' =>
           caught (valueChanged_ (assign_value fuel') v (value s) (with_value v s))
       end.

(** The watcher assigns at most once more, and that assignment's watcher
    assigns nothing new ([assign_value_total]). *)
Definition watch_depth : nat := 2.

(** [this.value = v] *)
Definition set_value (v : option SegmentValue) : M unit := assign_value watch_depth v.

Definition checkButton : option Elt → option Elt → M unit := checkButton_ set_value.

Definition valueChanged : option SegmentValue → option SegmentValue → M unit :=
  valueChanged_ set_value.

(** ** Gesture *)

(** What a handler reads of a [GestureDetail] and of the document at the
    pointer: [hit] is [root.elementFromPoint(currentX, previousY)], [None]
    when it returns [null].  The host is taken to be in a document or a
    shadow root, so that the call can be made (see the conventions). *)
Record GestureDetail := {
  currentX : Z;
  target : Elt;           (* detail.event.target *)
  hit : option Elt;
}.

Definition activate (detail : GestureDetail) : M unit :=
  let clicked := target detail in
  s <- get ;;
  let checked := find (has_value (value s)) (buttons s) in
  match clicked with
  | EButton _ =>
      when (bool_decide (checked = None))
           (set_value (elt_value s clicked) ;; setCheckedClasses) ;;
      s <- get ;;
      when (bool_decide (value s = elt_value s clicked)) (setActivated true)
  | ESegment | EOther => ret tt
  end.

(** Returns [undefined], [false] or [true]. *)
Definition setNextIndex (detail : GestureDetail) (isEnd : bool) : M (option bool) :=
  s <- get ;;
  let rtl := rtl s in
  let activated := activated s in
  buttons <- getButtons ;;
  let index := findIndex (has_value (value s)) buttons in
  match at_index buttons index with
  | None => ret None
  | Some previous =>
      let rect := Button.rect previous in
      let currentX := currentX detail in
      let nextEl := hit detail in
      let decreaseIndex :=
        if rtl then bool_decide (currentX > left rect + width rect)
        else bool_decide (currentX < left rect) in
      let increaseIndex :=
        if rtl then bool_decide (currentX < left rect)
        else bool_decide (currentX > left rect + width rect) in
      current <-
        (if activated && negb isEnd then
           let nextIndex :=
             if decreaseIndex then
               let newIndex := index - 1 in
               if decide (newIndex >= 0) then Some newIndex else None
             else if increaseIndex then
               let newIndex := index + 1 in
               if decide (newIndex < Z.of_nat (length buttons)) then Some newIndex
               else None
             else None in
           match nextIndex with
           | Some n =>
               match at_index buttons n with
               | Some b => ret (if Button.disabled b then None
                                else Some (EButton (Z.to_nat n)))
               | None => throw
               end
           | None => ret None
           end
         else ret None) ;;
      let current := if negb activated && isEnd then nextEl else current in
      match current with
      | Some ESegment => ret (Some false)
      | Some c =>
          when (bool_decide (EButton (Z.to_nat index) ≠ c))
               (checkButton (Some (EButton (Z.to_nat index))) (Some c)) ;;
          ret (Some true)
      | None => ret (Some true)
      end
  end.

Definition onStart (detail : GestureDetail) : M unit :=
  s <- get ;;
  modify (with_valueBeforeGesture (value s)) ;;
  activate detail.

Definition onMove (detail : GestureDetail) : M unit :=
  setNextIndex detail false ;; ret tt.

Definition onEnd (detail : GestureDetail) : M unit :=
  setActivated false ;;
  setNextIndex detail true ;;
  emit StopImmediatePropagation ;;
  s <- get ;;
  match value s with
  | Some _ =>
      when (bool_decide (valueBeforeGesture s ≠ value s))
           (emitValueChange ;; updateSegmentView true)
  | None => ret tt
  end ;;
  modify (with_valueBeforeGesture None).

(** ** Scroll of the segment view *)

(** [CustomEvent<SegmentViewScrollEvent>] with the two DOM tests the
    handler makes on it. *)
Record SegmentViewScrollEvent := {
  scrollRatio : Q;
  isManualScroll : bool;
  pathIncludesView : bool;       (* ev.composedPath().includes(segmentViewEl), a view being attached *)
  targetContainsSegment : bool;  (* dispatchedFrom?.contains(segmentEl) *)
}.

(** [Math.round(scrollRatio * (buttons.length - 1))] *)
Definition scrollIndex (scrollRatio : Q) (count : nat) : Z :=
  Math_round (scrollRatio * inject_Z (Z.of_nat count - 1))%Q.

Definition handleSegmentViewScroll (ev : SegmentViewScrollEvent) : M unit :=
  if negb (isManualScroll ev) then ret tt
  else
    s <- get ;;
    if bool_decide (is_Some (segmentViewEl s)) && pathIncludesView ev
       || targetContainsSegment ev
    then
      buttons <- getButtons ;;
      match buttons with
      | [] => ret tt
      | _ :: _ =>
          let index := findIndex (has_value (value s)) buttons in
          let current := button_at s index in
          let nextIndex := scrollIndex (scrollRatio ev) (length buttons) in
          if bool_decide (lastNextIndex s = None ∨ lastNextIndex s ≠ Some nextIndex)
          then
            modify (with_lastNextIndex (Some nextIndex)) ;;
            modify (with_triggerScrollOnValueChange (Some false)) ;;
            checkButton current (button_at s nextIndex) ;;
            emitValueChange
          else ret tt
      end
    else ret tt.

(** ** The [disabled] property *)

Definition disabledChanged : M unit :=
  gestureChanged ;;
  s <- get ;;
  match segmentViewEl s with
  | None =>
      buttons <- getButtons ;;
      modify (with_buttons (Button.with_disabled (disabled s) <$> buttons))
  | Some _ =>
      modify (with_segmentViewEl (Some {| view_disabled := disabled s |}))
  end.

(** [this.disabled = d]: the watcher runs when the value changes (see
    [assign_value]). *)
Definition set_disabled (d : bool) : M unit := λ s,
  if decide (d = disabled s) then Ok tt s
  else caught (disabledChanged (with_disabled d s)).

(** ** Click *)

Definition onClick (target : Elt) : M unit :=
  let current := target in
  s <- get ;;
  let previous := checked s in
  match current with
  | ESegment => ret tt
  | _ =>
      set_value (elt_value s current) ;;
      when (bool_decide (Some current ≠ previous)) emitValueChange ;;
      s <- get ;;
      match segmentViewEl s with
      | Some _ =>
          updateSegmentView true ;;
          when (scrollable s && bool_decide (is_Some previous))
               (checkButton previous (Some current))
      | None =>
          when (scrollable s || negb (swipeGesture s))
               (match previous with
                | Some _ => checkButton previous (Some current)
                | None => setCheckedClasses
                end)
      end
  end.

Definition onSlottedItemsChange : M unit :=
  s <- get ;;
  valueChanged (value s) None.

(** ** Keyboard *)

Inductive Selector := First | Last | Next | Previous.

(** [this.getButtons().filter((button) => !button.disabled)], each button
    with its position among all buttons. *)
Definition enabledButtons (s : Segment) : list (nat * Button.t) :=
  filter (λ p, Button.disabled p.2 = false) (imap pair (buttons s)).

Definition getSegmentButton (s : Segment) (selector : Selector) : option Elt :=
  let buttons := enabledButtons s in
  let currIndex :=
    findIndex (λ p, activeElement s = Some (EButton p.1)) buttons in
  (λ p, EButton p.1) <$>
    match selector with
    | First => at_index buttons 0
    | Last => at_index buttons (Z.of_nat (length buttons) - 1)
    | Next => nullish (at_index buttons (currIndex + 1)) (at_index buttons 0)
    | Previous =>
        nullish (at_index buttons (currIndex - 1))
                (at_index buttons (Z.of_nat (length buttons) - 1))
    end.

Inductive Key :=
  | KeyArrowRight | KeyArrowLeft | KeyHome | KeyEnd | KeySpace | KeyEnter
  | KeyOther.

(** [current.setFocus()]: a method of the buttons only. *)
Definition setFocus (current : Elt) : M unit :=
  match current with
  | EButton _ => modify (with_activeElement (Some current))
  | ESegment | EOther => throw
  end.

Definition onKeyDown (key : Key) : M unit :=
  s <- get ;;
  let rtl := rtl s in
  sel <-
    match key with
    | KeyArrowRight =>
        emit PreventDefault ;;
        ret (getSegmentButton s (if rtl then Previous else Next), selectOnFocus s)
    | KeyArrowLeft =>
        emit PreventDefault ;;
        ret (getSegmentButton s (if rtl then Next else Previous), selectOnFocus s)
    | KeyHome =>
        emit PreventDefault ;;
        ret (getSegmentButton s First, selectOnFocus s)
    | KeyEnd =>
        emit PreventDefault ;;
        ret (getSegmentButton s Last, selectOnFocus s)
    | KeySpace | KeyEnter =>
        emit PreventDefault ;;
        ret (activeElement s, true)
    | KeyOther => ret (None, selectOnFocus s)
    end ;;
  let '(current, keyDownSelectsButton) := sel in
  match current with
  | None => ret tt
  | Some c =>
      when keyDownSelectsButton
           (s <- get ;;
            let previous := checked s in
            checkButton (nullish previous current) current ;;
            when (bool_decide (current ≠ previous)) emitValueChange) ;;
      setFocus c
  end.

(** * Specification vocabulary *)

(** ** What a trace holds *)

Definition is_IonChange (e : Effect) : bool :=
  match e with IonChange _ => true | _ => false end.
Definition is_IonSelect (e : Effect) : bool :=
  match e with IonSelect _ => true | _ => false end.
Definition is_SetContent (e : Effect) : bool :=
  match e with SetContent _ _ => true | _ => false end.
Definition is_WriteTask (e : Effect) : bool :=
  match e with WriteTask _ _ _ _ => true | _ => false end.

(** The events of one kind in a trace, most recent first. *)
Definition only (kind : Effect → bool) (s : Segment) : list Effect :=
  List.filter kind (trace s).

Definition ionChanges : Segment → list Effect := only is_IonChange.
Definition ionSelects : Segment → list Effect := only is_IonSelect.
Definition setContents : Segment → list Effect := only is_SetContent.
Definition writeTasks : Segment → list Effect := only is_WriteTask.

(** ** Outcomes of a call *)

(** [sat m s Q E]: from [s] the call [m] ends, normally in a state
    satisfying [Q] or by a throw in a state satisfying [E]. *)
Definition sat {A} (m : M A) (s : Segment)
    (Q : A → Segment → Prop) (E : Segment → Prop) : Prop :=
  match m s with
  | Ok a s' => Q a s'
  | Throw s' => E s'
  | OutOfFuel => False
  end.

(** Every call of [m] ends and relates the state before to the state
    after; it may end by a throw only if [throws] is set. *)
Definition steps {A} (R : relation Segment) (throws : bool) (m : M A) : Prop :=
  ∀ s, sat m s (λ _, R s) (λ s', throws = true ∧ R s s').

(** The buttons up to the two presentation classes the segment toggles. *)
Definition unstyled (b : Button.t) : Button.t :=
  Button.with_activatedClass false (Button.with_afterCheckedClass false b).

(** [same_group s s']: the states differ at most in [value], the
    suppression flag, the trace and the classes of the buttons. *)
Record same_group (s s' : Segment) : Prop := {
  sg_gesture : gesture s' = gesture s;
  sg_valueBeforeGesture : valueBeforeGesture s' = valueBeforeGesture s;
  sg_segmentViewEl : segmentViewEl s' = segmentViewEl s;
  sg_lastNextIndex : lastNextIndex s' = lastNextIndex s;
  sg_activated : activated s' = activated s;
  sg_disabled : disabled s' = disabled s;
  sg_scrollable : scrollable s' = scrollable s;
  sg_swipeGesture : swipeGesture s' = swipeGesture s;
  sg_selectOnFocus : selectOnFocus s' = selectOnFocus s;
  sg_buttons : unstyled <$> buttons s' = unstyled <$> buttons s;
  sg_activeElement : activeElement s' = activeElement s;
  sg_rtl : rtl s' = rtl s;
}.

(** The relation that holds of any two states: [steps anything] says no
    more than that a call ends. *)
Definition anything : relation Segment := λ _ _, True.

(** [keeps f s s']: the observation [f] is the same in both states. *)
Definition keeps {X} (f : Segment → X) : relation Segment := λ s s', f s' = f s.

(** A callback that leaves alone a value already held, as [this.value = v]
    does. *)
Definition idle_when_held (assign : option SegmentValue → M unit) : Prop :=
  ∀ v s, v = value s → assign v s = Ok tt s.

(** The callback that does nothing: what assigning the value already held
    amounts to. *)
Definition silent : option SegmentValue → M unit := λ _, ret tt.

(** ** Concrete groups *)

(** A button labelled [label], 100 pixels wide with its left edge at [x],
    with its indicator rendered. *)
Definition text_button (label : string) (x : Z) (isDisabled : bool) : Button.t :=
  {| Button.value := VString label;
     Button.disabled := isDisabled;
     Button.contentId := None;
     Button.rect := {| left := x; top := 0; width := 100; height := 40 |};
     Button.indicator := Some {| left := x; top := 36; width := 100; height := 4 |};
     Button.activatedClass := false;
     Button.afterCheckedClass := false |}.

(** A loaded segment over the given buttons, without a segment view. *)
Definition group (bs : list Button.t) (v : option SegmentValue) : Segment :=
  {| gesture := Some true; valueBeforeGesture := None; segmentViewEl := None;
     lastNextIndex := None; triggerScrollOnValueChange := None;
     activated := false; disabled := false; scrollable := false;
     swipeGesture := true; value := v; selectOnFocus := false;
     buttons := bs; activeElement := None; rtl := false; trace := [] |}.

Definition abc : Segment :=
  group [text_button "a" 0 false; text_button "b" 100 false;
         text_button "c" 200 false]
        (Some (VString "a")).

(** The pointer at [x], over the [i]-th button, in a gesture begun on the
    first button. *)
Definition pointer_over (x : Z) (i : nat) : GestureDetail :=
  {| currentX := x; target := EButton 0; hit := Some (EButton i) |}.

Definition drag_session (start : GestureDetail) (moves : list GestureDetail)
    (release : GestureDetail) : M unit :=
  dispatch (onStart start) ;;
  dispatch_all (onMove <$> moves) ;;
  dispatch (onEnd release).

(** What a drag has committed and what it will compare with at its end. *)
Definition committed (s : Segment) : list Effect * option SegmentValue :=
  (ionChanges s, valueBeforeGesture s).

(** What has been reported to the buttons, and the value held. *)
Definition reported (s : Segment) : list Effect * option SegmentValue :=
  (ionSelects s, value s).

(** A button as [text_button] that shows the content [id] of a segment view. *)
Definition content_button (label : string) (x : Z) (id : string) : Button.t :=
  {| Button.value := VString label;
     Button.disabled := false;
     Button.contentId := Some id;
     Button.rect := {| left := x; top := 0; width := 100; height := 40 |};
     Button.indicator := Some {| left := x; top := 36; width := 100; height := 4 |};
     Button.activatedClass := false;
     Button.afterCheckedClass := false |}.

(** A loaded segment bound to a segment view. *)
Definition viewed_group (bs : list Button.t) (v : option SegmentValue) : Segment :=
  with_segmentViewEl (Some {| view_disabled := false |}) (group bs v).

Definition pages : Segment :=
  viewed_group [content_button "a" 0 "page-a"; content_button "b" 100 "page-b";
                content_button "c" 200 "page-c"]
               (Some (VString "a")).

(** The user scrolling the segment view of the group to [ratio]. *)
Definition manual_scroll (ratio : Q) : SegmentViewScrollEvent :=
  {| scrollRatio := ratio; isManualScroll := true;
     pathIncludesView := true; targetContainsSegment := false |}.

(** The listener acts on the event: it is a manual scroll that comes from
    the view of this group, there are buttons, and the index it resolves is
    not the last one resolved. *)
Definition acted_on (ev : SegmentViewScrollEvent) (s : Segment) : Prop :=
  isManualScroll ev = true
  ∧ (is_Some (segmentViewEl s) ∧ pathIncludesView ev = true
     ∨ targetContainsSegment ev = true)
  ∧ buttons s ≠ []
  ∧ lastNextIndex s ≠ Some (scrollIndex (scrollRatio ev) (length (buttons s))).

(** The indicator [getIndicator] finds in an element. *)
Definition indicator_of (s : Segment) (e : Elt) : option DOMRect :=
  match e with
  | EButton i => b ← buttons s !! i; Button.indicator b
  | ESegment | EOther => None
  end.

(** The group [abc], activated, with the indicator of b not rendered. *)
Definition abc_bare : Segment :=
  with_buttons
    [text_button "a" 0 false;
     {| Button.value := VString "b"; Button.disabled := false;
        Button.contentId := None;
        Button.rect := {| left := 100; top := 0; width := 100; height := 40 |};
        Button.indicator := None;
        Button.activatedClass := false; Button.afterCheckedClass := false |};
     text_button "c" 200 false]
    (with_activated true abc).

(** ** Crossing an edge of the checked button, in the words of the
    specification *)

Inductive Edge := LeftEdge | RightEdge.

(** The pointer is beyond the edge of the box of button [b]. *)
Definition crossed (detail : GestureDetail) (b : Button.t) (edge : Edge) : Prop :=
  match edge with
  | LeftEdge => currentX detail < left (Button.rect b)
  | RightEdge => currentX detail > left (Button.rect b) + width (Button.rect b)
  end.

(** Crossing the left edge decreases the index in left-to-right mode and
    increases it in right-to-left mode, and symmetrically for the right
    edge. *)
Definition index_step (isRtl : bool) (edge : Edge) : Z :=
  match edge, isRtl with
  | LeftEdge, false => -1
  | LeftEdge, true => 1
  | RightEdge, false => 1
  | RightEdge, true => -1
  end.

(** Three buttons of which the middle one is disabled, the first one
    checked. *)
Definition middle_disabled (s : Segment) (first : Button.t) : Prop :=
  ∃ b0 b1 b2,
    buttons s = [b0; b1; b2] ∧ Button.disabled b1 = true
    ∧ Button.value b0 = Button.value first ∧ value s = Some (Button.value b0).

(** The group [abc] with b disabled. *)
Definition a_c : Segment :=
  group [text_button "a" 0 false; text_button "b" 100 true;
         text_button "c" 200 false]
        (Some (VString "a")).

(** The group [pages] before any value has been given. *)
Definition pages_unset : Segment := with_value None pages.

(** Five buttons of which the first and the last are disabled, the fourth
    one focused. *)
Definition five : Segment :=
  with_activeElement (Some (EButton 3))
    (group [text_button "1" 0 true; text_button "2" 100 false;
            text_button "3" 200 false; text_button "4" 300 false;
            text_button "5" 400 true]
           (Some (VString "2"))).

(** * The rest of the component *)

Definition with_swipeGesture x s :=
  {| gesture := gesture s; valueBeforeGesture := valueBeforeGesture s;
     segmentViewEl := segmentViewEl s; lastNextIndex := lastNextIndex s;
     triggerScrollOnValueChange := triggerScrollOnValueChange s;
     activated := activated s; disabled := disabled s;
     scrollable := scrollable s; swipeGesture := x;
     value := value s; selectOnFocus := selectOnFocus s;
     buttons := buttons s; activeElement := activeElement s; rtl := rtl s;
     trace := trace s |}.

Definition with_scrollable x s :=
  {| gesture := gesture s; valueBeforeGesture := valueBeforeGesture s;
     segmentViewEl := segmentViewEl s; lastNextIndex := lastNextIndex s;
     triggerScrollOnValueChange := triggerScrollOnValueChange s;
     activated := activated s; disabled := disabled s;
     scrollable := x; swipeGesture := swipeGesture s;
     value := value s; selectOnFocus := selectOnFocus s;
     buttons := buttons s; activeElement := activeElement s; rtl := rtl s;
     trace := trace s |}.

(** [@Watch('swipeGesture')] *)
Definition swipeGestureChanged : M unit := gestureChanged.

(** [this.swipeGesture = b], with its watcher (see [assign_value]). *)
Definition set_swipeGesture (b : bool) : M unit := λ s,
  if decide (b = swipeGesture s) then Ok tt s
  else caught (swipeGestureChanged (with_swipeGesture b s)).

(** [this.scrollable = b]: the property has no watcher. *)
Definition set_scrollable (b : bool) : M unit := modify (with_scrollable b).

Definition disconnectedCallback : M unit := modify (with_segmentViewEl None).

(** ** Vocabulary for the properties of these methods *)

(** The after-checked class sits on the button that follows the checked one
    and on no other; [findIndex] being [-1] when no button is checked, that
    is then the first button. *)
Definition marked (s : Segment) : Prop :=
  ∀ (j : nat) b, buttons s !! j = Some b →
    (Button.afterCheckedClass b = true
     ↔ Z.of_nat j = findIndex (has_value (value s)) (buttons s) + 1).

(** [quiet_without_view s s']: if no segment view is attached in [s], none
    is in [s'] and no [setContent] was called in between. *)
Definition quiet_without_view (s s' : Segment) : Prop :=
  segmentViewEl s = None →
  segmentViewEl s' = None ∧ setContents s' = setContents s.


(** The buttons up to the after-checked class. *)
Definition unmarked (b : Button.t) : Button.t :=
  Button.with_afterCheckedClass false b.

(** ** Everything that can happen to the component *)

(** The events the component listens to, the properties that can be set
    from outside, and the document changing under the component:
    [getButtons] reads the slotted buttons from the document at every call,
    and [Slotted bs focused] is the buttons being slotted anew, with the
    element that has the focus afterwards.  No code of the component runs
    then; the [slotchange] event that follows is [SlotChange]. *)
Inductive Input :=
  | GestureStart (detail : GestureDetail)
  | GestureMove (detail : GestureDetail)
  | GestureEnd (detail : GestureDetail)
  | ViewScroll (ev : SegmentViewScrollEvent)
  | Click (target : Elt)
  | KeyDown (key : Key)
  | Slotted (bs : list Button.t) (focused : option Elt)
  | SlotChange
  | SetValue (v : option SegmentValue)
  | SetDisabled (d : bool)
  | SetSwipeGesture (b : bool)
  | SetScrollable (b : bool)
  | Disconnected.

Definition handler (input : Input) : M unit :=
  match input with
  | GestureStart detail => onStart detail
  | GestureMove detail => onMove detail
  | GestureEnd detail => onEnd detail
  | ViewScroll ev => handleSegmentViewScroll ev
  | Click target => onClick target
  | KeyDown key => onKeyDown key
  | Slotted bs focused =>
      modify (λ s, with_activeElement focused (with_buttons bs s))
  | SlotChange => onSlottedItemsChange
  | SetValue v => set_value v
  | SetDisabled d => set_disabled d
  | SetSwipeGesture b => set_swipeGesture b
  | SetScrollable b => set_scrollable b
  | Disconnected => disconnectedCallback
  end.

(** The inputs handled one after the other. *)
Definition run (inputs : list Input) : M unit :=
  dispatch_all (handler <$> inputs).


(** What the user committed and the value held. *)
Definition settled (s : Segment) : option SegmentValue * list Effect :=
  (value s, ionChanges s).

(** The element [e], if a button of the group, has the value of the group. *)
Definition holds_value (s : Segment) (e : Elt) : Prop :=
  ∀ i b, e = EButton i → buttons s !! i = Some b → value s = Some (Button.value b).

(** Between [s] and [s'] at most one [ionChange] was emitted, and it
    carries the value held in [s']. *)
Definition at_most_one_commit (s s' : Segment) : Prop :=
  ionChanges s' = ionChanges s ∨ ionChanges s' = IonChange (value s') :: ionChanges s.

(** The gesture exists and is enabled exactly as [gestureChanged] would
    enable it. *)
Definition gesture_synced (s : Segment) : Prop :=
  gesture s = Some (negb (scrollable s) && negb (disabled s) && swipeGesture s).

Definition sets_scrollable (input : Input) : bool :=
  match input with SetScrollable _ => true | _ => false end.

(** If the gesture was in step with the properties, it still is. *)
Definition stays_synced (s s' : Segment) : Prop :=
  gesture_synced s → gesture_synced s'.

(** The pointer is within the box of the checked button, its edges
    included; nothing is asked when no button is checked. *)
Definition pointer_on_checked (detail : GestureDetail) (s : Segment) : Prop :=
  match find (has_value (value s)) (buttons s) with
  | Some (_, b) =>
      left (Button.rect b) ≤ currentX detail
                  ≤ left (Button.rect b) + width (Button.rect b)
  | None => True
  end.

(** The value held, the commits made and the suppression of the scroll of
    the view. *)
Definition suppression (s : Segment)
  : option SegmentValue * list Effect * option bool :=
  (value s, ionChanges s, triggerScrollOnValueChange s).

(** ** Loading

    [componentDidLoad] is asynchronous: it sets the classes, leaves the first
    scroll to the next animation frame and awaits the gesture.  What it runs
    once the gesture is created is [componentDidLoad_resumed]; [enabled] is
    the state in which [createGesture], which is not part of this component,
    hands over the gesture. *)
Definition componentDidLoad_resumed (enabled : bool) : M unit :=
  modify (with_gesture (Some enabled)) ;;
  gestureChanged ;;
  s <- get ;;
  when (disabled s) disabledChanged ;;
  updateSegmentView false.

(** ** What a scroll of the view leaves behind *)

(** Between [s] and [s'] no index was resolved from a scroll, no button
    came or went and no view became attached. *)
Definition remembers_scroll (s s' : Segment) : Prop :=
  lastNextIndex s' = lastNextIndex s
  ∧ length (buttons s') = length (buttons s)
  ∧ (is_Some (segmentViewEl s') → is_Some (segmentViewEl s)).

(** The inputs after which a scroll event can resolve an index anew: a
    scroll event, and the buttons being slotted anew. *)
Definition resolves_anew (input : Input) : bool :=
  match input with ViewScroll _ | Slotted _ _ => true | _ => false end.
(** * Proof rules *)

Section Rules.
Context {A B : Type}.
Implicit Types (s : Segment) (E : Segment → Prop).

Lemma sat_ret (a : A) s (Q : A → Segment → Prop) E : Q a s → sat (ret a) s Q E.
Proof. done. Qed.

Lemma sat_bind (m : M A) (k : A → M B) s (Q : B → Segment → Prop) E :
  sat m s (λ a s', sat (k a) s' Q E) E → sat (bind m k) s Q E.
Proof. unfold sat, bind. by destruct (m s). Qed.

Lemma sat_mono (m : M A) s (Q Q' : A → Segment → Prop) E E' :
  (∀ a s', Q a s' → Q' a s') → (∀ s', E s' → E' s') →
  sat m s Q E → sat m s Q' E'.
Proof. unfold sat. destruct (m s); auto. Qed.

Lemma sat_and (m : M A) s (Q Q' : A → Segment → Prop) E E' :
  sat m s Q E → sat m s Q' E' →
  sat m s (λ a s', Q a s' ∧ Q' a s') (λ s', E s' ∧ E' s').
Proof. unfold sat. destruct (m s); auto. Qed.

Lemma sat_Ok (m : M A) s (Q : A → Segment → Prop) :
  sat m s Q (λ _, False) → ∃ a s', m s = Ok a s' ∧ Q a s'.
Proof. unfold sat. destruct (m s); naive_solver. Qed.

Lemma sat_dispatch (m : M A) s (P : Segment → Prop) :
  sat m s (λ _, P) P → ∃ s', dispatch m s = Ok tt s' ∧ P s'.
Proof. unfold sat, dispatch. destruct (m s); naive_solver. Qed.
End Rules.

Section StepRules.
Context {A B : Type} (R : relation Segment) `{!PreOrder R} (t : bool).

Lemma steps_ret (a : A) : steps R t (ret a).
Proof. intros s. by apply sat_ret. Qed.

Lemma steps_throw : steps R true (@throw A).
Proof. intros s. unfold sat, throw. done. Qed.

Lemma steps_get : steps R t get.
Proof. intros s. unfold sat, get. done. Qed.

Lemma steps_getButtons : steps R t getButtons.
Proof. intros s. unfold sat, getButtons. done. Qed.

Lemma steps_modify f : (∀ s, R s (f s)) → steps R t (modify f).
Proof. intros H s. unfold sat, modify. auto. Qed.

Lemma steps_bind (m : M A) (k : A → M B) :
  steps R t m → (∀ a, steps R t (k a)) → steps R t (bind m k).
Proof.
  intros Hm Hk s. apply sat_bind. eapply sat_mono; [| |apply Hm]; simpl.
  - intros a s' Hs'. eapply sat_mono; [| |apply Hk]; simpl.
    + intros; by etrans.
    + intros ? [? ?]; split; [done|by etrans].
  - done.
Qed.

Lemma steps_weaken (m : M A) : steps R false m → steps R t m.
Proof. intros Hm s. eapply sat_mono; [| |apply Hm]; simpl; [done|by intros ? []]. Qed.

Lemma steps_dispatch (m : M A) s :
  steps R t m → ∃ s', dispatch m s = Ok tt s' ∧ R s s'.
Proof.
  intros Hm. apply sat_dispatch. eapply sat_mono; [| |apply Hm]; simpl; [done|].
  by intros ? [].
Qed.

Lemma steps_Ok (m : M A) s :
  steps R false m → ∃ a s', m s = Ok a s' ∧ R s s'.
Proof.
  intros Hm. apply sat_Ok. eapply sat_mono; [| |apply Hm]; simpl; [done|].
  by intros ? [].
Qed.
End StepRules.

Lemma steps_when R `{!PreOrder R} t b m : steps R t m → steps R t (when b m).
Proof. intros. destruct b; [done|]. by apply steps_ret. Qed.

(** One rule of [steps] at the head of the goal. *)
Ltac steps_rule :=
  lazymatch goal with
  | |- steps _ _ (bind _ _) => refine (steps_bind _ _ _ _ _ _); [|intros]
  | |- steps _ _ (ret _) => refine (steps_ret _ _ _)
  | |- steps _ true throw => refine (steps_throw _)
  | |- steps _ _ get => refine (steps_get _ _)
  | |- steps _ _ getButtons => refine (steps_getButtons _ _)
  | |- steps _ _ (when _ _) => refine (steps_when _ _ _ _ _)
  | |- steps _ _ (modify _) => refine (steps_modify _ _ _ _); intros
  | |- steps _ _ (let _ := _ in _) => cbv zeta
  | |- steps _ _ (match ?x with _ => _ end) => destruct x
  end.

(** * The watcher recursion is bounded *)

Lemma find_has_value v (l : list Button.t) i b :
  find (has_value v) l = Some (i, b) → l !! i = Some b ∧ v = Some (Button.value b).
Proof. unfold find. rewrite list_find_Some. by intros (? & ? & _). Qed.

Lemma find_has_value_None (l : list Button.t) : find (has_value None) l = None.
Proof. apply list_find_None, Forall_forall. by intros b _ ?. Qed.

Lemma getIndicator_cases e s :
  getIndicator e s = Throw s ∧ e = None
  ∨ ∃ r, getIndicator e s = Ok r s ∧ is_Some e
         ∧ (is_Some r → ∃ i b, e = Some (EButton i) ∧ buttons s !! i = Some b
                               ∧ Button.indicator b = r).
Proof.
  destruct e as [[i| |]|]; [|right; exists None; repeat split; by try inversion 1..|by left].
  right. unfold getIndicator, bind, getButtons, ret.
  eexists; repeat split; [done|]. intros [r Hr].
  destruct (buttons s !! i) as [b|] eqn:Hb; [|done]. naive_solver.
Qed.

Lemma checkButton_held f previous current s :
  idle_when_held f →
  (∀ i, current = Some (EButton i) → is_Some (buttons s !! i) →
        elt_value s (EButton i) = value s) →
  checkButton_ f previous current s = checkButton_ silent previous current s.
Proof.
  intros Hf Hv. unfold checkButton_, bind.
  destruct (getIndicator_cases previous s) as [[-> _]|(rp & -> & _ & _)]; [done|].
  destruct (getIndicator_cases current s) as [[-> _]|(rc & -> & _ & Hc)]; [done|].
  destruct rp as [rp|], rc as [rc|]; try done.
  destruct Hc as (i & b & -> & Hb & _); [done|].
  unfold emit, modify, get. rewrite Hf; [done|].
  simpl. rewrite Hb. specialize (Hv i eq_refl (mk_is_Some _ _ Hb)).
  simpl in Hv. by rewrite Hb in Hv.
Qed.

Lemma valueChanged_held f x old s :
  idle_when_held f → value s = Some x →
  valueChanged_ f (Some x) old s = valueChanged_ silent (Some x) old s.
Proof.
  intros Hf Hx. unfold valueChanged_, bind, get, getButtons.
  rewrite !bool_decide_eq_false_2 by (by intros [_ ?]).
  destruct old as [o|]; [|done].
  destruct (find (has_value (Some o)) (buttons s)) as [[p ?]|]; [|done].
  destruct (find (has_value (Some x)) (buttons s)) as [[c b]|] eqn:Hc; [|done].
  destruct (segmentViewEl s); [done|].
  rewrite (checkButton_held f); [done..|].
  intros i [= <-] _. apply find_has_value in Hc as [Hb Hc].
  simpl. rewrite Hb. simpl. congruence.
Qed.

Lemma assign_value_idle n : idle_when_held (assign_value n).
Proof. intros v s ->. destruct n; simpl; by rewrite decide_True. Qed.

Lemma silent_idle : idle_when_held silent.
Proof. done. Qed.

Lemma assign_value_S n v s :
  assign_value (S n) v s =
    if decide (v = value s) then Ok tt s
    else caught (valueChanged_ (assign_value n) v (value s) (with_value v s)).
Proof. done. Qed.

(** An assignment of a defined value runs the watcher once, and what the
    watcher assigns in turn is the value just stored. *)
Lemma assign_value_Some n x s :
  assign_value (S n) (Some x) s =
    if decide (Some x = value s) then Ok tt s
    else caught (valueChanged_ silent (Some x) (value s) (with_value (Some x) s)).
Proof.
  rewrite assign_value_S. case_decide; [done|].
  by rewrite (valueChanged_held (assign_value n)) by (done || apply assign_value_idle).
Qed.

Lemma valueChanged_None f g old s :
  (∀ x s', f (Some x) s' = g (Some x) s') →
  valueChanged_ f None old s = valueChanged_ g None old s.
Proof.
  intros Hfg. unfold valueChanged_, bind, get, getButtons.
  case_bool_decide.
  - destruct (buttons s); [done|]. apply Hfg.
  - by destruct old.
Qed.

(** Two levels of watcher are all an assignment can reach. *)
Lemma assign_value_stable n v s :
  (watch_depth ≤ n)%nat → assign_value n v s = set_value v s.
Proof.
  unfold set_value, watch_depth. intros Hn.
  destruct n as [|[|n]]; [lia..|]. destruct v as [x|].
  - by rewrite !assign_value_Some.
  - rewrite !(assign_value_S (S _)). case_decide; [done|]. f_equal.
    apply valueChanged_None. intros x s'.
    by rewrite (assign_value_Some n), (assign_value_Some 0).
Qed.

Lemma set_value_held v s : v = value s → set_value v s = Ok tt s.
Proof. apply assign_value_idle. Qed.

Lemma set_value_Some x s :
  Some x ≠ value s →
  set_value (Some x) s =
    caught (valueChanged_ silent (Some x) (value s) (with_value (Some x) s)).
Proof. intros. unfold set_value, watch_depth. by rewrite assign_value_Some, decide_False. Qed.

(** Assigning [undefined]: with a view attached the watcher stores the
    first button's value instead, without a view it reports [undefined]. *)
Lemma set_value_None s :
  None ≠ value s →
  set_value None s =
    caught
      (match segmentViewEl s, buttons s with
       | Some _, first :: _ =>
           caught (valueChanged_ silent (Some (Button.value first)) None
                     (with_value (Some (Button.value first)) (with_value None s)))
       | Some _, [] => Throw (with_value None s)
       | None, _ =>
           (emit (IonSelect None) ;;
            scrollActiveButtonIntoView true ;;
            modify (with_triggerScrollOnValueChange None)) (with_value None s)
       end).
Proof.
  intros Hv. unfold set_value, watch_depth.
  rewrite assign_value_S, decide_False by done.
  f_equal. unfold valueChanged_ at 1, bind at 1, get.
  change (segmentViewEl (with_value None s)) with (segmentViewEl s).
  destruct (segmentViewEl s) as [view|] eqn:Hview.
  - rewrite bool_decide_eq_true_2 by eauto.
    unfold bind, getButtons.
    change (buttons (with_value None s)) with (buttons s).
    destruct (buttons s) as [|first ?]; [done|].
    by rewrite assign_value_Some, decide_False.
  - rewrite bool_decide_eq_false_2 by (intros [[? [=]] _]).
    destruct (value s) as [o|]; [|done].
    unfold bind, ret, emit, modify, get. simpl. by rewrite Hview.
Qed.

(** * Frames: what the methods leave alone *)

Lemma unstyled_fmap (f : Button.t → Button.t) (l : list Button.t) :
  (∀ b, unstyled (f b) = unstyled b) → unstyled <$> (f <$> l) = unstyled <$> l.
Proof. intros Hf. induction l as [|b l IH]; csimpl; [done|]. by rewrite Hf, IH. Qed.

Lemma unstyled_alter (f : Button.t → Button.t) i (l : list Button.t) :
  (∀ b, unstyled (f b) = unstyled b) → unstyled <$> alter f i l = unstyled <$> l.
Proof.
  intros Hf. revert i. induction l as [|b l IH]; intros [|i]; csimpl; [done..| |].
  - by rewrite Hf.
  - by rewrite (IH i).
Qed.

Lemma at_index_Some {A} (l : list A) i x :
  at_index l i = Some x → 0 ≤ i < Z.of_nat (length l).
Proof.
  unfold at_index. case_decide; [|done]. intros Hx%lookup_lt_Some. lia.
Qed.

Lemma at_index_is_Some {A} (l : list A) i :
  0 ≤ i < Z.of_nat (length l) → is_Some (at_index l i).
Proof.
  intros. unfold at_index. rewrite decide_True by lia. apply lookup_lt_is_Some. lia.
Qed.

Section Frame.
Context (R : relation Segment) `{!PreOrder R} (allowed : Effect → Prop).
Hypothesis R_emit : ∀ e s, allowed e → R s (with_trace (e :: trace s) s).
Hypothesis R_classes :
  ∀ bs s, unstyled <$> bs = unstyled <$> buttons s → R s (with_buttons bs s).
Hypothesis R_trigger : ∀ x s, R s (with_triggerScrollOnValueChange x s).
Hypothesis R_value : ∀ v s, R s (with_value v s).
Hypothesis R_activated : ∀ a s, R s (with_activated a s).
Hypothesis ok_IonSelect : ∀ v, allowed (IonSelect v).
Hypothesis ok_SetContent : ∀ id smooth, allowed (SetContent id smooth).
Hypothesis ok_WriteTask : ∀ c x pw cw, allowed (WriteTask c x pw cw).
Hypothesis ok_ScrollTo : ∀ i smooth, allowed (ScrollTo i smooth).
Hypothesis ok_ConsoleError : allowed ConsoleError.

Lemma steps_emit t e : allowed e → steps R t (emit e).
Proof. intros. apply steps_modify; auto. Qed.

Lemma steps_setCheckedClasses t : steps R t setCheckedClasses.
Proof.
  unfold setCheckedClasses. intros s. unfold sat, bind, getButtons, get, modify.
  apply R_classes. simpl. case_decide.
  - rewrite unstyled_alter by done. by apply unstyled_fmap.
  - by apply unstyled_fmap.
Qed.

Lemma steps_setActivated t a : steps R t (setActivated a).
Proof.
  intros s. unfold sat, setActivated, bind, getButtons, modify.
  etrans; [|apply R_activated]. apply R_classes. by apply unstyled_fmap.
Qed.

Lemma steps_getIndicator e : steps R true (getIndicator e).
Proof. unfold getIndicator. repeat steps_rule. Qed.

Lemma steps_getIndicator_Some t e : steps R t (getIndicator (Some e)).
Proof. unfold getIndicator. repeat steps_rule. Qed.

Lemma steps_updateSegmentView t smooth : steps R t (updateSegmentView smooth).
Proof. unfold updateSegmentView. repeat steps_rule. by apply steps_emit. Qed.

Lemma steps_scrollActiveButtonIntoView t smooth :
  steps R t (scrollActiveButtonIntoView smooth).
Proof. unfold scrollActiveButtonIntoView. repeat steps_rule. by apply steps_emit. Qed.

Section Callback.
Variables (f : option SegmentValue → M unit) (t : bool).
Hypothesis steps_f : ∀ v, steps R t (f v).

Lemma steps_checkButton_Some_ previous current :
  steps R t (checkButton_ f (Some previous) (Some current)).
Proof.
  unfold checkButton_.
  repeat first [apply steps_getIndicator_Some | apply steps_setCheckedClasses
               | apply steps_f | by apply steps_emit | steps_rule].
Qed.

Lemma steps_checkButton_ previous current :
  steps R true (checkButton_ f previous current).
Proof.
  assert (∀ v, steps R true (f v)).
  { intros v. destruct t; [done|]. by apply steps_weaken. }
  unfold checkButton_.
  repeat first [apply steps_getIndicator | apply steps_setCheckedClasses
               | done | by apply steps_emit | steps_rule].
Qed.

Lemma steps_valueChanged_ v old : steps R true (valueChanged_ f v old).
Proof.
  assert (∀ v, steps R true (f v)).
  { intros v'. destruct t; [done|]. by apply steps_weaken. }
  unfold valueChanged_.
  repeat first [apply steps_checkButton_ | apply steps_updateSegmentView
               | apply steps_scrollActiveButtonIntoView
               | done | by apply steps_emit | by apply R_trigger
               | steps_rule].
Qed.
End Callback.

Lemma steps_silent t v : steps R t (silent v).
Proof. by apply steps_ret. Qed.

Lemma sat_caught (m : M unit) s0 s :
  R s0 s → sat m s (λ _, R s) (λ s', true = true ∧ R s s') →
  sat (λ s, caught (m s)) s (λ _, R s0) (λ _, False).
Proof.
  unfold sat, caught. destruct (m s) as [? s'|s'|]; [| |done].
  - intros. by etrans.
  - intros ? [_ ?]. etrans; [done|]. etrans; [done|]. by apply R_emit.
Qed.

(** An assignment always returns: what its watcher throws is caught. *)
Lemma sat_set_value v s : sat (set_value v) s (λ _, R s) (λ _, False).
Proof.
  destruct (decide (v = value s)) as [Hv|Hv].
  { unfold sat. by rewrite set_value_held. }
  unfold sat. destruct v as [x|].
  - rewrite set_value_Some by done.
    apply (sat_caught (valueChanged_ silent _ _) s); [done|].
    apply (steps_valueChanged_ silent true), steps_silent.
  - rewrite set_value_None by done.
    apply (sat_caught (λ _, _) s (with_value None s)); [done|].
    destruct (segmentViewEl s), (buttons s) as [|first ?].
    + unfold sat. by split.
    + eapply sat_mono;
        [| |apply (sat_caught (valueChanged_ silent _ _) (with_value None s))];
        simpl; [done|done|apply R_value|].
      apply (steps_valueChanged_ silent true), steps_silent.
    + assert (steps R true (emit (IonSelect None) ;; scrollActiveButtonIntoView true ;;
                            modify (with_triggerScrollOnValueChange None))) as Hs.
      { repeat first [by apply steps_emit | apply steps_scrollActiveButtonIntoView
                     | by apply R_trigger | steps_rule]. }
      apply Hs.
    + assert (steps R true (emit (IonSelect None) ;; scrollActiveButtonIntoView true ;;
                            modify (with_triggerScrollOnValueChange None))) as Hs.
      { repeat first [by apply steps_emit | apply steps_scrollActiveButtonIntoView
                     | by apply R_trigger | steps_rule]. }
      apply Hs.
Qed.

Lemma steps_set_value t v : steps R t (set_value v).
Proof. intros s. eapply sat_mono; [| |apply sat_set_value]; done. Qed.

Lemma steps_checkButton_Some t previous current :
  steps R t (checkButton (Some previous) (Some current)).
Proof. apply steps_checkButton_Some_, steps_set_value. Qed.

Lemma steps_checkButton previous current :
  steps R true (checkButton previous current).
Proof. apply (steps_checkButton_ _ true), steps_set_value. Qed.

Lemma steps_valueChanged v old : steps R true (valueChanged v old).
Proof. apply (steps_valueChanged_ _ true), steps_set_value. Qed.

(** The neighbour a move resolves to is a button of the list, so the read
    of its [disabled] flag does not throw. *)
Lemma steps_setNextIndex t detail isEnd : steps R t (setNextIndex detail isEnd).
Proof.
  unfold setNextIndex.
  refine (steps_bind _ _ _ _ _ _); [by apply steps_get|intros s].
  cbv zeta.
  refine (steps_bind _ _ _ _ _ _); [by apply steps_getButtons|intros bs].
  destruct (at_index bs _) as [previous|] eqn:Hprev; [|by apply steps_ret].
  apply at_index_Some in Hprev.
  refine (steps_bind _ _ _ _ _ _).
  - destruct (activated s && negb isEnd); [|by apply steps_ret].
    repeat (case_match; simplify_eq; try by apply steps_ret);
      match goal with
      | H : at_index bs ?n = None |- _ =>
          destruct (at_index_is_Some bs n) as [? ?]; [lia|congruence]
      end.
  - intros current.
    repeat first [apply steps_checkButton_Some | steps_rule].
Qed.

Lemma steps_onMove t detail : steps R t (onMove detail).
Proof. unfold onMove. repeat first [apply steps_setNextIndex | steps_rule]. Qed.

Lemma steps_activate t detail : steps R t (activate detail).
Proof.
  unfold activate.
  repeat first [apply steps_set_value | apply steps_setCheckedClasses
               | apply steps_setActivated | steps_rule].
Qed.
End Frame.

#[global] Instance keeps_preorder {X} (f : Segment → X) : PreOrder (keeps f).
Proof. split; [by intros ?|]. intros s1 s2 s3. unfold keeps. congruence. Qed.

#[global] Instance same_group_preorder : PreOrder same_group.
Proof.
  split; [by intros s|].
  intros s1 s2 s3 [] []. split; congruence.
Qed.

Lemma steps_dispatched R `{!PreOrder R} {A} (m : M A) t :
  steps R true m → steps R t (dispatch m).
Proof.
  intros Hm s. specialize (Hm s). unfold sat, dispatch in *.
  destruct (m s); [done| |done]. by destruct Hm.
Qed.

Lemma steps_dispatch_all R `{!PreOrder R} (ms : list (M unit)) t :
  Forall (steps R true) ms → steps R t (dispatch_all ms).
Proof.
  induction 1 as [|m ms Hm _ IH]; simpl; [by apply steps_ret|].
  refine (steps_bind _ _ _ _ _ _); [by apply steps_dispatched|done].
Qed.

(** Side conditions of the frame rules. *)
Ltac frame_solve :=
  intros; try apply _;
  first [ done
        | by (unfold keeps, ionChanges, ionSelects, setContents, writeTasks, only;
              simpl; repeat case_match; simplify_eq/=; try done; congruence)
        | by (split; simpl; try done) ].

(** ** Every listener ends *)

#[global] Instance anything_preorder : PreOrder anything.
Proof. by split. Qed.

(** With the bound [watch_depth] on the watcher recursion no listener runs
    out of fuel: each returns or throws. *)
Lemma listeners_end :
  (∀ detail, steps anything true (onStart detail))
  ∧ (∀ detail, steps anything true (onMove detail))
  ∧ (∀ detail, steps anything true (onEnd detail))
  ∧ (∀ ev, steps anything true (handleSegmentViewScroll ev))
  ∧ (∀ target, steps anything true (onClick target))
  ∧ (∀ key, steps anything true (onKeyDown key))
  ∧ steps anything true onSlottedItemsChange
  ∧ steps anything true disabledChanged.
Proof.
  assert (∀ v, steps anything true (set_value v)) as Hset.
  { intros v. by apply (steps_set_value _ (λ _, True)). }
  assert (∀ p c, steps anything true (checkButton p c)) as Hcheck.
  { intros p c. by apply (steps_checkButton _ (λ _, True)). }
  assert (∀ d e, steps anything true (setNextIndex d e)) as Hnext.
  { intros d e. by apply (steps_setNextIndex _ (λ _, True)). }
  assert (∀ v o, steps anything true (valueChanged v o)) as Hwatch.
  { intros v o. by apply (steps_valueChanged _ (λ _, True)). }
  assert (∀ smooth, steps anything true (updateSegmentView smooth)) as Hview.
  { intros smooth. by apply (steps_updateSegmentView _ (λ _, True)). }
  assert (∀ a, steps anything true (setActivated a)) as Hact.
  { intros a. by apply steps_setActivated. }
  assert (steps anything true setCheckedClasses) as Hcls.
  { by apply steps_setCheckedClasses. }
  repeat split; intros;
    unfold onStart, onMove, onEnd, handleSegmentViewScroll, onClick, onKeyDown,
      onSlottedItemsChange, disabledChanged, activate, emitValueChange,
      gestureChanged, setFocus, emit;
    repeat first [ apply Hset | apply Hcheck | apply Hnext | apply Hwatch
                 | apply Hview | apply Hact | apply Hcls | done | steps_rule ].
Qed.

(** ** Gesture: nothing but the end of the gesture emits [ionChange] *)


Lemma committed_onMove t detail : steps (keeps committed) t (onMove detail).
Proof.
  apply (steps_onMove _ (λ e, is_IonChange e = false)); unfold committed; frame_solve.
Qed.

Lemma committed_activate t detail : steps (keeps committed) t (activate detail).
Proof.
  apply (steps_activate _ (λ e, is_IonChange e = false)); unfold committed; frame_solve.
Qed.

Lemma committed_setNextIndex t detail isEnd :
  steps (keeps committed) t (setNextIndex detail isEnd).
Proof.
  apply (steps_setNextIndex _ (λ e, is_IonChange e = false)); unfold committed; frame_solve.
Qed.

Lemma committed_setActivated t a : steps (keeps committed) t (setActivated a).
Proof. apply steps_setActivated; unfold committed; frame_solve. Qed.

Lemma onStart_snapshot detail s :
  sat (onStart detail) s
      (λ _ s', ionChanges s' = ionChanges s ∧ valueBeforeGesture s' = value s)
      (λ _, False).
Proof.
  unfold onStart. apply sat_bind, sat_bind. unfold sat at 1 2, get, modify.
  eapply sat_mono; [| |apply (committed_activate false)]; simpl.
  - unfold keeps, committed. intros _ s' [= ? ?]. done.
  - by intros ? [].
Qed.

Lemma onEnd_commits detail s :
  sat (onEnd detail) s
      (λ _ s',
         ionChanges s' =
           (if decide (value s' ≠ None ∧ value s' ≠ valueBeforeGesture s)
            then [IonChange (value s')] else []) ++ ionChanges s)
      (λ _, False).
Proof.
  unfold onEnd. apply sat_bind.
  eapply sat_mono; [| |apply (committed_setActivated false)]; simpl; [|by intros ? []].
  intros _ sa [= Hca Hba]. apply sat_bind.
  eapply sat_mono; [| |apply (committed_setNextIndex false)]; simpl; [|by intros ? []].
  intros _ sb [= Hcb Hbb].
  assert (valueBeforeGesture sb = valueBeforeGesture s) as Hb by congruence.
  assert (ionChanges sb = ionChanges s) as Hc by congruence.
  unfold sat, bind, emit, modify, get, when, emitValueChange, ret. simpl.
  destruct (value sb) as [v|] eqn:Hv; simpl.
  - case_bool_decide as Hne; simpl.
    + match goal with
      | |- context [updateSegmentView true ?x] =>
          pose proof (steps_updateSegmentView
                        (keeps (λ s, (ionChanges s, value s)))
                        (λ e, is_IonChange e = false)
                        ltac:(frame_solve) ltac:(frame_solve) false true x) as Hu;
          unfold sat in Hu; destruct (updateSegmentView true x) as [? s'|?|];
          [|by destruct Hu|done]
      end.
      injection Hu as Hc' Hv'. unfold ionChanges, only in *. simpl in *.
      rewrite Hc', Hv', Hc, Hv. rewrite decide_True; [done|].
      split; [done|]. congruence.
    + unfold ionChanges, only in *. simpl.
      rewrite Hv, decide_False; [done|]. intros [_ ?]. congruence.
  - unfold ionChanges, only in *. simpl.
    rewrite Hv, decide_False; [done|]. by intros [? _].
Qed.

(** The drag a→b→c→b over three buttons: the value follows the pointer, and
    the one [ionChange] is that of the release. *)
Lemma drag_abcb :
  (∃ s', (dispatch (onStart (pointer_over 50 0)) ;;
          dispatch_all (onMove <$> [pointer_over 150 1])) abc = Ok tt s'
         ∧ value s' = Some (VString "b") ∧ ionChanges s' = [])
  ∧ (∃ s', (dispatch (onStart (pointer_over 50 0)) ;;
            dispatch_all (onMove <$> [pointer_over 150 1; pointer_over 250 2])) abc
           = Ok tt s'
           ∧ value s' = Some (VString "c") ∧ ionChanges s' = [])
  ∧ (∃ s', (dispatch (onStart (pointer_over 50 0)) ;;
            dispatch_all (onMove <$> [pointer_over 150 1; pointer_over 250 2;
                                      pointer_over 150 1])) abc
           = Ok tt s'
           ∧ value s' = Some (VString "b") ∧ ionChanges s' = [])
  ∧ (∃ s', drag_session (pointer_over 50 0)
             [pointer_over 150 1; pointer_over 250 2; pointer_over 150 1]
             (pointer_over 150 1) abc = Ok tt s'
           ∧ value s' = Some (VString "b")
           ∧ ionChanges s' = [IonChange (Some (VString "b"))]).
Proof.
  repeat split; eexists; (split; [vm_compute; reflexivity|done]).
Qed.

(** C1. In a drag session the start and the moves emit no [ionChange]; the
    end of the gesture emits exactly one, carrying the value then held,
    if and only if that value is defined and differs from the value held
    when the gesture started ([valueBeforeGesture]), and none otherwise.
    Every listener of the session returns.  So the drag a→b→c→b over the
    options a, b, c that releases on b emits the single [ionChange] of b. *)
Theorem C1_commit_only_on_settle :
  (∀ s start moves release,
     ∃ s1 s2,
       (dispatch (onStart start) ;; dispatch_all (onMove <$> moves)) s = Ok tt s1
       ∧ dispatch (onEnd release) s1 = Ok tt s2
       ∧ ionChanges s1 = ionChanges s
       ∧ ionChanges s2 =
           (if decide (value s2 ≠ None ∧ value s2 ≠ value s)
            then [IonChange (value s2)] else []) ++ ionChanges s)
  ∧ (∃ s', drag_session (pointer_over 50 0)
             [pointer_over 150 1; pointer_over 250 2; pointer_over 150 1]
             (pointer_over 150 1) abc = Ok tt s'
           ∧ value s' = Some (VString "b")
           ∧ ionChanges s' = [IonChange (Some (VString "b"))]).
Proof.
  split; [|apply drag_abcb].
  intros s start moves release.
  destruct (sat_Ok _ _ _ (onStart_snapshot start s)) as ([] & s0 & Hs0 & Hc0 & Hb0).
  assert (steps (keeps committed) false (dispatch_all (onMove <$> moves))) as Hm.
  { apply steps_dispatch_all; [apply _|]. apply Forall_fmap, Forall_forall.
    intros d _. apply committed_onMove. }
  destruct (steps_Ok _ _ s0 Hm) as ([] & s1 & Hs1 & [= Hc1 Hb1]).
  destruct (sat_Ok _ _ _ (onEnd_commits release s1)) as ([] & s2 & Hs2 & Hc2).
  exists s1, s2. repeat split.
  - unfold bind, dispatch at 1. by rewrite Hs0.
  - unfold dispatch. by rewrite Hs2.
  - congruence.
  - rewrite Hc2. by rewrite Hb1, Hb0, Hc1, Hc0.
Qed.

(** ** Programmatic assignment *)

(** What the watcher reports for a defined value: one [ionSelect] of that
    value, and no change of the value. *)
Lemma valueChanged_reports x old s :
  sat (valueChanged_ silent (Some x) old) s
      (λ _ s', ionSelects s' = IonSelect (Some x) :: ionSelects s
               ∧ value s' = value s)
      (λ _, False).
Proof.
  unfold valueChanged_. apply sat_bind. unfold sat at 1, get.
  rewrite bool_decide_eq_false_2 by (by intros [_ ?]).
  apply sat_bind.
  assert (steps (keeps reported) false
            (match old with
             | Some _ =>
                 buttons <- getButtons ;;
                 match find (has_value old) buttons,
                       find (has_value (Some x)) buttons with
                 | Some (previous, _), Some (current, _) =>
                     match segmentViewEl s with
                     | None => checkButton_ silent (Some (EButton previous))
                                            (Some (EButton current))
                     | Some _ =>
                         if decide (triggerScrollOnValueChange s ≠ Some false)
                         then updateSegmentView true
                         else ret tt
                     end
                 | _, _ => ret tt
                 end
             | None =>
                 when (bool_decide (is_Some (segmentViewEl s)))
                      (updateSegmentView true)
             end)) as Hinner.
  { repeat first
      [ apply (steps_checkButton_Some_ _ (λ e, is_IonSelect e = false)); unfold reported; frame_solve
      | apply (steps_updateSegmentView _ (λ e, is_IonSelect e = false)); unfold reported; frame_solve
      | steps_rule ]. }
  eapply sat_mono; [| |apply Hinner]; simpl; [|by intros ? []].
  intros _ s1 [= Hsel1 Hval1].
  apply sat_bind. unfold sat at 1, emit, modify.
  apply sat_bind. unfold sat at 1, get.
  apply sat_bind.
  eapply sat_mono;
    [| |apply (steps_when (keeps reported) false),
              (steps_scrollActiveButtonIntoView _ (λ e, is_IonSelect e = false));
        unfold reported; frame_solve]; simpl; [|by intros ? []].
  intros _ s2 [= Hsel2 Hval2]. unfold sat, modify.
  unfold ionSelects, only in *. simpl in *. split; congruence.
Qed.

Lemma ionChanges_set_value t v : steps (keeps ionChanges) t (set_value v).
Proof.
  apply (steps_set_value _ (λ e, is_IonChange e = false)); frame_solve.
Qed.

(** Enough fuel gives the result: from [watch_depth] on, an assignment
    returns, and returns the same. *)
Lemma assign_value_total n v s :
  (watch_depth ≤ n)%nat → ∃ s', assign_value n v s = Ok tt s'.
Proof.
  intros Hn. rewrite assign_value_stable by done.
  destruct (steps_Ok _ _ s (ionChanges_set_value false v)) as ([] & s' & Hs' & _).
  by exists s'.
Qed.

(** C2. An assignment of the [value] property from outside emits no
    [ionChange] and reports the value the group then holds by one
    [ionSelect].  That value is the one assigned, except that [undefined]
    assigned with a segment view attached is replaced by the value of the
    first button.  (The runtime calls the watcher when the assigned value
    differs from the one held; with a view attached and [undefined]
    assigned there has to be a first button.) *)
Theorem C2_programmatic_assignment_silent (s : Segment) (v : option SegmentValue) :
  v ≠ value s →
  (is_Some (segmentViewEl s) → v = None → buttons s ≠ []) →
  ∃ s', set_value v s = Ok tt s'
        ∧ ionChanges s' = ionChanges s
        ∧ ionSelects s' = IonSelect (value s') :: ionSelects s
        ∧ (segmentViewEl s = None ∨ v ≠ None → value s' = v)
        ∧ (is_Some (segmentViewEl s) → v = None →
           value s' = Button.value <$> head (buttons s)).
Proof.
  intros Hv Hfirst.
  destruct (steps_Ok _ _ s (ionChanges_set_value false v)) as ([] & s' & Hs' & Hc).
  exists s'. do 2 (split; [done|]). clear Hc.
  destruct v as [x|].
  - rewrite set_value_Some in Hs' by done.
    pose proof (valueChanged_reports x (value s) (with_value (Some x) s)) as Hr.
    unfold sat in Hr.
    destruct (valueChanged_ silent _ _ _) as [? s1| |]; [|done..].
    destruct Hr as [Hsel Hval]. simplify_eq/=.
    repeat split; [by rewrite Hval|done|done].
  - rewrite set_value_None in Hs' by done.
    destruct (segmentViewEl s) as [view|] eqn:Hview.
    + destruct (buttons s) as [|first rest] eqn:Hbs.
      { by destruct Hfirst. }
      pose proof (valueChanged_reports (Button.value first) None
                    (with_value (Some (Button.value first)) (with_value None s)))
        as Hr.
      unfold sat in Hr.
      destruct (valueChanged_ silent _ _ _) as [? s1| |]; [|done..].
      destruct Hr as [Hsel Hval]. simplify_eq/=.
      repeat split; [by rewrite Hval| |done].
      intros [[=]|?]; done.
    + assert (steps (keeps reported) false (scrollActiveButtonIntoView true)) as Hscroll.
      { apply (steps_scrollActiveButtonIntoView _ (λ e, is_IonSelect e = false));
          unfold reported; frame_solve. }
      unfold bind, emit, modify in Hs'.
      match type of Hs' with
      | context [scrollActiveButtonIntoView true ?x] =>
          specialize (Hscroll x); unfold sat in Hscroll;
          destruct (scrollActiveButtonIntoView true x) as [? s1| |];
          [|by destruct Hscroll|done]
      end.
      injection Hscroll as Hsel Hval. simplify_eq/=.
      repeat split; [by rewrite Hval|done|by intros []].
Qed.

Lemma C2_witness :
  ∃ s', set_value (Some (VString "c")) abc = Ok tt s'
        ∧ ionChanges s' = ionChanges abc
        ∧ ionSelects s' = IonSelect (value s') :: ionSelects abc
        ∧ (segmentViewEl abc = None ∨ Some (VString "c") ≠ None
           → value s' = Some (VString "c"))
        ∧ (is_Some (segmentViewEl abc) → Some (VString "c") = None →
           value s' = Button.value <$> head (buttons abc)).
Proof.
  apply (C2_programmatic_assignment_silent abc (Some (VString "c"))).
  - vm_compute. discriminate.
  - intros _. discriminate.
Defined.

(** ** Scroll of the segment view *)

Lemma setContents_checkButton_silent t previous current :
  steps (keeps setContents) t
        (checkButton_ silent (Some previous) (Some current)).
Proof.
  apply (steps_checkButton_Some_ _ (λ e, is_SetContent e = false)); frame_solve.
Qed.

Lemma setContents_scrollActiveButtonIntoView t smooth :
  steps (keeps setContents) t (scrollActiveButtonIntoView smooth).
Proof.
  apply (steps_scrollActiveButtonIntoView _ (λ e, is_SetContent e = false));
    frame_solve.
Qed.

Lemma setContents_setCheckedClasses t : steps (keeps setContents) t setCheckedClasses.
Proof. apply steps_setCheckedClasses; frame_solve. Qed.

(** With the flag lowered, the watcher of a change between two defined
    values does not write to the segment view. *)
Lemma suppressed_valueChanged x o s :
  triggerScrollOnValueChange s = Some false →
  sat (valueChanged_ silent (Some x) (Some o)) s
      (λ _ s', setContents s' = setContents s) (λ _, False).
Proof.
  intros Hflag.
  unfold valueChanged_. apply sat_bind. unfold sat at 1, get.
  rewrite bool_decide_eq_false_2 by (by intros [_ ?]).
  apply sat_bind.
  assert (steps (keeps setContents) false
            (buttons <- getButtons ;;
             match find (has_value (Some o)) buttons,
                   find (has_value (Some x)) buttons with
             | Some (previous, _), Some (current, _) =>
                 match segmentViewEl s with
                 | None => checkButton_ silent (Some (EButton previous))
                                        (Some (EButton current))
                 | Some _ =>
                     if decide (triggerScrollOnValueChange s ≠ Some false)
                     then updateSegmentView true
                     else ret tt
                 end
             | _, _ => ret tt
             end)) as Hinner.
  { repeat first [apply setContents_checkButton_silent | steps_rule]. done. }
  eapply sat_mono; [| |apply Hinner]; simpl; [|by intros ? []].
  intros _ s1 Hs1.
  apply sat_bind. unfold sat at 1, emit, modify.
  apply sat_bind. unfold sat at 1, get.
  apply sat_bind.
  eapply sat_mono;
    [| |apply (steps_when (keeps setContents) false),
              setContents_scrollActiveButtonIntoView];
    simpl; [|by intros ? []].
  intros _ s2 Hs2. unfold sat, modify.
  unfold keeps, setContents, only in *. simpl in *. congruence.
Qed.

Lemma suppressed_set_value x s :
  triggerScrollOnValueChange s = Some false → value s ≠ None →
  sat (set_value (Some x)) s (λ _ s', setContents s' = setContents s) (λ _, False).
Proof.
  intros Hflag Hval. unfold sat.
  destruct (decide (Some x = value s)) as [Hx|Hx].
  { by rewrite set_value_held. }
  rewrite set_value_Some by done.
  destruct (value s) as [o|] eqn:Ho; [|done].
  pose proof (suppressed_valueChanged x o (with_value (Some x) s) Hflag) as Hw.
  unfold sat in Hw. by destruct (valueChanged_ silent _ _ _).
Qed.

Lemma suppressed_checkButton previous current s :
  triggerScrollOnValueChange s = Some false → value s ≠ None →
  sat (checkButton previous current) s
      (λ _ s', setContents s' = setContents s)
      (λ s', setContents s' = setContents s).
Proof.
  intros Hflag Hval. unfold checkButton, checkButton_, sat, bind.
  destruct (getIndicator_cases previous s) as [[-> _]|(rp & -> & _ & _)]; [done|].
  destruct (getIndicator_cases current s) as [[-> _]|(rc & -> & _ & Hc)]; [done|].
  destruct rp as [rp|], rc as [rc|]; try done.
  destruct Hc as (i & b & -> & Hb & _); [done|].
  unfold emit, modify, get. simpl. rewrite Hb. simpl.
  match goal with
  | |- context [set_value (Some ?v) ?x] =>
      pose proof (suppressed_set_value v x Hflag Hval) as Hset;
      unfold sat in Hset; destruct (set_value (Some v) x) as [? s1| |];
      [|done..]
  end.
  pose proof (setContents_setCheckedClasses false s1) as Hcls.
  unfold sat in Hcls. destruct (setCheckedClasses s1); [|by destruct Hcls|done].
  unfold keeps in Hcls. by rewrite Hcls.
Qed.

Lemma button_at_checked_defined s e :
  button_at s (findIndex (has_value (value s)) (buttons s)) = Some e →
  value s ≠ None.
Proof.
  intros He Hv. rewrite Hv in He. unfold button_at, findIndex in He.
  pose proof (find_has_value_None (buttons s)) as Hnone. unfold find in Hnone.
  by rewrite Hnone in He.
Qed.

(** C3. A scroll event of the segment view, whatever it carries, makes no
    call of [setContent]: the handler lowers
    [triggerScrollOnValueChange] before it checks the button, and the
    watcher of the value then skips [updateSegmentView]. *)
Theorem C3_no_feedback_loop :
  (∀ ev s, ∃ s', dispatch (handleSegmentViewScroll ev) s = Ok tt s'
                 ∧ setContents s' = setContents s)
  ∧ (∀ x s, triggerScrollOnValueChange s = Some false → value s ≠ None →
            ∃ s', set_value (Some x) s = Ok tt s'
                  ∧ setContents s' = setContents s).
Proof.
  split.
  - intros ev s. apply sat_dispatch.
    unfold handleSegmentViewScroll.
    destruct (isManualScroll ev); simpl; [|done].
    apply sat_bind. unfold sat at 1, get.
    destruct (_ || _); [|done].
    apply sat_bind. unfold sat at 1, getButtons.
    destruct (buttons s) as [|b0 bs] eqn:Hbs; [done|]. cbv zeta.
    case_bool_decide; [|done].
    apply sat_bind. unfold sat at 1, modify.
    apply sat_bind. unfold sat at 1, modify.
    apply sat_bind.
    destruct (button_at s (findIndex (has_value (value s)) (b0 :: bs)))
      as [current|] eqn:Hcur.
    + rewrite <-Hbs in Hcur. apply button_at_checked_defined in Hcur.
      eapply sat_mono; [| |apply suppressed_checkButton]; simpl; [|done..].
      intros _ s1 Hs1. unfold sat, emitValueChange, bind, get, emit, modify.
      unfold setContents, only in *. simpl in *. done.
    + done.
  - intros x s Hflag Hval. destruct (sat_Ok _ _ _ (suppressed_set_value x s Hflag Hval))
      as ([] & s' & ? & ?). eauto.
Qed.

Lemma C3_witness :
  ∃ s', set_value (Some (VString "b"))
                  (with_triggerScrollOnValueChange (Some false) pages) = Ok tt s'
        ∧ setContents s' =
            setContents (with_triggerScrollOnValueChange (Some false) pages).
Proof.
  destruct C3_no_feedback_loop as [_ Hsuppressed].
  apply Hsuppressed.
  - reflexivity.
  - vm_compute. discriminate.
Defined.

Lemma same_group_checkButton previous current :
  steps same_group true (checkButton previous current).
Proof. apply (steps_checkButton _ (λ _, True)); frame_solve. Qed.

Lemma same_group_checkButton_Some t previous current :
  steps same_group t (checkButton (Some previous) (Some current)).
Proof. apply (steps_checkButton_Some _ (λ _, True)); frame_solve. Qed.

Lemma same_group_length s s' :
  same_group s s' → length (buttons s') = length (buttons s).
Proof.
  intros [? ? ? ? ? ? ? ? ? Hb ? ?].
  apply (f_equal length) in Hb. by rewrite !length_fmap in Hb.
Qed.

(** The listener in its two cases. *)
Lemma handleSegmentViewScroll_skips ev s :
  ¬ acted_on ev s → handleSegmentViewScroll ev s = Ok tt s.
Proof.
  unfold acted_on, handleSegmentViewScroll. intros Hskip.
  destruct (isManualScroll ev); [simpl|done].
  unfold bind, get, getButtons.
  destruct (bool_decide _ && _ || _) eqn:Hfrom; [|done].
  destruct (buttons s) as [|b0 bs] eqn:Hbs; [done|]. cbv zeta.
  rewrite bool_decide_eq_false_2; [done|].
  intros Hidx. apply Hskip. repeat split; [|done|].
  - apply orb_prop in Hfrom as [[? ?]%andb_prop|?]; [left|by right].
    split; [by eapply bool_decide_eq_true_1|done].
  - destruct Hidx as [Hidx|?]; [|done]. by rewrite Hidx.
Qed.

Lemma handleSegmentViewScroll_acts ev s :
  acted_on ev s →
  handleSegmentViewScroll ev s =
    (checkButton
       (button_at s (findIndex (has_value (value s)) (buttons s)))
       (button_at s (scrollIndex (scrollRatio ev) (length (buttons s)))) ;;
     emitValueChange)
      (with_triggerScrollOnValueChange (Some false)
         (with_lastNextIndex
            (Some (scrollIndex (scrollRatio ev) (length (buttons s)))) s)).
Proof.
  unfold acted_on, handleSegmentViewScroll. intros (-> & Hfrom & Hbs & Hidx). simpl.
  unfold bind at 1, get.
  replace (bool_decide _ && _ || _) with true.
  2:{ symmetry. destruct Hfrom as [[? ->]| ->].
      - by rewrite bool_decide_eq_true_2.
      - apply orb_true_r. }
  unfold bind at 1, getButtons.
  destruct (buttons s) as [|b0 bs] eqn:Hbs'; [done|]. cbv zeta.
  rewrite bool_decide_eq_true_2 by (by right).
  done.
Qed.

(** After the listener has run, in whichever way, the same event is not
    acted on again. *)
Lemma handleSegmentViewScroll_settles ev s s' :
  dispatch (handleSegmentViewScroll ev) s = Ok tt s' → ¬ acted_on ev s'.
Proof.
  intros Hrun.
  destruct (decide (acted_on ev s)) as [Hact|Hskip].
  2:{ unfold dispatch in Hrun. rewrite handleSegmentViewScroll_skips in Hrun by done.
      by simplify_eq. }
  assert (same_group
            (with_triggerScrollOnValueChange (Some false)
               (with_lastNextIndex
                  (Some (scrollIndex (scrollRatio ev) (length (buttons s)))) s)) s')
    as Hsame.
  { unfold dispatch in Hrun. rewrite handleSegmentViewScroll_acts in Hrun by done.
    unfold bind in Hrun.
    match type of Hrun with
    | context [checkButton ?p ?c ?x] =>
        pose proof (same_group_checkButton p c x) as Hc; unfold sat in Hc;
        destruct (checkButton p c x) as [? s1|s1|]; [| |done]
    end.
    - unfold emitValueChange, bind, get, emit, modify in Hrun. simplify_eq.
      etrans; [done|]. by split.
    - simplify_eq. by destruct Hc. }
  intros (_ & _ & _ & Hidx). apply Hidx.
  rewrite (same_group_length _ _ Hsame). simpl.
  by rewrite (sg_lastNextIndex _ _ Hsame).
Qed.

Lemma ionChanges_checkButton previous current :
  steps (keeps ionChanges) true (checkButton previous current).
Proof. apply (steps_checkButton _ (λ e, is_IonChange e = false)); frame_solve. Qed.

Lemma ionChanges_checkButton_Some previous current :
  steps (keeps ionChanges) false (checkButton (Some previous) (Some current)).
Proof. apply (steps_checkButton_Some _ (λ e, is_IonChange e = false)); frame_solve. Qed.

(** With a segment view attached the watcher schedules no animation. *)
Lemma viewed_valueChanged x old s :
  is_Some (segmentViewEl s) →
  sat (valueChanged_ silent (Some x) old) s
      (λ _ s', writeTasks s' = writeTasks s ∧ value s' = value s) (λ _, False).
Proof.
  intros [view Hview].
  unfold valueChanged_. apply sat_bind. unfold sat at 1, get.
  rewrite bool_decide_eq_false_2 by (by intros [_ ?]).
  rewrite Hview. apply sat_bind.
  assert (steps (keeps (λ s, (writeTasks s, value s))) false
            (match old with
             | Some _ =>
                 buttons <- getButtons ;;
                 match find (has_value old) buttons,
                       find (has_value (Some x)) buttons with
                 | Some (previous, _), Some (current, _) =>
                     if decide (triggerScrollOnValueChange s ≠ Some false)
                     then updateSegmentView true
                     else ret tt
                 | _, _ => ret tt
                 end
             | None =>
                 when (bool_decide (is_Some (Some view))) (updateSegmentView true)
             end)) as Hinner.
  { repeat first
      [ apply (steps_updateSegmentView _ (λ e, is_WriteTask e = false)); frame_solve
      | steps_rule ]. }
  eapply sat_mono; [| |apply Hinner]; simpl; [|by intros ? []].
  intros _ s1 [= Hw1 Hv1].
  apply sat_bind. unfold sat at 1, emit, modify.
  apply sat_bind. unfold sat at 1, get.
  apply sat_bind.
  eapply sat_mono;
    [| |apply (steps_when (keeps (λ s, (writeTasks s, value s))) false),
              (steps_scrollActiveButtonIntoView _ (λ e, is_WriteTask e = false));
        frame_solve]; simpl; [|by intros ? []].
  intros _ s2 [= Hw2 Hv2]. unfold sat, modify.
  unfold writeTasks, only in *. simpl in *. split; congruence.
Qed.

Lemma viewed_set_value x s :
  is_Some (segmentViewEl s) →
  sat (set_value (Some x)) s
      (λ _ s', writeTasks s' = writeTasks s ∧ value s' = Some x) (λ _, False).
Proof.
  intros Hview. unfold sat.
  destruct (decide (Some x = value s)) as [Hx|Hx].
  { by rewrite set_value_held. }
  rewrite set_value_Some by done.
  pose proof (viewed_valueChanged x (value s) (with_value (Some x) s) Hview) as Hw.
  unfold sat in Hw. by destruct (valueChanged_ silent _ _ _).
Qed.

(** With a segment view attached, checking a button whose indicator and
    that of the previous button are rendered schedules one animation and
    stores the value of the button. *)
Lemma viewed_checkButton i j bi bj ri rj s :
  is_Some (segmentViewEl s) →
  buttons s !! i = Some bi → Button.indicator bi = Some ri →
  buttons s !! j = Some bj → Button.indicator bj = Some rj →
  sat (checkButton (Some (EButton i)) (Some (EButton j))) s
      (λ _ s', writeTasks s' =
                 WriteTask j (left ri - left rj) (width ri) (width rj) :: writeTasks s
               ∧ value s' = Some (Button.value bj))
      (λ _, False).
Proof.
  intros Hview Hi Hri Hj Hrj.
  unfold checkButton, checkButton_, getIndicator.
  unfold sat, bind, getButtons, ret, emit, modify, get.
  rewrite Hi, Hj. simpl. rewrite Hri, Hrj, Hj. simpl.
  match goal with
  | |- context [set_value (Some ?v) ?x] =>
      pose proof (viewed_set_value v x Hview) as Hset;
      unfold sat in Hset; destruct (set_value (Some v) x) as [? s1| |];
      [|done..]
  end.
  destruct Hset as [Hw Hv].
  pose proof (steps_setCheckedClasses (keeps (λ s, (writeTasks s, value s)))
                ltac:(frame_solve) false s1) as Hcls.
  unfold sat in Hcls. destruct (setCheckedClasses s1); [|by destruct Hcls|done].
  injection Hcls as Hw' Hv'. split; [|congruence].
  rewrite Hw', Hw. done.
Qed.

Lemma button_at_lookup s (j : nat) b :
  buttons s !! j = Some b → button_at s (Z.of_nat j) = Some (EButton j).
Proof.
  intros Hj. unfold button_at, at_index.
  rewrite decide_True by lia. by rewrite Nat2Z.id, Hj.
Qed.

Lemma button_at_checked s i b :
  find (has_value (value s)) (buttons s) = Some (i, b) →
  button_at s (findIndex (has_value (value s)) (buttons s)) = Some (EButton i).
Proof.
  intros Hfind. unfold findIndex. unfold find in Hfind. rewrite Hfind.
  apply button_at_lookup with b. by apply find_has_value in Hfind as [? _].
Qed.

(** C4, as the listener has it.  The second of two scroll events with the
    same ratio returns without any effect, so the pair emits what the
    first alone emits: at most one [ionChange].  When the first event is
    acted on and both the checked button and the button at the resolved
    index exist, the pair emits exactly one [ionChange], of the value then
    held; with a segment view attached and both indicators rendered it
    schedules exactly one animation. *)
Theorem C4_repeated_ratio_settles :
  (∀ ev s, ∃ s1,
      dispatch (handleSegmentViewScroll ev) s = Ok tt s1
      ∧ handleSegmentViewScroll ev s1 = Ok tt s1
      ∧ (ionChanges s1 = ionChanges s
         ∨ ionChanges s1 = IonChange (value s1) :: ionChanges s))
  ∧ (∀ ev s i bi j bj,
       acted_on ev s →
       find (has_value (value s)) (buttons s) = Some (i, bi) →
       scrollIndex (scrollRatio ev) (length (buttons s)) = Z.of_nat j →
       buttons s !! j = Some bj →
       ∃ s1, handleSegmentViewScroll ev s = Ok tt s1
             ∧ handleSegmentViewScroll ev s1 = Ok tt s1
             ∧ ionChanges s1 = IonChange (value s1) :: ionChanges s
             ∧ (∀ ri rj,
                  is_Some (segmentViewEl s) →
                  Button.indicator bi = Some ri → Button.indicator bj = Some rj →
                  value s1 = Some (Button.value bj)
                  ∧ writeTasks s1 =
                      WriteTask j (left ri - left rj) (width ri) (width rj)
                        :: writeTasks s)).
Proof.
  split.
  - intros ev s.
    assert (∃ s1, dispatch (handleSegmentViewScroll ev) s = Ok tt s1
                  ∧ (ionChanges s1 = ionChanges s
                     ∨ ionChanges s1 = IonChange (value s1) :: ionChanges s))
      as (s1 & Hrun & Hone).
    { unfold dispatch. destruct (decide (acted_on ev s)) as [Hact|Hskip].
      2:{ rewrite handleSegmentViewScroll_skips by done. eauto. }
      rewrite handleSegmentViewScroll_acts by done. unfold bind.
      match goal with
      | |- context [checkButton ?p ?c ?x] =>
          pose proof (ionChanges_checkButton p c x) as Hc; unfold sat in Hc;
          destruct (checkButton p c x) as [? s1|s1|]; [| |done]
      end.
      - eexists. split; [done|]. right.
        unfold keeps, ionChanges, only in *. simpl. by rewrite Hc.
      - destruct Hc as [_ Hc]. eexists. split; [done|]. by left. }
    exists s1. split; [done|]. split; [|done].
    apply handleSegmentViewScroll_skips.
    by eapply handleSegmentViewScroll_settles.
  - intros ev s i bi j bj Hact Hi Hidx Hj.
    assert (∃ s1, handleSegmentViewScroll ev s = Ok tt s1) as [s1 Hrun].
    { rewrite handleSegmentViewScroll_acts by done.
      rewrite (button_at_checked s i bi), Hidx, (button_at_lookup s j bj) by done.
      unfold bind.
      match goal with
      | |- context [checkButton ?p ?c ?x] =>
          pose proof (same_group_checkButton_Some false (EButton i) (EButton j) x)
            as Hc; unfold sat in Hc;
          destruct (checkButton p c x) as [? s'|s'|]; [|by destruct Hc|done]
      end.
      by eexists. }
    exists s1. split; [done|]. split.
    { apply handleSegmentViewScroll_skips.
      eapply handleSegmentViewScroll_settles. unfold dispatch. by rewrite Hrun. }
    rewrite handleSegmentViewScroll_acts in Hrun by done.
    rewrite (button_at_checked s i bi), Hidx, (button_at_lookup s j bj) in Hrun by done.
    unfold bind in Hrun.
    match type of Hrun with
    | context [checkButton ?p ?c ?x] =>
        pose proof (ionChanges_checkButton_Some (EButton i) (EButton j) x) as Hc;
        pose proof (λ ri rj Hview, viewed_checkButton i j bi bj ri rj x Hview) as Hw;
        unfold sat in Hc, Hw;
        destruct (checkButton p c x) as [? s'|s'|]; [|done..]
    end.
    unfold emitValueChange, bind, get, emit, modify in Hrun. simplify_eq.
    split.
    + unfold keeps, ionChanges, only in *. simpl. by rewrite Hc.
    + intros ri rj Hview Hri Hrj.
      apply find_has_value in Hi as [Hi _].
      destruct (Hw ri rj) as [Hw1 Hv1]; [done..|]. split; [done|].
      unfold writeTasks, only in *. simpl in *. done.
Qed.

Lemma C4_witness :
  ∃ s1, handleSegmentViewScroll (manual_scroll 1) pages = Ok tt s1
        ∧ handleSegmentViewScroll (manual_scroll 1) s1 = Ok tt s1
        ∧ ionChanges s1 = IonChange (value s1) :: ionChanges pages.
Proof.
  destruct C4_repeated_ratio_settles as [_ Hacted].
  destruct (Hacted (manual_scroll 1) pages 0%nat
                   (content_button "a" 0 "page-a") 2%nat
                   (content_button "c" 200 "page-c"))
    as (s1 & H1 & H2 & H3 & _).
  - repeat split; [left; split; [by eexists|done]|done|done].
  - reflexivity.
  - reflexivity.
  - reflexivity.
  - exists s1. auto.
Defined.

(** Three manual scrolls to the same ratio: the first commits, and the two
    consecutive events that follow emit no [ionChange] and schedule no
    animation between them. *)
Lemma C4_counterexample :
  ∃ s1 s3,
    dispatch (handleSegmentViewScroll (manual_scroll 1)) pages = Ok tt s1
    ∧ (dispatch (handleSegmentViewScroll (manual_scroll 1)) ;;
       dispatch (handleSegmentViewScroll (manual_scroll 1))) s1 = Ok tt s3
    ∧ ionChanges s3 = ionChanges s1
    ∧ writeTasks s3 = writeTasks s1
    ∧ length (ionChanges s3) ≠ S (length (ionChanges s1))
    ∧ length (writeTasks s3) ≠ S (length (writeTasks s1)).
Proof.
  eexists _, _. split; [vm_compute; reflexivity|].
  split; [vm_compute; reflexivity|]. done.
Qed.

(** ** The resolved index *)

Lemma scrollIndex_in_range (ratio : Q) (count : nat) :
  (0 <= ratio)%Q → (ratio <= 1)%Q → (0 < count)%nat →
  0 ≤ scrollIndex ratio count ≤ Z.of_nat count - 1.
Proof.
  intros H0 H1 Hcount. unfold scrollIndex, Math_round.
  set (top := Z.of_nat count - 1).
  assert (0 <= inject_Z top)%Q as Htop.
  { change 0%Q with (inject_Z 0). rewrite <-(Zle_Qle 0 top). subst top. lia. }
  assert (0 <= ratio * inject_Z top)%Q as Hlo by (by apply Qmult_le_0_compat).
  assert (ratio * inject_Z top <= inject_Z top)%Q as Hhi.
  { rewrite <-(Qmult_1_l (inject_Z top)) at 2. by apply Qmult_le_compat_r. }
  split.
  - change 0 with (Qfloor 0). apply Qfloor_resp_le.
    apply Qle_trans with (ratio * inject_Z top)%Q; [done|].
    rewrite <-(Qplus_0_r (ratio * inject_Z top)) at 1.
    by apply Qplus_le_r.
  - apply Z.lt_succ_r. rewrite (Zlt_Qlt _ (Z.succ top)).
    eapply Qle_lt_trans; [apply Qfloor_le|].
    eapply Qle_lt_trans; [apply Qplus_le_l, Hhi|].
    unfold Z.succ. rewrite inject_Z_plus. by apply Qplus_lt_r.
Qed.

(** C5, as the listener has it.  The index is [Math.round(ratio * (count -
    1))] and is used as it is.  For a ratio between 0 and 1 it lies
    between 0 and [count - 1], so a button is found there; and if the value
    held is that of a button, the listener returns. *)
Theorem C5_ratio_in_unit_interval (ev : SegmentViewScrollEvent) (s : Segment) :
  (0 <= scrollRatio ev)%Q → (scrollRatio ev <= 1)%Q → buttons s ≠ [] →
  0 ≤ scrollIndex (scrollRatio ev) (length (buttons s)) ≤ Z.of_nat (length (buttons s)) - 1
  ∧ is_Some (button_at s (scrollIndex (scrollRatio ev) (length (buttons s))))
  ∧ (is_Some (checked s) → ∃ s', handleSegmentViewScroll ev s = Ok tt s').
Proof.
  intros H0 H1 Hbs.
  assert (0 < length (buttons s))%nat as Hlen.
  { destruct (buttons s); [done|simpl; lia]. }
  pose proof (scrollIndex_in_range _ _ H0 H1 Hlen) as Hidx.
  split; [done|].
  assert (is_Some (button_at s (scrollIndex (scrollRatio ev) (length (buttons s)))))
    as [next Hnext].
  { unfold button_at. apply fmap_is_Some, at_index_is_Some. lia. }
  split; [by eexists|].
  intros [current Hcur].
  destruct (decide (acted_on ev s)) as [Hact|Hskip].
  2:{ rewrite handleSegmentViewScroll_skips by done. eauto. }
  rewrite handleSegmentViewScroll_acts by done.
  unfold checked in Hcur.
  destruct (find (has_value (value s)) (buttons s)) as [[i b]|] eqn:Hfind; [|done].
  rewrite (button_at_checked s i b), Hnext by done.
  unfold bind.
  match goal with
  | |- context [checkButton ?p ?c ?x] =>
      pose proof (same_group_checkButton_Some false (EButton i) next x) as Hc;
      unfold sat in Hc;
      destruct (checkButton p c x) as [? s'|s'|]; [|by destruct Hc|done]
  end.
  by eexists.
Qed.

Lemma C5_witness :
  0 ≤ scrollIndex 1 (length (buttons pages)) ≤ Z.of_nat (length (buttons pages)) - 1
  ∧ is_Some (button_at pages (scrollIndex 1 (length (buttons pages))))
  ∧ (is_Some (checked pages) →
     ∃ s', handleSegmentViewScroll (manual_scroll 1) pages = Ok tt s').
Proof.
  apply (C5_ratio_in_unit_interval (manual_scroll 1) pages).
  - vm_compute. discriminate.
  - vm_compute. discriminate.
  - vm_compute. discriminate.
Defined.

(** A ratio of 2 over three buttons resolves to the index 4, where there is
    no button, and the listener throws on reading it; a ratio of -1
    resolves to -2. *)
Lemma C5_counterexample :
  scrollIndex 2 (length (buttons pages)) = 4
  ∧ ¬ (0 ≤ scrollIndex 2 (length (buttons pages))
           ≤ Z.of_nat (length (buttons pages)) - 1)
  ∧ button_at pages (scrollIndex 2 (length (buttons pages))) = None
  ∧ (∃ s', handleSegmentViewScroll (manual_scroll 2) pages = Throw s'
           ∧ lastNextIndex s' = Some 4)
  ∧ scrollIndex (-1) (length (buttons pages)) = -2.
Proof.
  split; [reflexivity|]. split; [vm_compute; intros [_ H]; by apply H|].
  split; [reflexivity|]. split; [|reflexivity].
  eexists. split; [vm_compute; reflexivity|reflexivity].
Qed.

(** ** Moves of a drag *)

Lemma findIndex_unique (l : list Button.t) (i : nat) b :
  NoDup (Button.value <$> l) → l !! i = Some b →
  list_find (has_value (Some (Button.value b))) l = Some (i, b).
Proof.
  intros Hnd Hi. apply list_find_Some. split; [done|]. split; [done|].
  intros j y Hj Hlt [= Hy].
  assert (j = i); [|lia].
  eapply NoDup_lookup; [done| |].
  - rewrite list_lookup_fmap, Hj. done.
  - rewrite list_lookup_fmap, Hi. simpl. by rewrite Hy.
Qed.

Lemma same_group_values s s' :
  same_group s s' → Button.value <$> buttons s' = Button.value <$> buttons s.
Proof.
  intros Hsame. pose proof (sg_buttons _ _ Hsame) as Hb.
  apply (f_equal (fmap Button.value)) in Hb.
  by rewrite <-!list_fmap_compose in Hb.
Qed.

(** A move with the indicator activated, the checked button being the
    [i]-th: the neighbour is resolved from the pointer and the direction,
    and checked unless it is disabled. *)
Lemma setNextIndex_move detail s (i : nat) b :
  activated s = true →
  list_find (has_value (value s)) (buttons s) = Some (i, b) →
  setNextIndex detail false s =
    let x := currentX detail in
    let rect := Button.rect b in
    let decreaseIndex :=
      if rtl s then bool_decide (x > left rect + width rect)
      else bool_decide (x < left rect) in
    let increaseIndex :=
      if rtl s then bool_decide (x < left rect)
      else bool_decide (x > left rect + width rect) in
    let nextIndex :=
      if decreaseIndex then
        if decide (Z.of_nat i - 1 >= 0) then Some (Z.of_nat i - 1) else None
      else if increaseIndex then
        if decide (Z.of_nat i + 1 < Z.of_nat (length (buttons s)))
        then Some (Z.of_nat i + 1) else None
      else None in
    match nextIndex with
    | Some n =>
        match at_index (buttons s) n with
        | Some nb =>
            if Button.disabled nb then Ok (Some true) s
            else (when (bool_decide (EButton i ≠ EButton (Z.to_nat n)))
                       (checkButton (Some (EButton i)) (Some (EButton (Z.to_nat n)))) ;;
                  ret (Some true)) s
        | None => Throw s
        end
    | None => Ok (Some true) s
    end.
Proof.
  intros Hact Hfind. unfold setNextIndex, bind at 1 2, get, getButtons.
  unfold findIndex. rewrite Hfind, Hact. simpl.
  apply list_find_Some in Hfind as (Hi & _ & _).
  unfold at_index at 1. rewrite decide_True by lia. rewrite Nat2Z.id, Hi.
  unfold bind, ret, throw, when.
  destruct (rtl s);
    destruct (bool_decide (currentX detail > left (Button.rect b) + width (Button.rect b))),
             (bool_decide (currentX detail < left (Button.rect b)));
    cbv beta iota zeta;
    try destruct (decide (Z.of_nat i - 1 >= 0));
    try destruct (decide (Z.of_nat i + 1 < Z.of_nat (length (buttons s))));
    cbv beta iota zeta; try done;
    (destruct (at_index _ _) as [nb|]; [destruct (Button.disabled nb)|]; done).
Qed.

Lemma set_value_stores x s :
  sat (set_value (Some x)) s (λ _ s', value s' = Some x) (λ _, False).
Proof.
  unfold sat. destruct (decide (Some x = value s)) as [Hx|Hx].
  { by rewrite set_value_held. }
  rewrite set_value_Some by done.
  pose proof (valueChanged_reports x (value s) (with_value (Some x) s)) as Hw.
  unfold sat in Hw. destruct (valueChanged_ silent _ _ _); [|done..].
  by destruct Hw as [_ Hw].
Qed.

(** Checking a button whose indicator and that of the previous button are
    rendered stores its value. *)
Lemma checkButton_stores i j bi bj ri rj s :
  buttons s !! i = Some bi → Button.indicator bi = Some ri →
  buttons s !! j = Some bj → Button.indicator bj = Some rj →
  sat (checkButton (Some (EButton i)) (Some (EButton j))) s
      (λ _ s', value s' = Some (Button.value bj) ∧ same_group s s')
      (λ _, False).
Proof.
  intros Hi Hri Hj Hrj.
  assert (sat (checkButton (Some (EButton i)) (Some (EButton j))) s
              (λ _ s', value s' = Some (Button.value bj)) (λ _, False)) as Hval.
  { unfold checkButton, checkButton_, getIndicator.
    unfold sat, bind, getButtons, ret, emit, modify, get.
    rewrite Hi, Hj. simpl. rewrite Hri, Hrj, Hj. simpl.
    match goal with
    | |- context [set_value (Some ?v) ?x] =>
        pose proof (set_value_stores v x) as Hset;
        unfold sat in Hset; destruct (set_value (Some v) x) as [? s1| |];
        [|done..]
    end.
    pose proof (steps_setCheckedClasses (keeps value) ltac:(frame_solve) false s1)
      as Hcls.
    unfold sat in Hcls. destruct (setCheckedClasses s1); [|by destruct Hcls|done].
    unfold keeps in Hcls. congruence. }
  pose proof (same_group_checkButton_Some false (EButton i) (EButton j) s) as Hsame.
  unfold sat in *. by destruct (checkButton _ _ s).
Qed.

Lemma checked_unique s (i : nat) b :
  NoDup (Button.value <$> buttons s) → buttons s !! i = Some b →
  value s = Some (Button.value b) → checked s = Some (EButton i).
Proof.
  intros Hnd Hi Hv. unfold checked, find.
  by rewrite Hv, (findIndex_unique _ i b).
Qed.

(** A move beyond an edge of the checked button, in the three outcomes. *)
Lemma move_resolves_neighbour
    (s : Segment) (detail : GestureDetail) (i : nat) (b : Button.t) (edge : Edge) :
  activated s = true →
  NoDup (Button.value <$> buttons s) →
  buttons s !! i = Some b →
  value s = Some (Button.value b) →
  0 ≤ width (Button.rect b) →
  crossed detail b edge →
  let n := Z.of_nat i + index_step (rtl s) edge in
  (∀ nb ri rn,
     at_index (buttons s) n = Some nb → Button.disabled nb = false →
     Button.indicator b = Some ri → Button.indicator nb = Some rn →
     ∃ s', setNextIndex detail false s = Ok (Some true) s'
           ∧ value s' = Some (Button.value nb)
           ∧ checked s' = Some (EButton (Z.to_nat n)))
  ∧ (¬ (0 ≤ n < Z.of_nat (length (buttons s))) →
     setNextIndex detail false s = Ok (Some true) s)
  ∧ (∀ nb, at_index (buttons s) n = Some nb → Button.disabled nb = true →
           setNextIndex detail false s = Ok (Some true) s)
  ∧ (∀ nb, at_index (buttons s) n = Some nb → Button.disabled nb = false →
           Button.indicator b = None ∨ Button.indicator nb = None →
           setNextIndex detail false s = Ok (Some true) s).
Proof.
  intros Hact Hnd Hi Hv Hw Hcross n.
  assert (list_find (has_value (value s)) (buttons s) = Some (i, b)) as Hfind.
  { rewrite Hv. by apply findIndex_unique. }
  pose proof (setNextIndex_move detail s i b Hact Hfind) as Hmove.
  cbv zeta in Hmove.
  assert ((if (if rtl s
               then bool_decide (currentX detail
                                 > left (Button.rect b) + width (Button.rect b))
               else bool_decide (currentX detail < left (Button.rect b)))
           then if decide (Z.of_nat i - 1 >= 0) then Some (Z.of_nat i - 1) else None
           else if (if rtl s
                    then bool_decide (currentX detail < left (Button.rect b))
                    else bool_decide (currentX detail
                                      > left (Button.rect b) + width (Button.rect b)))
                then if decide (Z.of_nat i + 1 < Z.of_nat (length (buttons s)))
                     then Some (Z.of_nat i + 1) else None
                else None)
          = if decide (0 ≤ n < Z.of_nat (length (buttons s))) then Some n else None)
    as Hnext.
  { apply lookup_lt_Some in Hi. subst n. unfold crossed, index_step in *.
    destruct edge, (rtl s); simpl in *; repeat case_bool_decide; repeat case_decide;
      try done; try lia; f_equal; lia. }
  rewrite Hnext in Hmove. clear Hnext.
  split; [|split; [|split]].
  - intros nb ri rn Hn Hen Hri Hrn.
    pose proof (at_index_Some _ _ _ Hn) as Hrange.
    rewrite decide_True, Hn, Hen in Hmove by done.
    assert (buttons s !! Z.to_nat n = Some nb) as Hn'.
    { unfold at_index in Hn. by rewrite decide_True in Hn by lia. }
    assert (i ≠ Z.to_nat n) as Hne.
    { assert (index_step (rtl s) edge = 1 ∨ index_step (rtl s) edge = -1) as Hstep
        by (destruct edge, (rtl s); auto).
      subst n. destruct Hstep as [Hstep|Hstep]; rewrite Hstep in *; lia. }
    unfold bind, when in Hmove.
    rewrite bool_decide_eq_true_2 in Hmove by congruence.
    pose proof (checkButton_stores i (Z.to_nat n) b nb ri rn s Hi Hri Hn' Hrn) as Hc.
    unfold sat in Hc.
    destruct (checkButton _ _ s) as [? s'| |]; [|done..].
    destruct Hc as [Hval Hsame].
    exists s'. split; [done|]. split; [done|].
    pose proof (same_group_values _ _ Hsame) as Hvals.
    assert (∃ nb', buttons s' !! Z.to_nat n = Some nb'
                   ∧ Button.value nb' = Button.value nb) as (nb' & Hn'' & Hvn).
    { apply (f_equal (λ l, l !! Z.to_nat n)) in Hvals.
      rewrite !list_lookup_fmap, Hn' in Hvals.
      destruct (buttons s' !! Z.to_nat n) as [nb'|]; [|done].
      exists nb'. split; [done|]. by injection Hvals. }
    apply checked_unique with nb'; [by rewrite Hvals|done|by rewrite Hvn].
  - intros Hout. by rewrite decide_False in Hmove.
  - intros nb Hn Hdis.
    pose proof (at_index_Some _ _ _ Hn) as Hrange.
    by rewrite decide_True, Hn, Hdis in Hmove.
  - intros nb Hn Hen Hmissing.
    pose proof (at_index_Some _ _ _ Hn) as Hrange.
    rewrite decide_True, Hn, Hen in Hmove by done.
    assert (buttons s !! Z.to_nat n = Some nb) as Hn'.
    { unfold at_index in Hn. by rewrite decide_True in Hn by lia. }
    rewrite Hmove.
    unfold bind, when, ret, checkButton, checkButton_, bind, getIndicator, bind, getButtons,
      ret.
    destruct (bool_decide (EButton i ≠ EButton (Z.to_nat n))); [|done].
    rewrite Hi, Hn'. simpl.
    destruct Hmissing as [-> | ->]; [done|]. by destruct (Button.indicator b).
Qed.

Lemma find_first (b0 : Button.t) (l : list Button.t) :
  list_find (has_value (Some (Button.value b0))) (b0 :: l) = Some (0%nat, b0).
Proof. simpl. by rewrite decide_True. Qed.

Lemma middle_disabled_move s first detail :
  middle_disabled s first → setNextIndex detail false s = Ok (Some true) s.
Proof.
  intros (b0 & b1 & b2 & Hbs & Hdis & _ & Hv).
  unfold setNextIndex, bind, get, getButtons, findIndex, ret.
  rewrite Hbs, Hv, find_first. simpl. rewrite andb_true_r.
  destruct (activated s); simpl; [|done].
  destruct (rtl s); repeat (case_bool_decide; simpl); try done;
    unfold at_index; simpl; by rewrite Hdis.
Qed.

Lemma middle_disabled_moves s first moves :
  middle_disabled s first → dispatch_all (onMove <$> moves) s = Ok tt s.
Proof.
  intros Hs. induction moves as [|d moves IH]; simpl; [done|].
  unfold bind, dispatch, onMove, bind.
  by rewrite (middle_disabled_move s first).
Qed.

Lemma middle_disabled_onStart s first start :
  middle_disabled s first →
  ∃ s', onStart start s = Ok tt s' ∧ middle_disabled s' first.
Proof.
  intros (b0 & b1 & b2 & Hbs & Hdis & Hfirst & Hv).
  unfold onStart, activate, bind, get, modify, find. simpl.
  rewrite Hbs, Hv, find_first.
  destruct (target start) as [k| |].
  - unfold when, ret, bind. rewrite bool_decide_eq_false_2 by done.
    case_bool_decide.
    + unfold setActivated, bind, getButtons, modify. simpl. rewrite Hbs.
      eexists. split; [done|].
      eexists _, _, _. simpl. repeat split; done.
    + eexists. split; [done|]. exists b0, b1, b2. repeat split; done.
  - eexists. split; [done|]. exists b0, b1, b2. repeat split; done.
  - eexists. split; [done|]. exists b0, b1, b2. repeat split; done.
Qed.

(** In a group of three buttons with the middle one disabled and the first
    one checked, a drag leaves the first button checked after every move. *)
Lemma middle_disabled_drag s first start moves :
  middle_disabled s first →
  ∃ s', (dispatch (onStart start) ;; dispatch_all (onMove <$> moves)) s = Ok tt s'
        ∧ value s' = Some (Button.value first)
        ∧ checked s' = Some (EButton 0).
Proof.
  intros Hs.
  destruct (middle_disabled_onStart s first start Hs) as (s' & Hstart & Hs').
  exists s'. unfold bind, dispatch. rewrite Hstart.
  rewrite (middle_disabled_moves s' first) by done.
  destruct Hs' as (b0 & b1 & b2 & Hbs & Hdis & Hfirst & Hv).
  split; [done|]. split; [congruence|].
  unfold checked, find. by rewrite Hbs, Hv, find_first.
Qed.

(** C6, as the code has it.  While the indicator is activated, a move
    whose pointer is beyond an edge of the box of the checked button
    resolves the neighbour at [i + index_step]: beyond the left edge one
    less in left-to-right mode and one more in right-to-left mode, and the
    reverse beyond the right edge.  A neighbour that exists and is enabled
    becomes the checked button when the indicators of the two buttons are
    rendered, and the move leaves the state as it is when one of them is
    not; an index outside the buttons, or a disabled neighbour, leaves the
    state as it is as well.  (The values of the buttons are distinct.)  So
    with three buttons, the middle one disabled and the first one checked,
    the first button is still the checked one after the start and any moves
    of a drag. *)
Theorem C6_move_resolves_neighbour :
  (∀ (s : Segment) (detail : GestureDetail) (i : nat) (b : Button.t) (edge : Edge),
     activated s = true →
     NoDup (Button.value <$> buttons s) →
     buttons s !! i = Some b →
     value s = Some (Button.value b) →
     0 ≤ width (Button.rect b) →
     crossed detail b edge →
     let n := Z.of_nat i + index_step (rtl s) edge in
     (∀ nb ri rn,
        at_index (buttons s) n = Some nb → Button.disabled nb = false →
        Button.indicator b = Some ri → Button.indicator nb = Some rn →
        ∃ s', setNextIndex detail false s = Ok (Some true) s'
              ∧ value s' = Some (Button.value nb)
              ∧ checked s' = Some (EButton (Z.to_nat n)))
     ∧ (¬ (0 ≤ n < Z.of_nat (length (buttons s))) →
        setNextIndex detail false s = Ok (Some true) s)
     ∧ (∀ nb, at_index (buttons s) n = Some nb → Button.disabled nb = true →
              setNextIndex detail false s = Ok (Some true) s)
     ∧ (∀ nb, at_index (buttons s) n = Some nb → Button.disabled nb = false →
              Button.indicator b = None ∨ Button.indicator nb = None →
              setNextIndex detail false s = Ok (Some true) s))
  ∧ (∀ s first start moves,
       middle_disabled s first →
       ∃ s', (dispatch (onStart start) ;; dispatch_all (onMove <$> moves)) s
             = Ok tt s'
             ∧ value s' = Some (Button.value first)
             ∧ checked s' = Some (EButton 0)).
Proof.
  split.
  - apply move_resolves_neighbour.
  - apply middle_disabled_drag.
Qed.

Lemma C6_witness :
  (∃ s', setNextIndex (pointer_over 150 1) false (with_activated true abc)
         = Ok (Some true) s'
         ∧ value s' = Some (VString "b")
         ∧ checked s' = Some (EButton 1))
  ∧ (∃ s', (dispatch (onStart (pointer_over 50 0)) ;;
            dispatch_all (onMove <$> [pointer_over 150 1; pointer_over 250 2])) a_c
           = Ok tt s'
           ∧ value s' = Some (VString "a")
           ∧ checked s' = Some (EButton 0)).
Proof.
  destruct C6_move_resolves_neighbour as [Hmove Hdrag]. split.
  - destruct (Hmove (with_activated true abc) (pointer_over 150 1) 0%nat
                    (text_button "a" 0 false) RightEdge) as (Hsel & _ & _).
    + reflexivity.
    + apply (bool_decide_unpack _). vm_compute. exact I.
    + reflexivity.
    + reflexivity.
    + vm_compute. discriminate.
    + reflexivity.
    + apply (Hsel (text_button "b" 100 false)
                  {| left := 0; top := 36; width := 100; height := 4 |}
                  {| left := 100; top := 36; width := 100; height := 4 |});
        reflexivity.
  - apply (Hdrag a_c (text_button "a" 0 false)).
    exists (text_button "a" 0 false), (text_button "b" 100 true),
           (text_button "c" 200 false).
    repeat split; reflexivity.
Defined.

(** In the group [abc_bare] the indicator is activated, the first button is
    checked, the pointer is beyond its right edge in left-to-right mode and
    the neighbour b exists and is enabled; the indicator of b is not
    rendered, and the move leaves the first button checked. *)
Lemma C6_counterexample :
  activated abc_bare = true
  ∧ rtl abc_bare = false
  ∧ checked abc_bare = Some (EButton 0)
  ∧ crossed (pointer_over 150 1) (text_button "a" 0 false) RightEdge
  ∧ (∃ nb, at_index (buttons abc_bare) (0 + index_step (rtl abc_bare) RightEdge)
           = Some nb
           ∧ Button.disabled nb = false)
  ∧ (∃ s', setNextIndex (pointer_over 150 1) false abc_bare = Ok (Some true) s'
           ∧ checked s' = Some (EButton 0)
           ∧ checked s' ≠ Some (EButton 1)).
Proof.
  do 3 (split; [reflexivity|]). split; [simpl; lia|].
  split; [eexists; split; reflexivity|].
  eexists. split; [vm_compute; reflexivity|]. by split.
Qed.

(** ** Default value with a segment view *)

(** C7. When the value is undefined and a segment view is attached, the
    watcher run for the slotted buttons stores the value of the first
    button and calls [setContent] of the view with the content id of that
    button. *)
Theorem C7_default_with_view (s : Segment) (first : Button.t)
    (rest : list Button.t) (id : string) :
  value s = None →
  is_Some (segmentViewEl s) →
  buttons s = first :: rest →
  Button.contentId first = Some id → id ≠ EmptyString →
  ∃ s', onSlottedItemsChange s = Ok tt s'
        ∧ value s' = Some (Button.value first)
        ∧ setContents s' = SetContent id true :: setContents s
        ∧ ionSelects s' = IonSelect (Some (Button.value first)) :: ionSelects s
        ∧ ionChanges s' = ionChanges s.
Proof.
  intros Hv [view Hview] Hbs Hid Hne.
  assert (onSlottedItemsChange s =
            Ok tt (with_triggerScrollOnValueChange None
                     (with_trace
                        (IonSelect (Some (Button.value first))
                           :: SetContent id true :: trace s)
                        (with_value (Some (Button.value first)) s)))) as ->.
  { unfold onSlottedItemsChange, valueChanged, valueChanged_ at 1, bind at 1 2, get.
    rewrite Hv, bool_decide_eq_true_2 by (split; [by rewrite Hview|done]).
    unfold bind, getButtons. cbv beta. rewrite Hbs.
    rewrite set_value_Some by (by rewrite Hv).
    unfold valueChanged_, when, updateSegmentView, find.
    unfold bind, get, getButtons, emit, modify, ret.
    simpl. rewrite bool_decide_eq_false_2 by (by intros [_ ?]).
    rewrite Hv, Hview. simpl.
    rewrite Hbs, find_first, Hid, Hview. simpl.
    rewrite decide_False by done. simpl.
    rewrite Hview. by rewrite bool_decide_eq_false_2 by done. }
  eexists. split; [done|]. done.
Qed.

Lemma C7_witness :
  ∃ s', onSlottedItemsChange pages_unset = Ok tt s'
        ∧ value s' = Some (VString "a")
        ∧ setContents s' = SetContent "page-a" true :: setContents pages_unset
        ∧ ionSelects s' = IonSelect (Some (VString "a")) :: ionSelects pages_unset
        ∧ ionChanges s' = ionChanges pages_unset.
Proof.
  apply (C7_default_with_view pages_unset (content_button "a" 0 "page-a")
           [content_button "b" 100 "page-b"; content_button "c" 200 "page-c"]).
  - reflexivity.
  - vm_compute. by eexists.
  - reflexivity.
  - reflexivity.
  - vm_compute. discriminate.
Defined.

(** ** Missing indicator *)

Lemma getIndicator_Some e s : getIndicator (Some e) s = Ok (indicator_of s e) s.
Proof. by destruct e. Qed.

(** C8, as [checkButton] has it.  When the indicator is missing on the
    previous or on the current element, [checkButton] does nothing at all:
    it schedules no animation and leaves the value as it is. *)
Theorem C8_missing_indicator (s : Segment) (previous current : Elt) :
  indicator_of s previous = None ∨ indicator_of s current = None →
  checkButton (Some previous) (Some current) s = Ok tt s.
Proof.
  intros Hmissing. unfold checkButton, checkButton_, bind.
  rewrite !getIndicator_Some.
  destruct Hmissing as [-> | ->]; [done|].
  by destruct (indicator_of s previous).
Qed.

Lemma C8_witness :
  checkButton (Some (EButton 0)) (Some (EButton 1)) abc_bare = Ok tt abc_bare.
Proof.
  apply (C8_missing_indicator abc_bare (EButton 0) (EButton 1)).
  right. reflexivity.
Defined.

(** With the indicator of b not rendered, neither [checkButton] from a to
    b nor a move of the drag onto b changes the value: it stays a. *)
Lemma C8_counterexample :
  indicator_of abc_bare (EButton 1) = None
  ∧ (∃ s', checkButton (Some (EButton 0)) (Some (EButton 1)) abc_bare = Ok tt s'
           ∧ value s' = Some (VString "a")
           ∧ value s' ≠ elt_value abc_bare (EButton 1))
  ∧ (∃ s', onMove (pointer_over 150 1) abc_bare = Ok tt s'
           ∧ value s' = Some (VString "a")
           ∧ value s' ≠ elt_value abc_bare (EButton 1)).
Proof.
  split; [reflexivity|].
  split; eexists; (split; [vm_compute; reflexivity|]); by split.
Qed.

(** ** The [disabled] property *)

(** C9, as the watcher has it.  When [disabled] changes, without a segment
    view every button takes the flag of the group; with a segment view
    attached the flag is written to the view and the buttons are left as
    they are. *)
Theorem C9_disabled_cascade (s : Segment) (d : bool) :
  d ≠ disabled s →
  ∃ s', set_disabled d s = Ok tt s'
        ∧ disabled s' = d
        ∧ (segmentViewEl s = None →
           Forall (λ b, Button.disabled b = d) (buttons s')
           ∧ segmentViewEl s' = None)
        ∧ (is_Some (segmentViewEl s) →
           buttons s' = buttons s
           ∧ segmentViewEl s' = Some {| view_disabled := d |}).
Proof.
  intros Hd. unfold set_disabled. rewrite decide_False by done.
  unfold disabledChanged, gestureChanged, bind, get, getButtons, modify, ret.
  simpl.
  destruct (gesture s), (segmentViewEl s) as [view|] eqn:Hview; simpl;
    rewrite ?Hview; simpl;
    (eexists; split; [reflexivity|]; split; [reflexivity|]; simpl; rewrite ?Hview;
     split; [intros ?|intros [? ?]]; simplify_eq; try done);
    (split; [|done]; apply Forall_fmap, Forall_forall; by intros ? _).
Qed.

Lemma C9_witness :
  ∃ s', set_disabled true abc = Ok tt s'
        ∧ disabled s' = true
        ∧ (segmentViewEl abc = None →
           Forall (λ b, Button.disabled b = true) (buttons s')
           ∧ segmentViewEl s' = None)
        ∧ (is_Some (segmentViewEl abc) →
           buttons s' = buttons abc
           ∧ segmentViewEl s' = Some {| view_disabled := true |}).
Proof.
  apply (C9_disabled_cascade abc true). vm_compute. discriminate.
Defined.

(** With a segment view attached, disabling the group leaves every button
    enabled. *)
Lemma C9_counterexample :
  ∃ s', set_disabled true pages = Ok tt s'
        ∧ disabled s' = true
        ∧ Forall (λ b, Button.disabled b = false) (buttons s')
        ∧ ¬ Forall (λ b, Button.disabled b = disabled s') (buttons s').
Proof.
  eexists. split; [vm_compute; reflexivity|]. split; [reflexivity|].
  split.
  - repeat constructor.
  - intros H. by inversion H.
Qed.

(** ** Keyboard *)

Lemma enabledButtons_lookup s p :
  p ∈ enabledButtons s → buttons s !! p.1 = Some p.2 ∧ Button.disabled p.2 = false.
Proof.
  unfold enabledButtons. rewrite list_elem_of_filter.
  intros [Hen (i & Hi)%list_elem_of_lookup].
  rewrite list_lookup_imap in Hi.
  destruct (buttons s !! i) as [b|] eqn:Hb; simplify_eq/=. done.
Qed.

Lemma enabledButtons_NoDup s : NoDup (fst <$> enabledButtons s).
Proof.
  apply NoDup_fmap_fst.
  - intros i b1 b2 [H1 _]%enabledButtons_lookup [H2 _]%enabledButtons_lookup.
    simpl in *. congruence.
  - unfold enabledButtons. apply NoDup_filter, NoDup_alt.
    intros i j p. rewrite !list_lookup_imap.
    destruct (buttons s !! i), (buttons s !! j); simpl; congruence.
Qed.

Lemma focused_position (l : list (nat * Button.t)) k p :
  NoDup (fst <$> l) → l !! k = Some p →
  findIndex (λ q, Some (EButton p.1) = Some (EButton q.1)) l = Z.of_nat k.
Proof.
  intros Hnd Hk. unfold findIndex.
  assert (list_find (λ q, Some (EButton p.1) = Some (EButton q.1)) l = Some (k, p))
    as ->; [|done].
  apply list_find_Some. split; [done|]. split; [done|].
  intros j q Hj Hlt [= Hq].
  assert (j = k); [|lia].
  eapply NoDup_lookup; [done| |].
  - rewrite list_lookup_fmap, Hj. done.
  - rewrite list_lookup_fmap, Hk. simpl. by rewrite Hq.
Qed.

Lemma at_index_last {A} (l : list A) :
  at_index l (Z.of_nat (length l) - 1) = last l.
Proof.
  rewrite last_lookup. unfold at_index. destruct l as [|x l]; [done|].
  rewrite decide_True by (simpl; lia). f_equal. simpl. lia.
Qed.

Lemma at_index_end {A} (l : list A) : at_index l (Z.of_nat (length l)) = None.
Proof.
  unfold at_index. rewrite decide_True by lia.
  apply lookup_ge_None. lia.
Qed.

(** C10. Arrow navigation wraps around: with the last enabled button
    focused the next target is the first enabled button, and with the first
    enabled button focused the previous target is the last enabled one.
    In left-to-right mode without [selectOnFocus], ArrowRight and ArrowLeft
    move the focus accordingly. *)
Theorem C10_arrow_navigation_wraps (s : Segment) (first final : nat * Button.t) :
  head (enabledButtons s) = Some first →
  last (enabledButtons s) = Some final →
  (activeElement s = Some (EButton final.1) →
   getSegmentButton s Next = Some (EButton first.1)
   ∧ (rtl s = false → selectOnFocus s = false →
      ∃ s', onKeyDown KeyArrowRight s = Ok tt s'
            ∧ activeElement s' = Some (EButton first.1)))
  ∧ (activeElement s = Some (EButton first.1) →
     getSegmentButton s Previous = Some (EButton final.1)
     ∧ (rtl s = false → selectOnFocus s = false →
        ∃ s', onKeyDown KeyArrowLeft s = Ok tt s'
              ∧ activeElement s' = Some (EButton final.1))).
Proof.
  intros Hfirst Hfinal.
  pose proof (enabledButtons_NoDup s) as Hnd.
  assert (enabledButtons s ≠ []) as Hne by (by intros Hnil; rewrite Hnil in Hfirst).
  assert (at_index (enabledButtons s) 0 = Some first) as H0.
  { unfold at_index. rewrite decide_True by lia. by rewrite <-head_lookup. }
  split.
  - intros Hfocus.
    assert (getSegmentButton s Next = Some (EButton first.1)) as Hnext.
    { unfold getSegmentButton. rewrite Hfocus.
      rewrite last_lookup in Hfinal.
      rewrite (focused_position _ _ final Hnd Hfinal).
      replace (Z.of_nat (Init.Nat.pred (length (enabledButtons s))) + 1)
        with (Z.of_nat (length (enabledButtons s)))
        by (destruct (enabledButtons s); [done|simpl; lia]).
      by rewrite at_index_end, H0. }
    split; [done|]. intros Hltr Hsel.
    unfold onKeyDown, bind, get, emit, modify, ret, when, setFocus.
    rewrite Hltr, Hsel. simpl.
    eexists. rewrite Hnext. unfold modify. split; reflexivity.
  - intros Hfocus.
    assert (getSegmentButton s Previous = Some (EButton final.1)) as Hprev.
    { unfold getSegmentButton. rewrite Hfocus.
      rewrite head_lookup in Hfirst.
      rewrite (focused_position _ _ first Hnd Hfirst). simpl.
      by rewrite at_index_last, Hfinal. }
    split; [done|]. intros Hltr Hsel.
    unfold onKeyDown, bind, get, emit, modify, ret, when, setFocus.
    rewrite Hltr, Hsel. simpl.
    eexists. rewrite Hprev. unfold modify. split; reflexivity.
Qed.

Lemma C10_witness :
  (activeElement five = Some (EButton 3) →
   getSegmentButton five Next = Some (EButton 1)
   ∧ (rtl five = false → selectOnFocus five = false →
      ∃ s', onKeyDown KeyArrowRight five = Ok tt s'
            ∧ activeElement s' = Some (EButton 1)))
  ∧ (activeElement five = Some (EButton 1) →
     getSegmentButton five Previous = Some (EButton 3)
     ∧ (rtl five = false → selectOnFocus five = false →
        ∃ s', onKeyDown KeyArrowLeft five = Ok tt s'
              ∧ activeElement s' = Some (EButton 3))).
Proof.
  apply (C10_arrow_navigation_wraps five (1%nat, text_button "2" 100 false)
           (3%nat, text_button "4" 300 false)).
  - reflexivity.
  - reflexivity.
Defined.

(** * The call chain under leaf conditions

    The frame rules above take the effects a relation tolerates.  A relation
    that tolerates an effect only in some states is carried through the same
    calls from what it says of the two methods that write to the view and to
    the classes of the buttons. *)

Lemma sat_bind_get {B} (k : Segment → M B) s (Q : B → Segment → Prop) E :
  sat (k s) s Q E → sat (bind get k) s Q E.
Proof. done. Qed.

Lemma sat_bind_emit {B} e (k : unit → M B) s (Q : B → Segment → Prop) E :
  sat (k tt) (with_trace (e :: trace s) s) Q E → sat (bind (emit e) k) s Q E.
Proof. done. Qed.

Lemma sat_bind_modify {B} f (k : unit → M B) s (Q : B → Segment → Prop) E :
  sat (k tt) (f s) Q E → sat (bind (modify f) k) s Q E.
Proof. done. Qed.

Lemma steps_emit_one R `{!PreOrder R} t e :
  (∀ s, R s (with_trace (e :: trace s) s)) → steps R t (emit e).
Proof. intros. by apply steps_modify. Qed.

Section Chain.
Context (R : relation Segment) `{!PreOrder R}.
Hypothesis R_IonSelect : ∀ v s, R s (with_trace (IonSelect v :: trace s) s).
Hypothesis R_WriteTask :
  ∀ c x pw cw s, R s (with_trace (WriteTask c x pw cw :: trace s) s).
Hypothesis R_ScrollTo : ∀ i smooth s, R s (with_trace (ScrollTo i smooth :: trace s) s).
Hypothesis R_ConsoleError : ∀ s, R s (with_trace (ConsoleError :: trace s) s).
Hypothesis R_IonChange : ∀ v s, R s (with_trace (IonChange v :: trace s) s).
Hypothesis R_trigger : ∀ x s, R s (with_triggerScrollOnValueChange x s).
Hypothesis R_value : ∀ v s, R s (with_value v s).
Hypothesis R_updateSegmentView : ∀ smooth, steps R false (updateSegmentView smooth).
Hypothesis R_setCheckedClasses : steps R false setCheckedClasses.

Lemma chain_scrollActiveButtonIntoView t smooth :
  steps R t (scrollActiveButtonIntoView smooth).
Proof.
  unfold scrollActiveButtonIntoView.
  repeat first [by apply steps_emit_one | steps_rule].
Qed.

Section ChainCallback.
Variables (f : option SegmentValue → M unit) (t : bool).
Hypothesis steps_f : ∀ v, steps R t (f v).

Lemma chain_checkButton_Some_ previous current :
  steps R t (checkButton_ f (Some previous) (Some current)).
Proof.
  unfold checkButton_, getIndicator.
  repeat first [ apply steps_weaken, R_setCheckedClasses; apply _
               | apply steps_f | by apply steps_emit_one | steps_rule ].
Qed.

Lemma chain_checkButton_ previous current :
  steps R true (checkButton_ f previous current).
Proof.
  assert (∀ v, steps R true (f v)).
  { intros v. destruct t; [done|]. by apply steps_weaken. }
  unfold checkButton_, getIndicator.
  repeat first [ apply steps_weaken, R_setCheckedClasses; apply _
               | done | by apply steps_emit_one | steps_rule ].
Qed.

Lemma chain_valueChanged_ v old : steps R true (valueChanged_ f v old).
Proof.
  assert (∀ v, steps R true (f v)).
  { intros v'. destruct t; [done|]. by apply steps_weaken. }
  unfold valueChanged_.
  repeat first [ apply chain_checkButton_
               | apply steps_weaken, R_updateSegmentView; apply _
               | apply chain_scrollActiveButtonIntoView
               | done | by apply steps_emit_one | by apply R_trigger
               | steps_rule ].
Qed.
End ChainCallback.

Lemma chain_caught (m : M unit) s0 s :
  R s0 s → sat m s (λ _, R s) (λ s', true = true ∧ R s s') →
  sat (λ s, caught (m s)) s (λ _, R s0) (λ _, False).
Proof.
  unfold sat, caught. destruct (m s) as [? s'|s'|]; [| |done].
  - intros. by etrans.
  - intros ? [_ ?]. etrans; [done|]. etrans; [done|]. by apply R_ConsoleError.
Qed.

Lemma chain_sat_set_value v s : sat (set_value v) s (λ _, R s) (λ _, False).
Proof.
  destruct (decide (v = value s)) as [Hv|Hv].
  { unfold sat. by rewrite set_value_held. }
  unfold sat. destruct v as [x|].
  - rewrite set_value_Some by done.
    apply (chain_caught (valueChanged_ silent _ _) s); [done|].
    apply (chain_valueChanged_ silent true). intros ?. by apply steps_ret.
  - rewrite set_value_None by done.
    apply (chain_caught (λ _, _) s (with_value None s)); [done|].
    destruct (segmentViewEl s), (buttons s) as [|first ?].
    + unfold sat. by split.
    + eapply sat_mono;
        [| |apply (chain_caught (valueChanged_ silent _ _) (with_value None s))];
        simpl; [done|done|apply R_value|].
      apply (chain_valueChanged_ silent true). intros ?. by apply steps_ret.
    + assert (steps R true (emit (IonSelect None) ;; scrollActiveButtonIntoView true ;;
                            modify (with_triggerScrollOnValueChange None))) as Hs.
      { repeat first [by apply steps_emit_one | apply chain_scrollActiveButtonIntoView
                     | by apply R_trigger | steps_rule]. }
      apply Hs.
    + assert (steps R true (emit (IonSelect None) ;; scrollActiveButtonIntoView true ;;
                            modify (with_triggerScrollOnValueChange None))) as Hs.
      { repeat first [by apply steps_emit_one | apply chain_scrollActiveButtonIntoView
                     | by apply R_trigger | steps_rule]. }
      apply Hs.
Qed.

Lemma chain_set_value t v : steps R t (set_value v).
Proof. intros s. eapply sat_mono; [| |apply chain_sat_set_value]; done. Qed.

Lemma chain_checkButton_Some t previous current :
  steps R t (checkButton (Some previous) (Some current)).
Proof. apply chain_checkButton_Some_, chain_set_value. Qed.

Lemma chain_checkButton previous current :
  steps R true (checkButton previous current).
Proof. apply (chain_checkButton_ _ true), chain_set_value. Qed.

Lemma chain_valueChanged v old : steps R true (valueChanged v old).
Proof. apply (chain_valueChanged_ _ true), chain_set_value. Qed.

Lemma chain_setNextIndex t detail isEnd : steps R t (setNextIndex detail isEnd).
Proof.
  unfold setNextIndex.
  refine (steps_bind _ _ _ _ _ _); [by apply steps_get|intros s].
  cbv zeta.
  refine (steps_bind _ _ _ _ _ _); [by apply steps_getButtons|intros bs].
  destruct (at_index bs _) as [previous|] eqn:Hprev; [|by apply steps_ret].
  apply at_index_Some in Hprev.
  refine (steps_bind _ _ _ _ _ _).
  - destruct (activated s && negb isEnd); [|by apply steps_ret].
    repeat (case_match; simplify_eq; try by apply steps_ret);
      match goal with
      | H : at_index bs ?n = None |- _ =>
          destruct (at_index_is_Some bs n) as [? ?]; [lia|congruence]
      end.
  - intros current.
    repeat first [apply chain_checkButton_Some | steps_rule].
Qed.

Lemma chain_onMove t detail : steps R t (onMove detail).
Proof. unfold onMove. repeat first [apply chain_setNextIndex | steps_rule]. Qed.

Lemma chain_emitValueChange t : steps R t emitValueChange.
Proof. unfold emitValueChange. repeat first [by apply steps_emit_one | steps_rule]. Qed.

Lemma chain_updateSegmentView t smooth : steps R t (updateSegmentView smooth).
Proof. apply steps_weaken, R_updateSegmentView; apply _. Qed.

Lemma chain_setCheckedClasses t : steps R t setCheckedClasses.
Proof. apply steps_weaken, R_setCheckedClasses; apply _. Qed.

Lemma chain_onSlottedItemsChange : steps R true onSlottedItemsChange.
Proof.
  unfold onSlottedItemsChange. repeat first [apply chain_valueChanged | steps_rule].
Qed.

(** The listeners that also touch the activation, the snapshot of the
    gesture, the last resolved index and the focus. *)
Hypothesis R_activated : ∀ a s,
  R s (with_activated a (with_buttons (Button.with_activatedClass a <$> buttons s) s)).
Hypothesis R_valueBeforeGesture : ∀ v s, R s (with_valueBeforeGesture v s).
Hypothesis R_lastNextIndex : ∀ i s, R s (with_lastNextIndex i s).
Hypothesis R_activeElement : ∀ e s, R s (with_activeElement e s).
Hypothesis R_StopImmediatePropagation :
  ∀ s, R s (with_trace (StopImmediatePropagation :: trace s) s).
Hypothesis R_PreventDefault : ∀ s, R s (with_trace (PreventDefault :: trace s) s).

Lemma chain_setActivated t a : steps R t (setActivated a).
Proof. intros s. unfold sat, setActivated, bind, getButtons, modify. apply R_activated. Qed.

Lemma chain_onStart t detail : steps R t (onStart detail).
Proof.
  unfold onStart, activate.
  repeat first [ apply chain_set_value | apply chain_setCheckedClasses
               | apply chain_setActivated | by apply R_valueBeforeGesture
               | steps_rule ].
Qed.

Lemma chain_onEnd t detail : steps R t (onEnd detail).
Proof.
  unfold onEnd.
  repeat first [ apply chain_setNextIndex | apply chain_setActivated
               | apply chain_emitValueChange | apply chain_updateSegmentView
               | by apply R_valueBeforeGesture | by apply steps_emit_one
               | steps_rule ].
Qed.

Lemma chain_handleSegmentViewScroll ev : steps R true (handleSegmentViewScroll ev).
Proof.
  unfold handleSegmentViewScroll.
  repeat first [ apply chain_checkButton | apply chain_emitValueChange
               | by apply R_lastNextIndex | by apply R_trigger | steps_rule ].
Qed.

Lemma chain_onClick target : steps R true (onClick target).
Proof.
  unfold onClick.
  repeat first [ apply chain_set_value | apply chain_emitValueChange
               | apply chain_updateSegmentView | apply chain_setCheckedClasses
               | apply chain_checkButton | steps_rule ].
Qed.

Lemma chain_onKeyDown key : steps R true (onKeyDown key).
Proof.
  unfold onKeyDown, setFocus.
  repeat first [ apply chain_checkButton | apply chain_emitValueChange
               | by apply R_activeElement | by apply steps_emit_one | steps_rule ].
Qed.
End Chain.

(** * Properties of the whole component *)

(** ** Without a segment view *)

#[global] Instance quiet_without_view_preorder : PreOrder quiet_without_view.
Proof.
  split; [by intros s|].
  intros s1 s2 s3 H12 H23 Hnone.
  destruct (H12 Hnone) as [Hnone2 Hc2]. destruct (H23 Hnone2) as [Hnone3 Hc3].
  split; [done|congruence].
Qed.

Lemma quiet_updateSegmentView smooth :
  steps quiet_without_view false (updateSegmentView smooth).
Proof.
  intros s. unfold sat, updateSegmentView, bind, get, getButtons, ret, emit, modify.
  repeat case_match; simplify_eq; intros Hnone; simpl; try (by split); congruence.
Qed.

Lemma quiet_setCheckedClasses : steps quiet_without_view false setCheckedClasses.
Proof. intros s. unfold sat, setCheckedClasses, bind, get, getButtons, modify. done. Qed.

Lemma quiet_caught (m : M unit) :
  steps quiet_without_view true m → steps quiet_without_view false (λ s, caught (m s)).
Proof.
  intros Hm s. specialize (Hm s). unfold sat, caught in *.
  destruct (m s) as [? s'|s'|]; [done| |done].
  destruct Hm as [_ Hm]. intros Hnone. by destruct (Hm Hnone).
Qed.

Ltac quiet_solve :=
  first [ apply quiet_updateSegmentView | apply quiet_setCheckedClasses
        | by apply _ | by (intros; intros ?; split) ].

Lemma quiet_handler input : steps quiet_without_view true (handler input).
Proof.
  destruct input; simpl.
  - apply chain_onStart; quiet_solve.
  - apply chain_onMove; quiet_solve.
  - apply chain_onEnd; quiet_solve.
  - apply chain_handleSegmentViewScroll; quiet_solve.
  - apply chain_onClick; quiet_solve.
  - apply chain_onKeyDown; quiet_solve.
  - by apply steps_modify.
  - apply chain_onSlottedItemsChange; quiet_solve.
  - apply chain_set_value; quiet_solve.
  - refine (steps_weaken _ _ _ _). intros s. unfold sat, set_disabled.
    case_decide; [done|].
    unfold caught, disabledChanged, gestureChanged, bind, get, getButtons, modify, ret,
      quiet_without_view.
    simpl. destruct (gesture s); simpl;
      (destruct (segmentViewEl s) eqn:Hview; simpl; intros Hnone; [done|];
       by rewrite Hview).
  - refine (steps_weaken _ _ _ _). intros s. unfold sat, set_swipeGesture.
    case_decide; [done|].
    unfold caught, swipeGestureChanged, gestureChanged, bind, get, modify, ret.
    simpl. by destruct (gesture s).
  - by apply steps_modify.
  - by apply steps_modify.
Qed.

(** X1. While no segment view is attached, whatever happens to the
    component, in whatever order, no [setContent] is called and no view
    becomes attached; every input is handled to its end. *)
Theorem no_view_no_setContent (inputs : list Input) (s : Segment) :
  segmentViewEl s = None →
  ∃ s', run inputs s = Ok tt s'
        ∧ segmentViewEl s' = None
        ∧ setContents s' = setContents s.
Proof.
  intros Hnone.
  assert (steps quiet_without_view false (run inputs)) as Hrun.
  { apply steps_dispatch_all; [apply _|]. apply Forall_fmap, Forall_forall.
    intros input _. apply quiet_handler. }
  destruct (steps_Ok _ _ s Hrun) as ([] & s' & Hs' & Hquiet).
  exists s'. split; [done|]. by apply Hquiet.
Qed.

Lemma no_view_no_setContent_witness :
  ∃ s', run [Click (EButton 2); SetValue (Some (VString "b"));
             GestureStart (pointer_over 150 1); GestureEnd (pointer_over 50 0)]
            abc = Ok tt s'
        ∧ segmentViewEl s' = None
        ∧ setContents s' = setContents abc.
Proof. apply (no_view_no_setContent _ abc). reflexivity. Defined.

(** ** One [ionChange] per input *)


Lemma settled_checkButton_silent previous current :
  steps (keeps settled) true (checkButton_ silent previous current).
Proof.
  apply (steps_checkButton_ _ (λ e, is_IonChange e = false)) with (t := true);
    unfold settled; first [by (intros; refine (steps_ret _ _ _)) | frame_solve].
Qed.

Lemma settled_checkButton_silent_Some previous current :
  steps (keeps settled) false
        (checkButton_ silent (Some previous) (Some current)).
Proof.
  apply (steps_checkButton_Some_ _ (λ e, is_IonChange e = false));
    unfold settled; first [by (intros; refine (steps_ret _ _ _)) | frame_solve].
Qed.

Lemma settled_updateSegmentView t smooth :
  steps (keeps (λ s, (settled s, buttons s))) t (updateSegmentView smooth).
Proof.
  apply (steps_updateSegmentView _ (λ e, is_IonChange e = false));
    unfold settled; frame_solve.
Qed.

Lemma settled_setCheckedClasses t : steps (keeps settled) t setCheckedClasses.
Proof. apply steps_setCheckedClasses; unfold settled; frame_solve. Qed.


(** Checking an element that holds the value leaves the value and the
    commits as they are. *)
Lemma checkButton_of_held previous current s :
  holds_value s current →
  checkButton previous (Some current) s = checkButton_ silent previous (Some current) s.
Proof.
  intros Hheld. unfold checkButton. apply checkButton_held.
  - intros v s' ->. by apply set_value_held.
  - intros i [= ->] [b Hb]. simpl. rewrite Hb. simpl. symmetry. by eapply Hheld.
Qed.

Lemma same_group_set_value t v : steps same_group t (set_value v).
Proof. apply (steps_set_value _ (λ _, True)); frame_solve. Qed.

Lemma same_group_lookup s s' i b' :
  same_group s s' → buttons s' !! i = Some b' →
  ∃ b, buttons s !! i = Some b ∧ unstyled b = unstyled b'.
Proof.
  intros Hsame Hb'. pose proof (sg_buttons _ _ Hsame) as Hbs.
  apply (f_equal (λ l, l !! i)) in Hbs. rewrite !list_lookup_fmap, Hb' in Hbs.
  destruct (buttons s !! i) as [b|]; [|done]. exists b. split; [done|].
  simpl in Hbs. congruence.
Qed.

Lemma unstyled_value b b' : unstyled b = unstyled b' → Button.value b = Button.value b'.
Proof. intros H. by apply (f_equal Button.value) in H. Qed.

(** Assigning the value of an element: the element then holds the value. *)
Lemma set_value_of_element s e :
  sat (set_value (elt_value s e)) s
      (λ _ s', ionChanges s' = ionChanges s ∧ same_group s s' ∧ holds_value s' e)
      (λ _, False).
Proof.
  pose proof (ionChanges_set_value false (elt_value s e) s) as Hc.
  pose proof (same_group_set_value false (elt_value s e) s) as Hsame.
  unfold sat in *.
  destruct e as [i| |].
  - simpl in *. destruct (buttons s !! i) as [b0|] eqn:Hb0; simpl in *.
    + pose proof (set_value_stores (Button.value b0) s) as Hst. unfold sat in Hst.
      destruct (set_value _ s) as [? s'| |]; [|done..].
      split; [done|]. split; [done|].
      intros j b' [= <-] Hb'.
      destruct (same_group_lookup _ _ _ _ Hsame Hb') as (b & Hb & Hbb').
      rewrite Hst. f_equal. apply unstyled_value. congruence.
    + destruct (set_value _ s) as [? s'| |]; [|by destruct Hc|done].
      split; [done|]. split; [done|].
      intros j b' [= <-] Hb'.
      destruct (same_group_lookup _ _ _ _ Hsame Hb') as (b & Hb & _). congruence.
  - destruct (set_value _ s) as [? s'| |]; [|by destruct Hc|done].
    split; [done|]. split; [done|]. by intros ? ? ?.
  - destruct (set_value _ s) as [? s'| |]; [|by destruct Hc|done].
    split; [done|]. split; [done|]. by intros ? ? ?.
Qed.

Lemma holds_value_settled s s' e :
  settled s' = settled s → buttons s' = buttons s → holds_value s e → holds_value s' e.
Proof.
  intros [= Hv _] Hb Hheld i b -> Hi. rewrite Hv. rewrite Hb in Hi. by eapply Hheld.
Qed.

(** What [onClick] does after the assignment leaves the value and the
    commits as they are. *)
Lemma onClick_settles previous current s :
  holds_value s current →
  sat (match segmentViewEl s with
       | Some _ =>
           updateSegmentView true ;;
           when (scrollable s && bool_decide (is_Some previous))
                (checkButton previous (Some current))
       | None =>
           when (scrollable s || negb (swipeGesture s))
                (match previous with
                 | Some _ => checkButton previous (Some current)
                 | None => setCheckedClasses
                 end)
       end) s
      (λ _ s', settled s' = settled s) (λ s', settled s' = settled s).
Proof.
  intros Hheld. destruct (segmentViewEl s).
  - apply sat_bind.
    eapply sat_mono; [| |apply (settled_updateSegmentView true)]; simpl;
      unfold keeps; [|intros ? [_ H]; unfold settled in *; congruence].
    intros _ s1 Hk. injection Hk as Hv1 Hc1 Hb1.
    assert (settled s1 = settled s) as Hs1 by (unfold settled; congruence).
    destruct (scrollable s && _); simpl; [|done].
    unfold sat. rewrite checkButton_of_held by (by eapply holds_value_settled).
    pose proof (settled_checkButton_silent previous (Some current) s1) as Hc.
    unfold sat, keeps in Hc. destruct (checkButton_ _ _ _ s1); [| |done].
    + congruence.
    + destruct Hc. congruence.
  - destruct (scrollable s || _); simpl; [|done].
    destruct previous as [p|].
    + unfold sat. rewrite checkButton_of_held by done.
      pose proof (settled_checkButton_silent (Some p) (Some current) s) as Hc.
      unfold sat, keeps in Hc. destruct (checkButton_ _ _ _ s); [done| |done].
      by destruct Hc.
    + pose proof (settled_setCheckedClasses true s) as Hc.
      unfold sat, keeps in *. destruct (setCheckedClasses s); [done| |done].
      by destruct Hc.
Qed.


Lemma onClick_commits target s :
  sat (onClick target) s (λ _, at_most_one_commit s) (at_most_one_commit s).
Proof.
  unfold onClick. apply sat_bind. unfold sat at 1, get.
  assert (∀ e, e ≠ ESegment →
    sat (set_value (elt_value s e) ;;
         when (bool_decide (Some e ≠ checked s)) emitValueChange ;;
         s0 <- get ;;
         match segmentViewEl s0 with
         | Some _ =>
             updateSegmentView true ;;
             when (scrollable s0 && bool_decide (is_Some (checked s)))
                  (checkButton (checked s) (Some e))
         | None =>
             when (scrollable s0 || negb (swipeGesture s0))
                  (match checked s with
                   | Some _ => checkButton (checked s) (Some e)
                   | None => setCheckedClasses
                   end)
         end) s (λ _, at_most_one_commit s) (at_most_one_commit s)) as Hbody.
  { intros e _. apply sat_bind.
    eapply sat_mono; [| |apply set_value_of_element]; simpl; [|done].
    intros _ s1 (Hc1 & Hsame & Hheld).
    apply sat_bind.
    assert (sat (when (bool_decide (Some e ≠ checked s)) emitValueChange) s1
              (λ _ s2, at_most_one_commit s s2 ∧ value s2 = value s1
                       ∧ buttons s2 = buttons s1)
              (λ _, False)) as Hemit.
    { destruct (bool_decide _); unfold sat, when, emitValueChange, bind, get, emit,
        modify, ret, at_most_one_commit, ionChanges, only in *; simpl.
      - split; [right; by rewrite Hc1|done].
      - split; [by left|done]. }
    eapply sat_mono; [| |apply Hemit]; simpl; [|done].
    intros _ s2 (Hone & Hv2 & Hb2).
    apply sat_bind. unfold sat at 1, get.
    assert (holds_value s2 e) as Hheld2.
    { intros i b -> Hi. rewrite Hv2. rewrite Hb2 in Hi. by eapply Hheld. }
    eapply sat_mono; [| |apply (onClick_settles (checked s) e s2 Hheld2)]; simpl.
    - intros _ s3 [= Hv3 Hc3]. unfold at_most_one_commit in *.
      destruct Hone as [Hone|Hone]; [left|right]; congruence.
    - intros s3 [= Hv3 Hc3]. unfold at_most_one_commit in *.
      destruct Hone as [Hone|Hone]; [left|right]; congruence. }
  destruct target; [by apply Hbody| by left | by apply Hbody].
Qed.

Lemma onKeyDown_commits key s :
  sat (onKeyDown key) s (λ _, at_most_one_commit s) (at_most_one_commit s).
Proof.
  assert (∀ current selects s0,
    ionChanges s0 = ionChanges s →
    sat (match current with
         | None => ret tt
         | Some c =>
             when selects
                  (s1 <- get ;;
                   let previous := checked s1 in
                   checkButton (nullish previous current) current ;;
                   when (bool_decide (current ≠ previous)) emitValueChange) ;;
             setFocus c
         end) s0 (λ _, at_most_one_commit s) (at_most_one_commit s)) as Hbody.
  { intros [c|] selects s0 Hs0; [|by left].
    apply sat_bind.
    assert (sat (when selects
                   (s1 <- get ;;
                    let previous := checked s1 in
                    checkButton (nullish previous (Some c)) (Some c) ;;
                    when (bool_decide (Some c ≠ previous)) emitValueChange)) s0
              (λ _ s3, at_most_one_commit s s3) (at_most_one_commit s)) as Hsel.
    { destruct selects; [|by left].
      unfold when at 1. apply sat_bind. unfold sat at 1, get. cbv zeta.
      apply sat_bind.
      eapply sat_mono; [| |apply ionChanges_checkButton]; simpl; unfold keeps.
      - intros _ s2 Hs2.
        destruct (bool_decide _); unfold sat, when, emitValueChange, bind, get, emit,
          modify, ret, at_most_one_commit, ionChanges, only in *; simpl.
        + right. congruence.
        + left. congruence.
      - intros s2 [_ Hs2]. left. congruence. }
    eapply sat_mono; [| |apply Hsel]; simpl; [|done].
    intros _ s3 Hs3. by destruct c. }
  unfold onKeyDown. apply sat_bind. unfold sat at 1, get. cbv zeta.
  apply sat_bind.
  destruct key; try (apply sat_bind; unfold sat at 1, emit, modify);
    unfold sat at 1, ret; cbv beta iota; first [by apply Hbody | by left].
Qed.

Lemma handleSegmentViewScroll_commits ev s :
  sat (handleSegmentViewScroll ev) s (λ _, at_most_one_commit s) (at_most_one_commit s).
Proof.
  unfold sat. destruct (decide (acted_on ev s)) as [Hact|Hskip].
  2:{ rewrite handleSegmentViewScroll_skips by done. by left. }
  rewrite handleSegmentViewScroll_acts by done. unfold bind.
  match goal with
  | |- context [checkButton ?p ?c ?x] =>
      pose proof (ionChanges_checkButton p c x) as Hc; unfold sat in Hc;
      destruct (checkButton p c x) as [? s1|s1|]; [| |done]
  end.
  - right. unfold keeps, ionChanges, only in *. simpl. by rewrite Hc.
  - destruct Hc as [_ Hc]. by left.
Qed.

Lemma ionChanges_valueChanged v old :
  steps (keeps ionChanges) true (valueChanged v old).
Proof. apply (steps_valueChanged _ (λ e, is_IonChange e = false)); frame_solve. Qed.

(** X2. Every input is handled to its end and emits at most one
    [ionChange], which carries the value the group holds once the input is
    handled; an input made by the application (a property set from
    outside, a change of the slotted buttons, the disconnection) emits
    none, and neither do the start and the moves of a gesture. *)
Theorem one_commit_per_input (input : Input) (s : Segment) :
  ∃ s', dispatch (handler input) s = Ok tt s'
        ∧ at_most_one_commit s s'
        ∧ (match input with
           | GestureEnd _ | ViewScroll _ | Click _ | KeyDown _ => True
           | _ => ionChanges s' = ionChanges s
           end).
Proof.
  assert (∀ m : M unit, steps (keeps ionChanges) true m →
            ∃ s', dispatch m s = Ok tt s' ∧ at_most_one_commit s s'
                  ∧ ionChanges s' = ionChanges s) as Hnone.
  { intros m Hm. destruct (steps_dispatch _ _ m s Hm) as (s' & Hs' & Hk).
    exists s'. split; [done|]. split; [by left|done]. }
  assert (∀ m : M unit,
            sat m s (λ _, at_most_one_commit s) (at_most_one_commit s) →
            ∃ s', dispatch m s = Ok tt s' ∧ at_most_one_commit s s' ∧ True) as Hone.
  { intros m Hm. destruct (sat_dispatch _ _ _ Hm) as (s' & ? & ?). eauto. }
  destruct input; simpl.
  - apply Hnone. intros s0.
    eapply sat_mono; [| |apply onStart_snapshot]; simpl; [|done]. by intros _ ? [? _].
  - apply Hnone. refine (steps_weaken _ _ _ _). intros s0.
    eapply sat_mono; [| |apply (committed_onMove false)]; simpl; unfold keeps, committed.
    + intros _ ? [= ? ?]. done.
    + by intros ? [].
  - apply Hone. eapply sat_mono; [| |apply onEnd_commits]; simpl; [|done].
    intros _ s' Hs'. unfold at_most_one_commit. rewrite Hs'.
    case_decide; [by right|by left].
  - apply Hone, handleSegmentViewScroll_commits.
  - apply Hone, onClick_commits.
  - apply Hone, onKeyDown_commits.
  - apply Hnone. by apply steps_modify.
  - apply Hnone. unfold onSlottedItemsChange.
    repeat first [apply ionChanges_valueChanged | steps_rule].
  - apply Hnone, ionChanges_set_value.
  - apply Hnone. refine (steps_weaken _ _ _ _). intros s0. unfold sat, set_disabled.
    case_decide; [done|].
    unfold caught, disabledChanged, gestureChanged, bind, get, getButtons, modify, ret.
    unfold keeps. simpl. destruct (gesture s0); simpl; by destruct (segmentViewEl s0).
  - apply Hnone. refine (steps_weaken _ _ _ _). intros s0. unfold sat, set_swipeGesture.
    case_decide; [done|].
    unfold caught, swipeGestureChanged, gestureChanged, bind, get, modify, ret.
    unfold keeps. simpl. by destruct (gesture s0).
  - apply Hnone. by apply steps_modify.
  - apply Hnone. by apply steps_modify.
Qed.

(** ** The end of a gesture *)

Lemma fmap_fmap_same {A B} (g : A → B) (f : A → A) (l : list A) :
  (∀ x, g (f x) = g x) → g <$> (f <$> l) = g <$> l.
Proof. intros Hf. induction l as [|x l IH]; csimpl; [done|]. by rewrite Hf, IH. Qed.

Lemma fmap_alter_same {A B} (g : A → B) (f : A → A) i (l : list A) :
  (∀ x, g (f x) = g x) → g <$> alter f i l = g <$> l.
Proof.
  intros Hf. revert i. induction l as [|x l IH]; intros [|i]; csimpl; [done..| |].
  - by rewrite Hf.
  - by rewrite (IH i).
Qed.

(** [setCheckedClasses] changes the after-checked class and nothing else. *)
Lemma setCheckedClasses_unmarked s :
  ∃ bs, setCheckedClasses s = Ok tt (with_buttons bs s)
        ∧ unmarked <$> bs = unmarked <$> buttons s.
Proof.
  unfold setCheckedClasses, bind, get, getButtons, modify. eexists. split; [done|].
  case_decide.
  - rewrite fmap_alter_same by done. by apply fmap_fmap_same.
  - by apply fmap_fmap_same.
Qed.






(** ** The after-checked class *)

Lemma list_find_values v (bs bs' : list Button.t) :
  Button.value <$> bs' = Button.value <$> bs →
  fst <$> list_find (has_value v) bs' = fst <$> list_find (has_value v) bs.
Proof.
  revert bs'. induction bs as [|b bs IH]; intros [|b' bs'] Hv; simplify_eq/=; [done|].
  specialize (IH bs' H0).
  destruct (decide (has_value v b')) as [Hb'|Hb'],
           (decide (has_value v b)) as [Hb|Hb]; unfold has_value in *;
    [done|congruence|congruence|].
  destruct (list_find _ bs') as [[]|], (list_find _ bs) as [[]|]; simplify_eq/=; done.
Qed.

Lemma findIndex_values v (bs bs' : list Button.t) :
  Button.value <$> bs' = Button.value <$> bs →
  findIndex (has_value v) bs' = findIndex (has_value v) bs.
Proof.
  intros Hv. apply (list_find_values v) in Hv. unfold findIndex.
  destruct (list_find _ bs') as [[]|], (list_find _ bs) as [[]|]; simplify_eq/=; done.
Qed.

Lemma findIndex_bounds {A} (P : A → Prop) `{∀ x, Decision (P x)} (l : list A) :
  -1 ≤ findIndex P l < Z.of_nat (length l).
Proof.
  unfold findIndex. destruct (list_find P l) as [[i x]|] eqn:Hfind; [|lia].
  apply list_find_Some in Hfind as (Hi & _). apply lookup_lt_Some in Hi. lia.
Qed.

Lemma unmarked_values (bs bs' : list Button.t) :
  unmarked <$> bs' = unmarked <$> bs → Button.value <$> bs' = Button.value <$> bs.
Proof.
  intros H. apply (f_equal (fmap Button.value)) in H.
  by rewrite <-!list_fmap_compose in H.
Qed.

(** [setCheckedClasses] changes the after-checked class only, and leaves it
    on the button after the checked one. *)
Lemma setCheckedClasses_marked (s : Segment) :
  ∃ bs, setCheckedClasses s = Ok tt (with_buttons bs s)
        ∧ unmarked <$> bs = unmarked <$> buttons s
        ∧ marked (with_buttons bs s).
Proof.
  destruct (setCheckedClasses_unmarked s) as (bs & Hrun & Hbs).
  exists bs. split; [done|]. split; [done|].
  unfold setCheckedClasses, bind, get, getButtons, modify in Hrun.
  injection Hrun as Hbs'.
  intros j b. simpl. rewrite (findIndex_values _ _ _ (unmarked_values _ _ Hbs)).
  pose proof (findIndex_bounds (has_value (value s)) (buttons s)) as Hidx.
  set (index := findIndex (has_value (value s)) (buttons s)) in *.
  rewrite <-Hbs'. case_decide as Hnext.
  - destruct (decide (j = Z.to_nat (index + 1))) as [->|Hj].
    + rewrite list_lookup_alter_eq, list_lookup_fmap.
      destruct (buttons s !! _); intros; simplify_eq/=. split; [lia|done].
    + rewrite list_lookup_alter_ne, list_lookup_fmap by done.
      destruct (buttons s !! _); intros; simplify_eq/=. split; [done|lia].
  - rewrite list_lookup_fmap. destruct (buttons s !! j) eqn:Hlook; intros; simplify_eq/=.
    apply lookup_lt_Some in Hlook. split; [done|lia].
Qed.

(** X4. [setCheckedClasses] returns having changed at most the
    after-checked class of the buttons, and leaves that class on the button
    that follows the checked one and on no other; when no button is checked
    that is the first button, and when the last one is checked no button
    carries the class. *)
Theorem setCheckedClasses_marks (s : Segment) :
  ∃ bs, setCheckedClasses s = Ok tt (with_buttons bs s)
        ∧ unmarked <$> bs = unmarked <$> buttons s
        ∧ marked (with_buttons bs s).
Proof. apply setCheckedClasses_marked. Qed.

Lemma marked_fixed s : marked s → setCheckedClasses s = Ok tt s.
Proof.
  intros Hmarked. unfold setCheckedClasses, bind, get, getButtons, modify.
  assert (∀ bs, bs = buttons s → Ok tt (with_buttons bs s) = Ok tt s) as Hsame.
  { intros bs ->. by destruct s. }
  apply Hsame. clear Hsame. apply list_eq. intros j.
  pose proof (findIndex_bounds (has_value (value s)) (buttons s)) as Hidx.
  set (index := findIndex (has_value (value s)) (buttons s)) in *.
  assert (∀ b, Button.afterCheckedClass b = false →
               Button.with_afterCheckedClass false b = b) as Hoff by (by intros [] [= ->]).
  assert (∀ b, Button.afterCheckedClass b = true →
               Button.with_afterCheckedClass true (Button.with_afterCheckedClass false b) = b)
    as Hon by (by intros [] [= ->]).
  case_decide as Hnext.
  - destruct (decide (j = Z.to_nat (index + 1))) as [->|Hj].
    + rewrite list_lookup_alter_eq, list_lookup_fmap.
      destruct (buttons s !! _) as [b|] eqn:Hlook; [|done]. simpl. f_equal.
      apply Hon, (Hmarked _ _ Hlook). fold index. lia.
    + rewrite list_lookup_alter_ne, list_lookup_fmap by done.
      destruct (buttons s !! j) as [b|] eqn:Hlook; [|done]. simpl. f_equal.
      apply Hoff. destruct (Button.afterCheckedClass b) eqn:Hb; [|done].
      apply (Hmarked _ _ Hlook) in Hb. fold index in Hb. lia.
  - rewrite list_lookup_fmap.
    destruct (buttons s !! j) as [b|] eqn:Hlook; [|done]. simpl. f_equal.
    apply Hoff. destruct (Button.afterCheckedClass b) eqn:Hb; [|done].
    apply (Hmarked _ _ Hlook) in Hb. fold index in Hb.
    apply lookup_lt_Some in Hlook. lia.
Qed.

(** X5. [setCheckedClasses] is idempotent: called again at once, it changes
    nothing. *)
Theorem setCheckedClasses_idempotent (s : Segment) :
  (setCheckedClasses ;; setCheckedClasses) s = setCheckedClasses s.
Proof.
  destruct (setCheckedClasses_marked s) as (bs & Hrun & _ & Hmarked).
  unfold bind at 1. rewrite Hrun. by apply marked_fixed.
Qed.

(** ** The gesture and the properties that enable it *)

#[global] Instance stays_synced_preorder : PreOrder stays_synced.
Proof. split; [by intros s ?|]. intros s1 s2 s3 H12 H23 H. by apply H23, H12. Qed.

Lemma synced_updateSegmentView smooth :
  steps stays_synced false (updateSegmentView smooth).
Proof.
  intros s. unfold sat, updateSegmentView, bind, get, getButtons, ret, emit, modify,
    stays_synced, gesture_synced.
  repeat case_match; simplify_eq; done.
Qed.

Lemma synced_setCheckedClasses : steps stays_synced false setCheckedClasses.
Proof.
  intros s.
  unfold sat, setCheckedClasses, bind, get, getButtons, modify, stays_synced, gesture_synced.
  done.
Qed.

Ltac synced_solve :=
  first [ apply synced_updateSegmentView | apply synced_setCheckedClasses
        | by apply _ | by (intros; unfold stays_synced, gesture_synced) ].

Lemma synced_handler input :
  sets_scrollable input = false → steps stays_synced true (handler input).
Proof.
  destruct input; simpl; intros Hinput; try done.
  - apply chain_onStart; synced_solve.
  - apply chain_onMove; synced_solve.
  - apply chain_onEnd; synced_solve.
  - apply chain_handleSegmentViewScroll; synced_solve.
  - apply chain_onClick; synced_solve.
  - apply chain_onKeyDown; synced_solve.
  - apply steps_modify. by intros s Hs.
  - apply chain_onSlottedItemsChange; synced_solve.
  - apply chain_set_value; synced_solve.
  - refine (steps_weaken _ _ _ _). intros s. unfold sat, set_disabled.
    case_decide; [done|].
    unfold caught, disabledChanged, gestureChanged, bind, get, getButtons, modify, ret,
      stays_synced, gesture_synced.
    simpl. destruct (gesture s); simpl;
      (destruct (segmentViewEl s) eqn:Hview; simpl; rewrite ?Hview; done).
  - refine (steps_weaken _ _ _ _). intros s. unfold sat, set_swipeGesture.
    case_decide; [done|].
    unfold caught, swipeGestureChanged, gestureChanged, bind, get, modify, ret,
      stays_synced, gesture_synced.
    simpl. destruct (gesture s); simpl; done.
  - apply steps_modify. by intros s Hs.
Qed.

(** X6. Once the gesture exists and is enabled exactly when the segment is
    neither scrollable nor disabled and [swipeGesture] is set, it stays so
    under every input other than an assignment to [scrollable], the one
    property of the three that has no watcher. *)
Theorem gesture_stays_synced (inputs : list Input) (s : Segment) :
  gesture_synced s →
  forallb (λ input, negb (sets_scrollable input)) inputs = true →
  ∃ s', run inputs s = Ok tt s' ∧ gesture_synced s'.
Proof.
  intros Hsynced Hinputs.
  assert (steps stays_synced false (run inputs)) as Hrun.
  { apply steps_dispatch_all; [apply _|]. apply Forall_fmap, Forall_forall.
    intros input Hin. apply synced_handler.
    rewrite forallb_forall in Hinputs. apply negb_true_iff, Hinputs.
    by apply list_elem_of_In. }
  destruct (steps_Ok _ _ s Hrun) as ([] & s' & Hs' & Hstays).
  exists s'. split; [done|]. by apply Hstays.
Qed.

Lemma gesture_stays_synced_witness :
  ∃ s', run [SetDisabled true; Click (EButton 1); SetSwipeGesture false;
             SetDisabled false] abc = Ok tt s'
        ∧ gesture_synced s'.
Proof. apply (gesture_stays_synced _ abc); reflexivity. Defined.

(** ** The start of a gesture and its moves *)

(** X7. A move of the pointer changes nothing and reports nothing while the
    indicator is not activated, and also when it is activated but the pointer
    is still within the box of the checked button. *)
Theorem onMove_idle (detail : GestureDetail) (s : Segment) :
  activated s = false ∨ pointer_on_checked detail s →
  onMove detail s = Ok tt s.
Proof.
  intros Hidle.
  unfold onMove, setNextIndex, bind, get, getButtons, findIndex, pointer_on_checked,
    find in *.
  destruct (list_find _ _) as [[i b]|] eqn:Hfind.
  2:{ unfold at_index. by rewrite decide_False by lia. }
  apply list_find_Some in Hfind as (Hi & _ & _).
  unfold at_index. rewrite decide_True by lia. rewrite Nat2Z.id, Hi.
  destruct Hidle as [-> | Hbox]; simpl; [done|].
  destruct (activated s); simpl; [|done].
  destruct (rtl s); rewrite !bool_decide_eq_false_2 by lia; done.
Qed.

Lemma onMove_idle_witness :
  onMove (pointer_over 50 0) (with_activated true abc) = Ok tt (with_activated true abc).
Proof.
  apply (onMove_idle (pointer_over 50 0) (with_activated true abc)).
  right. unfold pointer_on_checked. simpl. lia.
Defined.

(** X8. While a button is checked, the start of a gesture takes the
    snapshot of the value and, exactly when it is on a button that holds the
    value of the group, activates the segment and every button; it changes
    nothing else and emits nothing. *)
Theorem onStart_with_checked (detail : GestureDetail) (s : Segment) :
  is_Some (checked s) →
  onStart detail s =
    Ok tt (if decide (elt_value s (target detail) = value s)
           then with_activated true
                  (with_buttons (Button.with_activatedClass true <$> buttons s)
                     (with_valueBeforeGesture (value s) s))
           else with_valueBeforeGesture (value s) s).
Proof.
  unfold checked. intros [c Hc]. apply fmap_Some in Hc as ([i b] & Hfind & _).
  assert (value s ≠ None) as Hv.
  { intros Hnone. by rewrite Hnone, find_has_value_None in Hfind. }
  unfold onStart, activate, bind, get, modify. simpl.
  destruct (target detail) as [n| |]; simpl.
  - rewrite Hfind. rewrite bool_decide_eq_false_2 by done. simpl.
    unfold bind, ret, get. simpl.
    destruct (decide (Button.value <$> buttons s !! n = value s)) as [Heq|Hne].
    + by rewrite bool_decide_eq_true_2.
    + by rewrite bool_decide_eq_false_2.
  - by rewrite decide_False.
  - by rewrite decide_False.
Qed.

Lemma onStart_with_checked_witness :
  onStart (pointer_over 50 0) abc =
    Ok tt (if decide (elt_value abc (target (pointer_over 50 0)) = value abc)
           then with_activated true
                  (with_buttons (Button.with_activatedClass true <$> buttons abc)
                     (with_valueBeforeGesture (value abc) abc))
           else with_valueBeforeGesture (value abc) abc).
Proof.
  apply (onStart_with_checked (pointer_over 50 0) abc).
  exists (EButton 0). reflexivity.
Defined.

Lemma marked_activated a bs s :
  marked (with_buttons bs s) →
  marked (with_activated a (with_buttons (Button.with_activatedClass a <$> bs)
                              (with_buttons bs s))).
Proof.
  intros Hmarked j b. simpl. rewrite list_lookup_fmap.
  destruct (bs !! j) as [b0|] eqn:Hlook; intros; simplify_eq/=.
  rewrite (findIndex_values _ bs).
  - apply (Hmarked j b0 Hlook).
  - rewrite <-list_fmap_compose. by apply list_fmap_ext.
Qed.

(** X9. When no button is checked, a gesture that starts on a button of the
    group checks that button: the value becomes the button's, the buttons
    are told by one [ionSelect], the after-checked class is placed and the
    indicator is activated; no [ionChange] is emitted at that point. *)
Theorem onStart_checks_pressed (detail : GestureDetail) (s : Segment)
    (i : nat) (b : Button.t) :
  checked s = None → target detail = EButton i → buttons s !! i = Some b →
  ∃ s', onStart detail s = Ok tt s'
        ∧ value s' = Some (Button.value b)
        ∧ valueBeforeGesture s' = value s
        ∧ activated s' = true
        ∧ marked s'
        ∧ ionSelects s' = IonSelect (Some (Button.value b)) :: ionSelects s
        ∧ ionChanges s' = ionChanges s.
Proof.
  unfold checked. intros Hnone Htarget Hi.
  apply fmap_None in Hnone.
  assert (Some (Button.value b) ≠ value s) as Hv.
  { intros Heq. unfold find in Hnone. rewrite list_find_None, Forall_forall in Hnone.
    apply (Hnone b); [by eapply list_elem_of_lookup_2|done]. }
  set (s0 := with_valueBeforeGesture (value s) s).
  pose proof (valueChanged_reports (Button.value b) (value s0)
                (with_value (Some (Button.value b)) s0)) as Hreport.
  pose proof (same_group_set_value false (Some (Button.value b)) s0) as Hgroup.
  pose proof (ionChanges_set_value false (Some (Button.value b)) s0) as Hchanges.
  unfold sat in Hreport, Hgroup, Hchanges.
  rewrite set_value_Some in Hgroup, Hchanges by done.
  assert (set_value (Some (Button.value b)) s0
          = valueChanged_ silent (Some (Button.value b)) (value s0)
              (with_value (Some (Button.value b)) s0)) as Hset.
  { rewrite set_value_Some by done.
    destruct (valueChanged_ silent _ _ _) as [[] ?| |]; [done|contradiction..]. }
  destruct (valueChanged_ silent _ _ _) as [[] s1| |] eqn:Hrun; [|done..].
  simpl in Hgroup, Hchanges. destruct Hreport as [Hselects Hvalue]. simpl in Hvalue.
  destruct (setCheckedClasses_marked s1) as (bs & Hclasses & Hbs & Hmarked).
  destruct (same_group_lookup _ _ i b (reflexivity _) Hi) as (_ & _).
  assert (Button.value <$> bs !! i = Some (Button.value b)) as Hbi.
  { rewrite <-list_lookup_fmap, (unmarked_values _ _ Hbs),
      (same_group_values _ _ Hgroup), list_lookup_fmap.
    unfold s0. simpl. by rewrite Hi. }
  eexists. split.
  { unfold onStart, activate. rewrite Htarget. unfold bind, get, modify, when.
    cbv beta iota zeta. rewrite bool_decide_eq_true_2 by exact Hnone.
    change (elt_value (with_valueBeforeGesture (value s) s) (EButton i))
      with (Button.value <$> buttons s !! i).
    rewrite Hi. simpl fmap. fold s0. rewrite Hset, Hclasses.
    change (elt_value (with_buttons bs s1) (EButton i)) with (Button.value <$> bs !! i).
    rewrite Hbi. rewrite bool_decide_eq_true_2 by (by rewrite <-Hvalue).
    unfold setActivated, bind, getButtons, modify. reflexivity. }
  split; [by simpl|].
  split; [simpl; by rewrite (sg_valueBeforeGesture _ _ Hgroup)|].
  split; [done|]. split; [by apply marked_activated|].
  split; [done|]. exact Hchanges.
Qed.

Lemma onStart_checks_pressed_witness :
  ∃ s', onStart {| currentX := 150; target := EButton 1; hit := Some (EButton 1) |}
                (with_value None abc) = Ok tt s'
        ∧ value s' = Some (VString "b")
        ∧ valueBeforeGesture s' = value (with_value None abc)
        ∧ activated s' = true
        ∧ marked s'
        ∧ ionSelects s' = IonSelect (Some (VString "b")) :: ionSelects (with_value None abc)
        ∧ ionChanges s' = ionChanges (with_value None abc).
Proof.
  apply (onStart_checks_pressed
           {| currentX := 150; target := EButton 1; hit := Some (EButton 1) |}
           (with_value None abc) 1 (text_button "b" 100 false)); reflexivity.
Defined.

(** ** Assigning a value from outside *)

(** X10. Assigning a value that no button holds stores it and tells the
    buttons by one [ionSelect]; no indicator is moved, nothing is scrolled,
    no content is shown and the classes of the buttons stay as they were. *)
Theorem set_value_unknown (x : SegmentValue) (s : Segment) :
  Some x ≠ value s →
  find (has_value (Some x)) (buttons s) = None →
  set_value (Some x) s =
    Ok tt (with_triggerScrollOnValueChange None
             (with_trace (IonSelect (Some x) :: trace s) (with_value (Some x) s))).
Proof.
  intros Hv Hfind. rewrite set_value_Some by done.
  unfold valueChanged_, updateSegmentView, scrollActiveButtonIntoView, when, bind, get,
    getButtons, emit, modify, ret.
  unfold find in *.
  destruct (value s) as [old|], (segmentViewEl s) as [view|] eqn:Hview; simpl;
    rewrite ?Hview, ?Hfind; simpl;
    try (destruct (list_find (has_value (Some old)) (buttons s)) as [[]|]; simpl);
    rewrite ?Hview, ?Hfind; simpl;
    rewrite ?(bool_decide_eq_false_2 (segmentViewEl s = None)) by (by rewrite Hview);
    rewrite ?(bool_decide_eq_true_2 (segmentViewEl s = None)) by done;
    rewrite ?(bool_decide_eq_true_2 (is_Some (segmentViewEl s))) by (by rewrite Hview);
    rewrite ?(bool_decide_eq_false_2 (is_Some (segmentViewEl s)))
      by (rewrite Hview; by intros [? ?]);
    simpl; rewrite ?Hview, ?Hfind; simpl;
    try (destruct (scrollable s); simpl; rewrite ?Hfind); done.
Qed.

Lemma set_value_unknown_witness :
  set_value (Some (VString "z")) abc =
    Ok tt (with_triggerScrollOnValueChange None
             (with_trace (IonSelect (Some (VString "z")) :: trace abc)
                (with_value (Some (VString "z")) abc))).
Proof.
  apply (set_value_unknown (VString "z") abc); [intros [=]|reflexivity].
Defined.

Lemma marked_ext s s' :
  buttons s' = buttons s → value s' = value s → marked s → marked s'.
Proof. unfold marked. by intros -> ->. Qed.

Lemma find_unmarked v (bs bs' : list Button.t) c bc :
  unmarked <$> bs' = unmarked <$> bs →
  find (has_value v) bs = Some (c, bc) →
  ∃ bc', find (has_value v) bs' = Some (c, bc').
Proof.
  intros Hbs Hc. unfold find in *.
  pose proof (list_find_values v bs bs' (unmarked_values _ _ Hbs)) as Hfst.
  rewrite Hc in Hfst.
  destruct (list_find (has_value v) bs') as [[c' bc']|]; simplify_eq/=. by exists bc'.
Qed.

(** X11. Without a segment view, assigning the value of one button while
    another one is checked, both with their indicator rendered, schedules one
    write task that slides the indicator of the new button from the place of
    the old one's, stores the value, places the after-checked class, tells
    the buttons by one [ionSelect] and, if the segment is scrollable, scrolls
    the new button into view; these effects come in this order and there are
    no others. *)
Theorem set_value_slides (x : SegmentValue) (s : Segment)
    (p c : nat) (bp bc : Button.t) (rp rc : DOMRect) :
  segmentViewEl s = None →
  Some x ≠ value s →
  find (has_value (value s)) (buttons s) = Some (p, bp) →
  find (has_value (Some x)) (buttons s) = Some (c, bc) →
  Button.indicator bp = Some rp → Button.indicator bc = Some rc →
  ∃ s', set_value (Some x) s = Ok tt s'
        ∧ value s' = Some x
        ∧ trace s' =
            (if scrollable s then [ScrollTo c true] else [])
              ++ IonSelect (Some x)
              :: WriteTask c (left rp - left rc) (width rp) (width rc)
              :: trace s
        ∧ unmarked <$> buttons s' = unmarked <$> buttons s
        ∧ marked s'.
Proof.
  intros Hview Hv Hp Hc Hrp Hrc.
  destruct (find_has_value _ _ _ _ Hp) as [Hpl Hold].
  destruct (find_has_value _ _ _ _ Hc) as [Hcl _].
  set (s_w := with_trace (WriteTask c (left rp - left rc) (width rp) (width rc) :: trace s)
                (with_value (Some x) s)).
  destruct (setCheckedClasses_marked s_w) as (bs & Hclasses & Hbs & Hmarked).
  destruct (find_unmarked _ _ _ _ _ Hbs Hc) as [bc' Hc'].
  exists (with_triggerScrollOnValueChange None
            (with_trace ((if scrollable s then [ScrollTo c true] else [])
                           ++ IonSelect (Some x) :: trace s_w)
               (with_buttons bs s_w))).
  split; [|split; [done|]; split; [done|]; split; [done|];
           by apply (marked_ext (with_buttons bs s_w))].
  rewrite set_value_Some by done.
  unfold valueChanged_, bind at 1, get.
  rewrite bool_decide_eq_false_2 by (simpl; rewrite Hview; by intros [[? ?] _]).
  rewrite Hold. unfold bind at 1. unfold bind at 1. unfold getButtons at 1.
  cbn [buttons with_value segmentViewEl]. rewrite <-Hold, Hp, Hc, Hview.
  unfold checkButton_, bind at 1. rewrite getIndicator_Some.
  unfold bind at 1. rewrite getIndicator_Some.
  unfold indicator_of. cbn [buttons with_value]. rewrite Hpl, Hcl.
  cbn [mbind option_bind]. rewrite Hrp, Hrc.
  assert ((emit (WriteTask c (left rp - left rc) (width rp) (width rc)) ;;
           s0 <- get ;; silent (elt_value s0 (EButton c)) ;; setCheckedClasses)
            (with_value (Some x) s) = Ok tt (with_buttons bs s_w)) as ->
    by exact Hclasses.
  unfold bind, emit, modify, get. cbv beta iota.
  rewrite bool_decide_eq_true_2 by exact Hview.
  unfold when, scrollActiveButtonIntoView, bind, get, getButtons. cbv beta iota.
  change (scrollable (with_trace _ (with_buttons bs s_w))) with (scrollable s).
  destruct (scrollable s); [|done].
  change (find (has_value (value (with_trace _ (with_buttons bs s_w))))
               (buttons (with_trace _ (with_buttons bs s_w))))
    with (find (has_value (Some x)) bs).
  by rewrite Hc'.
Qed.

Lemma set_value_slides_witness :
  ∃ s', set_value (Some (VString "c")) abc = Ok tt s'
        ∧ value s' = Some (VString "c")
        ∧ trace s' =
            (if scrollable abc then [ScrollTo 2%nat true] else [])
              ++ IonSelect (Some (VString "c"))
              :: WriteTask 2
                   (left {| left := 0; top := 36; width := 100; height := 4 |}
                    - left {| left := 200; top := 36; width := 100; height := 4 |})
                   (width {| left := 0; top := 36; width := 100; height := 4 |})
                   (width {| left := 200; top := 36; width := 100; height := 4 |})
              :: trace abc
        ∧ unmarked <$> buttons s' = unmarked <$> buttons abc
        ∧ marked s'.
Proof.
  apply (set_value_slides (VString "c") abc 0 2 (text_button "a" 0 false)
           (text_button "c" 200 false));
    first [ reflexivity | intros [=] ].
Defined.

(** X12. With a segment view attached and the suppression not set,
    assigning the value of a button that shows a content, while another
    button is checked or no value is held, calls [setContent] once for that
    content, with a smooth scroll, then tells the buttons by one [ionSelect];
    no indicator is moved and the classes of the buttons are left as they
    were. *)
Theorem set_value_shows_content (x : SegmentValue) (s : Segment)
    (c : nat) (bc : Button.t) (id : string) :
  is_Some (segmentViewEl s) →
  triggerScrollOnValueChange s ≠ Some false →
  Some x ≠ value s →
  value s = None ∨ is_Some (checked s) →
  find (has_value (Some x)) (buttons s) = Some (c, bc) →
  Button.contentId bc = Some id → id ≠ EmptyString →
  set_value (Some x) s =
    Ok tt (with_triggerScrollOnValueChange None
             (with_trace (IonSelect (Some x) :: SetContent id true :: trace s)
                (with_value (Some x) s))).
Proof.
  intros [view Hview] Hflag Hv Hold Hc Hid Hne. rewrite set_value_Some by done.
  unfold valueChanged_, updateSegmentView, when, bind, get, getButtons, emit, modify, ret.
  unfold checked, find in *.
  rewrite bool_decide_eq_false_2 by (by intros [_ ?]).
  destruct (value s) as [old|] eqn:Hvalue; simpl.
  - destruct Hold as [|[e He]]; [done|].
    apply fmap_Some in He as ([p bp] & Hp & _).
    rewrite Hp, Hview, Hc. simpl. rewrite decide_True by done. simpl. rewrite Hc, Hid.
    rewrite decide_False by done. rewrite Hview. simpl.
    by rewrite (bool_decide_eq_false_2 (segmentViewEl s = None)) by (by rewrite Hview).
  - rewrite (bool_decide_eq_true_2 (is_Some (segmentViewEl s))) by (by rewrite Hview).
    simpl. rewrite Hc, Hid. rewrite decide_False by done. rewrite Hview. simpl.
    by rewrite (bool_decide_eq_false_2 (segmentViewEl s = None)) by (by rewrite Hview).
Qed.

Lemma set_value_shows_content_witness :
  set_value (Some (VString "c")) pages =
    Ok tt (with_triggerScrollOnValueChange None
             (with_trace (IonSelect (Some (VString "c")) :: SetContent "page-c" true
                            :: trace pages)
                (with_value (Some (VString "c")) pages))).
Proof.
  apply (set_value_shows_content (VString "c") pages 2
           (content_button "c" 200 "page-c") "page-c");
    first [ reflexivity | by intros [=] | by eexists
          | (right; exists (EButton 0); reflexivity) ].
Defined.

(** X13. With a segment view attached, when the value held so far is that
    of no button, assigning the value of a button does not call
    [setContent]: the value is stored and the buttons are told, and the view
    is left where it was. *)
Theorem set_value_from_unknown (x old : SegmentValue) (s : Segment) :
  is_Some (segmentViewEl s) →
  value s = Some old → x ≠ old →
  find (has_value (Some old)) (buttons s) = None →
  set_value (Some x) s =
    Ok tt (with_triggerScrollOnValueChange None
             (with_trace (IonSelect (Some x) :: trace s) (with_value (Some x) s))).
Proof.
  intros [view Hview] Hvalue Hv Hold.
  rewrite set_value_Some by (rewrite Hvalue; congruence).
  unfold valueChanged_, updateSegmentView, when, bind, get, getButtons, emit, modify, ret.
  unfold find in *. rewrite Hvalue.
  rewrite bool_decide_eq_false_2 by (by intros [_ ?]). simpl. rewrite Hold. simpl.
  by rewrite (bool_decide_eq_false_2 (segmentViewEl s = None)) by (by rewrite Hview).
Qed.

Lemma set_value_from_unknown_witness :
  set_value (Some (VString "c")) (with_value (Some (VString "z")) pages) =
    Ok tt (with_triggerScrollOnValueChange None
             (with_trace (IonSelect (Some (VString "c"))
                            :: trace (with_value (Some (VString "z")) pages))
                (with_value (Some (VString "c")) (with_value (Some (VString "z")) pages)))).
Proof.
  apply (set_value_from_unknown (VString "c") (VString "z")
           (with_value (Some (VString "z")) pages));
    first [ reflexivity | by intros [=] | by eexists ].
Defined.

(** ** A scroll of the view that ends on the checked button *)

Lemma suppression_checkButton_silent previous current :
  steps (keeps suppression) false
        (checkButton_ silent (Some previous) (Some current)).
Proof.
  apply chain_checkButton_Some_;
    first [ by apply _
          | by (intros; unfold keeps, suppression)
          | by (intros s; unfold sat, setCheckedClasses, bind, get, getButtons, modify,
                  keeps, suppression)
          | by (intros v; apply steps_ret; apply _) ].
Qed.

(** X14. A manual scroll of the view that is acted on and resolves to the
    button already checked leaves the value as it is and still emits one
    [ionChange] for it; the suppression it sets is not lifted, so that the
    next assignment of a defined value, whichever it is, calls no
    [setContent]. *)
Theorem scroll_to_checked (ev : SegmentViewScrollEvent) (s : Segment)
    (i : nat) (b : Button.t) :
  acted_on ev s →
  find (has_value (value s)) (buttons s) = Some (i, b) →
  scrollIndex (scrollRatio ev) (length (buttons s)) = Z.of_nat i →
  ∃ s1, handleSegmentViewScroll ev s = Ok tt s1
        ∧ value s1 = value s
        ∧ ionChanges s1 = IonChange (value s) :: ionChanges s
        ∧ triggerScrollOnValueChange s1 = Some false
        ∧ (∀ x, ∃ s2, set_value (Some x) s1 = Ok tt s2
                      ∧ setContents s2 = setContents s1).
Proof.
  intros Hacted Hfind Hidx.
  destruct (find_has_value _ _ _ _ Hfind) as [Hi Hvalue].
  rewrite handleSegmentViewScroll_acts by done.
  rewrite (button_at_checked s i b Hfind), Hidx, (button_at_lookup s i b Hi).
  set (s0 := with_triggerScrollOnValueChange (Some false)
               (with_lastNextIndex (Some (Z.of_nat i)) s)).
  assert (holds_value s0 (EButton i)) as Hheld.
  { intros i' b' [= <-] Hb'. simpl in *. congruence. }
  unfold bind. rewrite (checkButton_of_held _ _ _ Hheld).
  destruct (steps_Ok _ _ s0 (suppression_checkButton_silent (EButton i) (EButton i)))
    as ([] & sc & -> & Hkept).
  unfold keeps, suppression in Hkept. injection Hkept as Hv Hc Hflag. simpl in Hv, Hc, Hflag.
  eexists. split; [reflexivity|]. simpl.
  split; [done|]. split.
  { unfold ionChanges, only in *. simpl. by rewrite Hv, Hc. }
  split; [done|].
  intros x.
  destruct (sat_Ok _ _ _ (suppressed_set_value x
              (with_trace (IonChange (value sc) :: trace sc) sc) Hflag
              ltac:(simpl; by rewrite Hv, Hvalue)))
    as ([] & s2 & Hs2 & Hcontents).
  by exists s2.
Qed.

Lemma scroll_to_checked_witness :
  ∃ s1, handleSegmentViewScroll (manual_scroll 0) pages = Ok tt s1
        ∧ value s1 = value pages
        ∧ ionChanges s1 = IonChange (value pages) :: ionChanges pages
        ∧ triggerScrollOnValueChange s1 = Some false
        ∧ (∀ x, ∃ s2, set_value (Some x) s1 = Ok tt s2
                      ∧ setContents s2 = setContents s1).
Proof.
  apply (scroll_to_checked (manual_scroll 0) pages 0 (content_button "a" 0 "page-a")).
  - repeat split; [left; split; [by eexists|done]|done|done].
  - reflexivity.
  - reflexivity.
Defined.

(** X15. A scroll event that is not manual, that comes neither from the view
    of this segment nor from an element that contains the segment, that
    finds no button, or that resolves to the index resolved last, is
    ignored: the listener returns with nothing changed and nothing
    emitted. *)
Theorem scroll_ignored (ev : SegmentViewScrollEvent) (s : Segment) :
  ¬ acted_on ev s → handleSegmentViewScroll ev s = Ok tt s.
Proof. apply handleSegmentViewScroll_skips. Qed.

Lemma scroll_ignored_witness :
  handleSegmentViewScroll
    {| scrollRatio := 1; isManualScroll := false;
       pathIncludesView := true; targetContainsSegment := false |} pages
  = Ok tt pages.
Proof. apply (scroll_ignored _ pages). intros [Hmanual _]. discriminate Hmanual. Defined.

(** X16. A scroll event that is acted on while no button is checked throws
    out of the listener on reading the indicator of the missing button:
    the index resolved and the suppression are already recorded, the value is
    as it was and no [ionChange] is emitted. *)
Theorem scroll_without_checked_throws (ev : SegmentViewScrollEvent) (s : Segment) :
  acted_on ev s → checked s = None →
  handleSegmentViewScroll ev s =
    Throw (with_triggerScrollOnValueChange (Some false)
             (with_lastNextIndex
                (Some (scrollIndex (scrollRatio ev) (length (buttons s)))) s)).
Proof.
  intros Hacted Hnone. rewrite handleSegmentViewScroll_acts by done.
  unfold checked in Hnone. apply fmap_None in Hnone.
  unfold button_at at 1, findIndex. unfold find in Hnone. rewrite Hnone.
  unfold at_index at 1. rewrite decide_False by lia.
  reflexivity.
Qed.

Lemma scroll_without_checked_throws_witness :
  handleSegmentViewScroll (manual_scroll 1) pages_unset =
    Throw (with_triggerScrollOnValueChange (Some false)
             (with_lastNextIndex
                (Some (scrollIndex (scrollRatio (manual_scroll 1))
                         (length (buttons pages_unset)))) pages_unset)).
Proof.
  apply (scroll_without_checked_throws (manual_scroll 1) pages_unset).
  - repeat split; [left; split; [by eexists|done]|done|done].
  - reflexivity.
Defined.

(** ** A click on a button *)

Lemma onClick_settles_returns previous current s :
  holds_value s current →
  sat (match segmentViewEl s with
       | Some _ =>
           updateSegmentView true ;;
           when (scrollable s && bool_decide (is_Some previous))
                (checkButton previous (Some current))
       | None =>
           when (scrollable s || negb (swipeGesture s))
                (match previous with
                 | Some _ => checkButton previous (Some current)
                 | None => setCheckedClasses
                 end)
       end) s
      (λ _ s', settled s' = settled s) (λ _, False).
Proof.
  intros Hheld.
  assert (∀ p s1, settled s1 = settled s → buttons s1 = buttons s →
            sat (checkButton (Some p) (Some current)) s1
                (λ _ s', settled s' = settled s) (λ _, False)) as Hcheck.
  { intros p s1 Hs1 Hb1. unfold sat.
    rewrite checkButton_of_held by (by eapply holds_value_settled).
    pose proof (settled_checkButton_silent_Some p current s1) as Hc.
    unfold sat, keeps in Hc. destruct (checkButton_ _ _ _ s1); [|by destruct Hc|done].
    congruence. }
  destruct (segmentViewEl s).
  - apply sat_bind.
    eapply sat_mono; [| |apply (settled_updateSegmentView false true)]; simpl;
      unfold keeps; [|by intros ? [? _]].
    intros _ s1 Hk. injection Hk as Hv1 Hc1 Hb1.
    assert (settled s1 = settled s) as Hs1 by (unfold settled; congruence).
    destruct previous as [p|]; [|by rewrite andb_false_r].
    destruct (scrollable s); simpl; [|done]. by apply Hcheck.
  - destruct (scrollable s || _); simpl; [|done].
    destruct previous as [p|]; [by apply Hcheck|].
    pose proof (settled_setCheckedClasses false s) as Hc.
    unfold sat, keeps in *. destruct (setCheckedClasses s); [done|by destruct Hc|done].
Qed.

(** X17. A click on a button of the group returns with the value of that
    button held, and emits one [ionChange], for that value, exactly when the
    button clicked is not the one that was checked. *)
Theorem onClick_checks (i : nat) (b : Button.t) (s : Segment) :
  buttons s !! i = Some b →
  ∃ s', onClick (EButton i) s = Ok tt s'
        ∧ value s' = Some (Button.value b)
        ∧ ionChanges s' =
            (if decide (checked s = Some (EButton i)) then ionChanges s
             else IonChange (Some (Button.value b)) :: ionChanges s).
Proof.
  intros Hi.
  enough (sat (onClick (EButton i)) s
            (λ _ s', value s' = Some (Button.value b)
                     ∧ ionChanges s' =
                         (if decide (checked s = Some (EButton i)) then ionChanges s
                          else IonChange (Some (Button.value b)) :: ionChanges s))
            (λ _, False)) as Hsat.
  { destruct (sat_Ok _ _ _ Hsat) as ([] & s' & ? & ?). by exists s'. }
  unfold onClick. apply sat_bind_get, sat_bind.
  eapply sat_mono; [| |apply set_value_of_element]; cbv beta; [|done].
  intros _ s1 (Hc1 & Hsame & Hheld).
  assert (value s1 = Some (Button.value b)) as Hv1.
  { pose proof (sg_buttons _ _ Hsame) as Hbs.
    apply (f_equal (λ l, l !! i)) in Hbs. rewrite !list_lookup_fmap, Hi in Hbs.
    destruct (buttons s1 !! i) as [b1|] eqn:Hb1; [|done].
    injection Hbs as Hbs _ _ _ _. rewrite (Hheld i b1 eq_refl Hb1). by rewrite Hbs. }
  apply sat_bind.
  assert (sat (when (bool_decide (Some (EButton i) ≠ checked s)) emitValueChange) s1
            (λ _ s2, value s2 = value s1 ∧ buttons s2 = buttons s1
                     ∧ ionChanges s2 =
                         (if decide (checked s = Some (EButton i)) then ionChanges s
                          else IonChange (Some (Button.value b)) :: ionChanges s))
            (λ _, False)) as Hemit.
  { case_bool_decide as Hne; unfold sat, when, emitValueChange, bind, get, emit, modify,
      ret, ionChanges, only in *; simpl.
    - rewrite decide_False by congruence. by rewrite Hc1, Hv1.
    - rewrite decide_True; [done|].
      destruct (decide (checked s = Some (EButton i))) as [|Hn]; [done|].
      destruct Hne. congruence. }
  eapply sat_mono; [| |apply Hemit]; cbv beta; [|done].
  intros _ s2 (Hv2 & Hb2 & Hc2).
  apply sat_bind_get.
  assert (holds_value s2 (EButton i)) as Hheld2.
  { intros j bj [= <-] Hj. rewrite Hv2. rewrite Hb2 in Hj. by eapply Hheld. }
  eapply sat_mono; [| |apply (onClick_settles_returns (checked s) (EButton i) s2 Hheld2)];
    cbv beta; [|done].
  intros _ s3 [= Hv3 Hc3]. split; congruence.
Qed.

Lemma onClick_checks_witness :
  ∃ s', onClick (EButton 2) abc = Ok tt s'
        ∧ value s' = Some (Button.value (text_button "c" 200 false))
        ∧ ionChanges s' =
            (if decide (checked abc = Some (EButton 2)) then ionChanges abc
             else IonChange (Some (Button.value (text_button "c" 200 false)))
                    :: ionChanges abc).
Proof. apply (onClick_checks 2 (text_button "c" 200 false) abc). reflexivity. Defined.

(** ** The keyboard *)

Lemma at_index_elem_of {A} (l : list A) i x : at_index l i = Some x → x ∈ l.
Proof. unfold at_index. case_decide; [|done]. apply list_elem_of_lookup_2. Qed.

Lemma at_index_nat {A} (l : list A) (k : nat) : at_index l (Z.of_nat k) = l !! k.
Proof. unfold at_index. rewrite decide_True by lia. by rewrite Nat2Z.id. Qed.

Lemma at_index_first_None {A} (l : list A) : at_index l 0 = None → l = [].
Proof. by destruct l. Qed.

Lemma nullish_Some {A} (a b : option A) x :
  nullish a b = Some x → a = Some x ∨ b = Some x.
Proof. destruct a; naive_solver. Qed.

Lemma nullish_None {A} (a b : option A) : nullish a b = None → b = None.
Proof. by destruct a. Qed.

(** What [getSegmentButton] returns is an enabled button, or nothing when
    there is none. *)
Lemma getSegmentButton_cases (s : Segment) (selector : Selector) :
  match getSegmentButton s selector with
  | Some e =>
      ∃ i b, e = EButton i ∧ buttons s !! i = Some b ∧ Button.disabled b = false
  | None => Forall (λ b, Button.disabled b = true) (buttons s)
  end.
Proof.
  unfold getSegmentButton.
  set (l := enabledButtons s).
  set (currIndex := findIndex _ l).
  set (r := match selector with
            | First => at_index l 0
            | Last => at_index l (Z.of_nat (length l) - 1)
            | Next => nullish (at_index l (currIndex + 1)) (at_index l 0)
            | Previous =>
                nullish (at_index l (currIndex - 1)) (at_index l (Z.of_nat (length l) - 1))
            end).
  destruct r as [p|] eqn:Hr; simpl.
  - assert (p ∈ l) as Hp.
    { destruct selector; subst r;
        repeat match goal with
               | H : nullish _ _ = Some _ |- _ => apply nullish_Some in H as [H|H]
               | H : at_index _ _ = Some _ |- _ => apply at_index_elem_of in H
               end; done. }
    apply enabledButtons_lookup in Hp as [Hlook Hdis]. by exists p.1, p.2.
  - assert (l = []) as Hnil.
    { destruct selector; subst r;
        repeat match goal with
               | H : nullish _ _ = None |- _ => apply nullish_None in H
               | H : at_index _ (_ - 1) = None |- _ =>
                   rewrite at_index_last in H; apply last_None in H
               | H : at_index _ 0 = None |- _ => apply at_index_first_None in H
               end; done. }
    apply Forall_lookup. intros j b Hj.
    destruct (Button.disabled b) eqn:Hdis; [done|].
    assert ((j, b) ∈ l) as Hin; [|by rewrite Hnil in Hin; apply elem_of_nil in Hin].
    apply list_elem_of_filter. split; [done|]. by apply (elem_of_lookup_imap_2 pair).
Qed.

(** X18. Whichever button [getSegmentButton] is asked for, what it returns
    is a button of the group that is not disabled; it returns none only when
    every button is disabled. *)
Theorem getSegmentButton_enabled (s : Segment) (selector : Selector) :
  match getSegmentButton s selector with
  | Some e =>
      ∃ i b, e = EButton i ∧ buttons s !! i = Some b ∧ Button.disabled b = false
  | None => Forall (λ b, Button.disabled b = true) (buttons s)
  end.
Proof. apply getSegmentButton_cases. Qed.

(** Where each selector leads from the [k]-th enabled button. *)
Lemma getSegmentButton_focused s (k : nat) p selector :
  enabledButtons s !! k = Some p →
  activeElement s = Some (EButton p.1) →
  getSegmentButton s selector =
    (λ q, EButton q.1) <$>
      match selector with
      | First => enabledButtons s !! 0%nat
      | Last => last (enabledButtons s)
      | Next =>
          if decide (S k < length (enabledButtons s))%nat
          then enabledButtons s !! S k else enabledButtons s !! 0%nat
      | Previous =>
          match k with
          | O => last (enabledButtons s)
          | S k' => enabledButtons s !! k'
          end
      end.
Proof.
  intros Hk Hfocus. unfold getSegmentButton. rewrite Hfocus.
  rewrite (focused_position _ k p (enabledButtons_NoDup s) Hk).
  pose proof (lookup_lt_Some _ _ _ Hk) as Hlt.
  f_equal. destruct selector.
  - apply (at_index_nat _ 0).
  - apply at_index_last.
  - case_decide as Hnext.
    + replace (Z.of_nat k + 1) with (Z.of_nat (S k)) by lia. rewrite at_index_nat.
      destruct (lookup_lt_is_Some_2 (enabledButtons s) (S k) Hnext) as [q ->]. done.
    + replace (Z.of_nat k + 1) with (Z.of_nat (length (enabledButtons s))) by lia.
      rewrite at_index_end. apply (at_index_nat _ 0).
  - destruct k as [|k'].
    + unfold at_index at 1. rewrite decide_False by lia. apply at_index_last.
    + replace (Z.of_nat (S k') - 1) with (Z.of_nat k') by lia. rewrite at_index_nat.
      destruct (lookup_lt_is_Some_2 (enabledButtons s) k') as [q ->]; [lia|done].
Qed.

(** X19. From a focused button that is not disabled, [next] and then
    [previous] lead back to it, and so do [previous] and then [next],
    whether or not the end of the row is passed on the way. *)
Theorem focus_round_trip (s : Segment) (k : nat) (p : nat * Button.t) :
  enabledButtons s !! k = Some p →
  activeElement s = Some (EButton p.1) →
  (∃ e, getSegmentButton s Next = Some e
        ∧ getSegmentButton (with_activeElement (Some e) s) Previous
          = Some (EButton p.1))
  ∧ (∃ e, getSegmentButton s Previous = Some e
          ∧ getSegmentButton (with_activeElement (Some e) s) Next
            = Some (EButton p.1)).
Proof.
  intros Hk Hfocus. pose proof (lookup_lt_Some _ _ _ Hk) as Hlt.
  rewrite !(getSegmentButton_focused s k p) by done.
  split.
  - case_decide as Hnext.
    + destruct (lookup_lt_is_Some_2 (enabledButtons s) (S k) Hnext) as [q Hq].
      rewrite Hq. eexists. split; [done|].
      rewrite (getSegmentButton_focused _ (S k) q) by done.
      change (enabledButtons (with_activeElement _ s)) with (enabledButtons s).
      by rewrite Hk.
    + destruct (lookup_lt_is_Some_2 (enabledButtons s) 0) as [q Hq]; [lia|].
      rewrite Hq. eexists. split; [done|].
      rewrite (getSegmentButton_focused _ 0 q) by done.
      change (enabledButtons (with_activeElement _ s)) with (enabledButtons s).
      rewrite last_lookup.
      replace (pred (length (enabledButtons s))) with k by lia. by rewrite Hk.
  - destruct k as [|k'].
    + rewrite last_lookup.
      destruct (lookup_lt_is_Some_2 (enabledButtons s)
                  (pred (length (enabledButtons s)))) as [q Hq]; [lia|].
      rewrite Hq. eexists. split; [done|].
      rewrite (getSegmentButton_focused _ (pred (length (enabledButtons s))) q) by done.
      change (enabledButtons (with_activeElement _ s)) with (enabledButtons s).
      rewrite decide_False by lia. by rewrite Hk.
    + destruct (lookup_lt_is_Some_2 (enabledButtons s) k') as [q Hq]; [lia|].
      rewrite Hq. eexists. split; [done|].
      rewrite (getSegmentButton_focused _ k' q) by done.
      change (enabledButtons (with_activeElement _ s)) with (enabledButtons s).
      rewrite decide_True by lia. by rewrite Hk.
Qed.

Lemma focus_round_trip_witness :
  (∃ e, getSegmentButton five Next = Some e
        ∧ getSegmentButton (with_activeElement (Some e) five) Previous
          = Some (EButton 3))
  ∧ (∃ e, getSegmentButton five Previous = Some e
          ∧ getSegmentButton (with_activeElement (Some e) five) Next
            = Some (EButton 3)).
Proof.
  apply (focus_round_trip five 2 (3%nat, text_button "4" 300 false)); reflexivity.
Defined.

(** X20. Without [selectOnFocus], a key other than Space and Enter changes
    neither the value nor the buttons and emits nothing: a navigation key
    has its default action prevented and moves the focus, which lands on a
    button that is not disabled or stays where it was, and any other key
    is ignored. *)
Theorem navigation_moves_focus_only (key : Key) (s : Segment) :
  selectOnFocus s = false → key ≠ KeySpace → key ≠ KeyEnter →
  ∃ s', onKeyDown key s = Ok tt s'
        ∧ value s' = value s
        ∧ buttons s' = buttons s
        ∧ trace s' = match key with
                     | KeyOther => trace s
                     | _ => PreventDefault :: trace s
                     end
        ∧ (activeElement s' = activeElement s
           ∨ ∃ i b, activeElement s' = Some (EButton i)
                    ∧ buttons s !! i = Some b ∧ Button.disabled b = false).
Proof.
  intros Hselect Hspace Henter.
  assert (∀ selector,
    ∃ s', (match getSegmentButton s selector with
           | Some c => when (selectOnFocus s) (ret tt) ;; setFocus c
           | None => ret tt
           end) (with_trace (PreventDefault :: trace s) s) = Ok tt s'
          ∧ value s' = value s ∧ buttons s' = buttons s
          ∧ trace s' = PreventDefault :: trace s
          ∧ (activeElement s' = activeElement s
             ∨ ∃ i b, activeElement s' = Some (EButton i)
                      ∧ buttons s !! i = Some b ∧ Button.disabled b = false))
    as Hnav.
  { intros selector. pose proof (getSegmentButton_cases s selector) as Henabled.
    destruct (getSegmentButton s selector) as [e|].
    - destruct Henabled as (i & b & -> & Hi & Hdis). rewrite Hselect.
      eexists. split; [reflexivity|]. simpl. repeat split; try done.
      right. by exists i, b.
    - eexists. split; [reflexivity|]. simpl. repeat split; try done. by left. }
  unfold onKeyDown, bind, get, emit, modify, ret. rewrite Hselect.
  destruct key; try done; cbv beta iota zeta.
  - destruct (Hnav (if rtl s then Previous else Next)) as (s' & Hrun & Hs').
    exists s'. split; [|done]. rewrite <-Hrun. rewrite Hselect.
    by destruct (getSegmentButton s _).
  - destruct (Hnav (if rtl s then Next else Previous)) as (s' & Hrun & Hs').
    exists s'. split; [|done]. rewrite <-Hrun. rewrite Hselect.
    by destruct (getSegmentButton s _).
  - destruct (Hnav First) as (s' & Hrun & Hs').
    exists s'. split; [|done]. rewrite <-Hrun. rewrite Hselect.
    by destruct (getSegmentButton s _).
  - destruct (Hnav Last) as (s' & Hrun & Hs').
    exists s'. split; [|done]. rewrite <-Hrun. rewrite Hselect.
    by destruct (getSegmentButton s _).
  - exists s. repeat split; try done. by left.
Qed.

Lemma navigation_moves_focus_only_witness :
  ∃ s', onKeyDown KeyArrowRight five = Ok tt s'
        ∧ value s' = value five
        ∧ buttons s' = buttons five
        ∧ trace s' = PreventDefault :: trace five
        ∧ (activeElement s' = activeElement five
           ∨ ∃ i b, activeElement s' = Some (EButton i)
                    ∧ buttons five !! i = Some b ∧ Button.disabled b = false).
Proof.
  apply (navigation_moves_focus_only KeyArrowRight five);
    [reflexivity|discriminate|discriminate].
Defined.

(** X21. Space or Enter on a focused button of the group, its indicator
    and that of the checked button being rendered, checks the focused button:
    its value becomes the value held, the focus stays on it, and one
    [ionChange] is emitted for that value exactly when the button was not
    the checked one. *)
Theorem activation_key_selects (key : Key) (s : Segment)
    (c : nat) (bc : Button.t) (rc : DOMRect) :
  key = KeySpace ∨ key = KeyEnter →
  activeElement s = Some (EButton c) →
  buttons s !! c = Some bc → Button.indicator bc = Some rc →
  (∀ p, checked s = Some (EButton p) → is_Some (indicator_of s (EButton p))) →
  ∃ s', onKeyDown key s = Ok tt s'
        ∧ value s' = Some (Button.value bc)
        ∧ activeElement s' = Some (EButton c)
        ∧ ionChanges s' =
            (if decide (checked s = Some (EButton c)) then ionChanges s
             else IonChange (Some (Button.value bc)) :: ionChanges s).
Proof.
  intros Hkey Hfocus Hc Hrc Hrendered.
  set (s0 := with_trace (PreventDefault :: trace s) s).
  assert (∃ p bp rp, nullish (checked s) (Some (EButton c)) = Some (EButton p)
                     ∧ buttons s0 !! p = Some bp ∧ Button.indicator bp = Some rp)
    as (p & bp & rp & Hprev & Hp & Hrp).
  { destruct (checked s) as [e|] eqn:Hchecked; simpl; [|by exists c, bc, rc].
    pose proof Hchecked as Hfind. unfold checked in Hfind.
    apply fmap_Some in Hfind as ([p bp] & Hfind & ->).
    apply find_has_value in Hfind as [Hp _].
    destruct (Hrendered p eq_refl) as [rp Hrp]. simpl in Hrp. rewrite Hp in Hrp.
    by exists p, bp, rp. }
  pose proof (checkButton_stores p c bp bc rp rc s0 Hp Hrp Hc Hrc) as Hstores.
  pose proof (ionChanges_checkButton_Some (EButton p) (EButton c) s0) as Hchanges.
  unfold sat, keeps in Hstores, Hchanges.
  destruct (checkButton (Some (EButton p)) (Some (EButton c)) s0)
    as [[] s1| |] eqn:Hcheck; [|done..].
  destruct Hstores as [Hv1 Hsame].
  exists (with_activeElement (Some (EButton c))
            (if decide (checked s = Some (EButton c)) then s1
             else with_trace (IonChange (value s1) :: trace s1) s1)).
  split.
  { unfold onKeyDown, bind at 1, get.
    assert (∀ k : option Elt * bool → M unit,
              (sel <- (emit PreventDefault ;; ret (activeElement s, true)) ;; k sel) s
              = k (Some (EButton c), true) s0) as Hsel by (intros k; by rewrite Hfocus).
    destruct Hkey as [-> | ->]; rewrite Hsel; cbv beta iota zeta;
      (unfold when, bind, get; cbv beta iota;
       change (checked s0) with (checked s); rewrite Hprev, Hcheck;
       unfold emitValueChange, bind, get, emit, modify, setFocus, ret;
       destruct (decide (checked s = Some (EButton c))) as [Heq|Hne];
       [by rewrite bool_decide_eq_false_2 by (intros Hn; by apply Hn)
       |by rewrite bool_decide_eq_true_2 by congruence]). }
  destruct (decide _); (split; [exact Hv1|]); (split; [reflexivity|]).
  - exact Hchanges.
  - rewrite <-Hv1.
    change (IonChange (value s1) :: ionChanges s1
            = IonChange (value s1) :: ionChanges s0).
    by rewrite Hchanges.
Qed.

Lemma activation_key_selects_witness :
  ∃ s', onKeyDown KeyEnter five = Ok tt s'
        ∧ value s' = Some (VString "4")
        ∧ activeElement s' = Some (EButton 3)
        ∧ ionChanges s' =
            (if decide (checked five = Some (EButton 3)) then ionChanges five
             else IonChange (Some (VString "4")) :: ionChanges five).
Proof.
  apply (activation_key_selects KeyEnter five 3 (text_button "4" 300 false)
           {| left := 300; top := 36; width := 100; height := 4 |}).
  - by right.
  - reflexivity.
  - reflexivity.
  - reflexivity.
  - intros p [= <-]. by eexists.
Defined.

(** ** The end of a gesture and the element under the pointer *)

(** The segment as [onEnd] resolves the pointer in it: the activation is
    dropped first. *)
Lemma onEnd_value detail s (P : option SegmentValue → Prop) :
  sat (setNextIndex detail true)
      (with_activated false
         (with_buttons (Button.with_activatedClass false <$> buttons s) s))
      (λ _ s1, P (value s1)) (λ _, False) →
  sat (onEnd detail) s (λ _ s', P (value s')) (λ _, False).
Proof.
  intros Hnext. unfold onEnd. apply sat_bind.
  unfold sat at 1, setActivated, bind, getButtons, modify.
  apply sat_bind. eapply sat_mono; [| |apply Hnext]; cbv beta; [|done].
  intros _ s1 Hs1. apply sat_bind_emit, sat_bind_get, sat_bind.
  assert (steps (keeps value) false
            (match value s1 with
             | Some _ =>
                 when (bool_decide (valueBeforeGesture s1 ≠ value s1))
                      (emitValueChange ;; updateSegmentView true)
             | None => ret tt
             end)) as Htail.
  { unfold emitValueChange.
    repeat first [ apply (steps_updateSegmentView _ (λ _, True)); frame_solve
                 | by (refine (steps_emit_one _ _ _ _); intros)
                 | steps_rule ]. }
  eapply sat_mono; [| |apply Htail]; cbv beta; [|by intros ? []].
  intros _ s2 Hs2. unfold sat, modify, keeps in *. simpl in *. by rewrite Hs2.
Qed.

Lemma findIndex_deactivated v (bs : list Button.t) :
  findIndex (has_value v) (Button.with_activatedClass false <$> bs)
  = findIndex (has_value v) bs.
Proof.
  apply findIndex_values. rewrite <-list_fmap_compose. by apply list_fmap_ext.
Qed.

Lemma findIndex_find v (bs : list Button.t) p bp :
  find (has_value v) bs = Some (p, bp) → findIndex (has_value v) bs = Z.of_nat p.
Proof. unfold find, findIndex. by intros ->. Qed.

(** X22. At the end of a gesture the activation is dropped before the
    pointer is resolved, so the button under the pointer becomes the checked
    one whether or not the indicator was being dragged: with the indicators
    of both buttons rendered, its value is the value held afterwards, and
    one [ionChange] is emitted for it unless it is the value the gesture
    started from. *)
Theorem onEnd_checks_hit (detail : GestureDetail) (s : Segment)
    (p c : nat) (bp bc : Button.t) (rp rc : DOMRect) :
  find (has_value (value s)) (buttons s) = Some (p, bp) →
  hit detail = Some (EButton c) → c ≠ p →
  buttons s !! c = Some bc →
  Button.indicator bp = Some rp → Button.indicator bc = Some rc →
  ∃ s', onEnd detail s = Ok tt s'
        ∧ value s' = Some (Button.value bc)
        ∧ ionChanges s' =
            (if decide (Some (Button.value bc) = valueBeforeGesture s)
             then ionChanges s
             else IonChange (Some (Button.value bc)) :: ionChanges s).
Proof.
  intros Hfind Hhit Hcp Hc Hrp Hrc.
  destruct (find_has_value _ _ _ _ Hfind) as [Hp _].
  set (sa := with_activated false
               (with_buttons (Button.with_activatedClass false <$> buttons s) s)).
  assert (sat (setNextIndex detail true) sa
            (λ _ s1, value s1 = Some (Button.value bc)) (λ _, False)) as Hnext.
  { assert (buttons sa !! p = Some (Button.with_activatedClass false bp)) as Hpa
      by (simpl; by rewrite list_lookup_fmap, Hp).
    assert (buttons sa !! c = Some (Button.with_activatedClass false bc)) as Hca
      by (simpl; by rewrite list_lookup_fmap, Hc).
    pose proof (checkButton_stores p c _ _ rp rc sa Hpa Hrp Hca Hrc) as Hstores.
    unfold sat in *. unfold setNextIndex, bind, get, getButtons. cbv beta iota zeta.
    change (value sa) with (value s).
    change (buttons sa) with (Button.with_activatedClass false <$> buttons s).
    rewrite findIndex_deactivated, (findIndex_find _ _ _ _ Hfind), at_index_nat.
    rewrite list_lookup_fmap, Hp. simpl. rewrite Hhit, Nat2Z.id.
    rewrite bool_decide_eq_true_2 by congruence.
    unfold when, ret.
    destruct (checkButton _ _ sa) as [? s1| |]; [|done..]. by destruct Hstores. }
  pose proof (onEnd_value detail s (λ v, v = Some (Button.value bc)) Hnext) as Hvalue.
  pose proof (onEnd_commits detail s) as Hcommits.
  unfold sat in Hvalue, Hcommits.
  destruct (onEnd detail s) as [[] s'| |]; [|done..].
  exists s'. split; [done|]. split; [done|].
  rewrite Hcommits, Hvalue.
  destruct (decide (Some (Button.value bc) = valueBeforeGesture s)).
  - by rewrite decide_False by (by intros [_ ?]).
  - by rewrite decide_True.
Qed.

Lemma onEnd_checks_hit_witness :
  ∃ s', onEnd (pointer_over 250 2) abc = Ok tt s'
        ∧ value s' = Some (VString "c")
        ∧ ionChanges s' =
            (if decide (Some (VString "c") = valueBeforeGesture abc)
             then ionChanges abc
             else IonChange (Some (VString "c")) :: ionChanges abc).
Proof.
  apply (onEnd_checks_hit (pointer_over 250 2) abc 0 2 (text_button "a" 0 false)
           (text_button "c" 200 false)
           {| left := 0; top := 36; width := 100; height := 4 |}
           {| left := 200; top := 36; width := 100; height := 4 |});
    first [ reflexivity | discriminate ].
Defined.

(** X23. When the gesture ends over a host, over nothing or over the
    checked button itself, the value stays as it is; one [ionChange] is
    emitted for it exactly when it is defined and differs from the value
    the gesture started from. *)
Theorem onEnd_off_button (detail : GestureDetail) (s : Segment) :
  hit detail = None ∨ hit detail = Some ESegment ∨ hit detail = checked s →
  ∃ s', onEnd detail s = Ok tt s'
        ∧ value s' = value s
        ∧ ionChanges s' =
            (if decide (value s ≠ None ∧ value s ≠ valueBeforeGesture s)
             then IonChange (value s) :: ionChanges s
             else ionChanges s).
Proof.
  intros Hhit.
  set (sa := with_activated false
               (with_buttons (Button.with_activatedClass false <$> buttons s) s)).
  assert (sat (setNextIndex detail true) sa
            (λ _ s1, value s1 = value s) (λ _, False)) as Hnext.
  { unfold sat, setNextIndex, bind, get, getButtons. cbv beta iota zeta.
    change (value sa) with (value s).
    change (buttons sa) with (Button.with_activatedClass false <$> buttons s).
    rewrite findIndex_deactivated. unfold checked, find, findIndex in *.
    destruct (list_find (has_value (value s)) (buttons s)) as [[p bp]|] eqn:Hfind.
    2:{ unfold at_index. by rewrite decide_False by lia. }
    apply list_find_Some in Hfind as (Hp & _ & _).
    rewrite at_index_nat, list_lookup_fmap, Hp. simpl. rewrite Nat2Z.id.
    destruct Hhit as [-> | [-> | ->]]; simpl; try done.
    by rewrite bool_decide_eq_false_2 by (by intros ?). }
  pose proof (onEnd_value detail s (λ v, v = value s) Hnext) as Hvalue.
  pose proof (onEnd_commits detail s) as Hcommits.
  unfold sat in Hvalue, Hcommits.
  destruct (onEnd detail s) as [[] s'| |]; [|done..].
  exists s'. split; [done|]. split; [done|].
  rewrite Hcommits, Hvalue.
  destruct (decide (value s ≠ None ∧ value s ≠ valueBeforeGesture s)); reflexivity.
Qed.

Lemma onEnd_off_button_witness :
  ∃ s', onEnd {| currentX := 150; target := EButton 0; hit := Some ESegment |} a_c
        = Ok tt s'
        ∧ value s' = value a_c
        ∧ ionChanges s' =
            (if decide (value a_c ≠ None ∧ value a_c ≠ valueBeforeGesture a_c)
             then IonChange (value a_c) :: ionChanges a_c
             else ionChanges a_c).
Proof.
  apply (onEnd_off_button {| currentX := 150; target := EButton 0; hit := Some ESegment |}
           a_c).
  right. left. reflexivity.
Defined.

(** ** A change of the slotted buttons *)

(** X24. When the slotted buttons change while a value is held, the value
    is announced again: the buttons are told by one [ionSelect], the value,
    the buttons and the commits stay as they are, and with a segment view
    attached the content of the checked button, if it shows one, is scrolled
    to once more. *)
Theorem onSlottedItemsChange_reannounces (x : SegmentValue) (s : Segment) :
  value s = Some x →
  ∃ s', onSlottedItemsChange s = Ok tt s'
        ∧ value s' = value s
        ∧ buttons s' = buttons s
        ∧ ionSelects s' = IonSelect (Some x) :: ionSelects s
        ∧ ionChanges s' = ionChanges s
        ∧ (∀ i b id,
             is_Some (segmentViewEl s) →
             find (has_value (value s)) (buttons s) = Some (i, b) →
             Button.contentId b = Some id → id ≠ EmptyString →
             setContents s' = SetContent id true :: setContents s).
Proof.
  intros Hvalue.
  unfold onSlottedItemsChange, valueChanged, valueChanged_, updateSegmentView,
    scrollActiveButtonIntoView, when, bind, get, getButtons, emit, modify, ret.
  rewrite Hvalue. rewrite bool_decide_eq_false_2 by (by intros [_ ?]).
  unfold find. cbv beta iota.
  destruct (segmentViewEl s) as [view|] eqn:Hview.
  - rewrite (bool_decide_eq_true_2 (is_Some (Some view))) by done. cbv beta iota.
    rewrite Hvalue.
    destruct (list_find (has_value (Some x)) (buttons s)) as [[i b]|] eqn:Hfind;
      [destruct (Button.contentId b) as [id|] eqn:Hid;
       [destruct (decide (id = EmptyString)) as [Hempty|Hne]|]|];
      cbv beta iota; rewrite ?Hview; cbv beta iota;
      rewrite (bool_decide_eq_false_2 (segmentViewEl _ = None))
        by (simpl; by rewrite Hview);
      (eexists; split; [reflexivity|]; do 4 (split; [done|]);
       intros; unfold setContents, only; simplify_eq/=; congruence).
  - rewrite (bool_decide_eq_false_2 (is_Some None)) by (by intros [? ?]).
    cbv beta iota.
    rewrite (bool_decide_eq_true_2 (segmentViewEl _ = None)) by (by simpl).
    cbv beta iota.
    change (scrollable (with_trace _ s)) with (scrollable s).
    change (value (with_trace _ s)) with (value s). rewrite Hvalue.
    destruct (scrollable s); cbv beta iota;
      [change (buttons (with_trace _ s)) with (buttons s);
       destruct (list_find (has_value (Some x)) (buttons s)) as [[i b]|]|];
      (eexists; split; [reflexivity|]; do 4 (split; [done|]);
       by intros ? ? ? [? ?]).
Qed.

Lemma onSlottedItemsChange_reannounces_witness :
  ∃ s', onSlottedItemsChange pages = Ok tt s'
        ∧ value s' = value pages
        ∧ buttons s' = buttons pages
        ∧ ionSelects s' = IonSelect (Some (VString "a")) :: ionSelects pages
        ∧ ionChanges s' = ionChanges pages
        ∧ (∀ i b id,
             is_Some (segmentViewEl pages) →
             find (has_value (value pages)) (buttons pages) = Some (i, b) →
             Button.contentId b = Some id → id ≠ EmptyString →
             setContents s' = SetContent id true :: setContents pages).
Proof. apply (onSlottedItemsChange_reannounces (VString "a") pages). reflexivity. Defined.

(** X25. With a segment view attached and no button slotted, a change of
    the slot while no value is held throws out of the listener, nothing
    changed: there is no first button to take the value from. *)
Theorem slot_change_without_buttons (s : Segment) :
  is_Some (segmentViewEl s) → buttons s = [] → value s = None →
  onSlottedItemsChange s = Throw s.
Proof.
  intros [view Hview] Hbuttons Hvalue.
  unfold onSlottedItemsChange, valueChanged, valueChanged_, bind, get, getButtons.
  rewrite Hvalue, bool_decide_eq_true_2 by (split; [by rewrite Hview|done]).
  by rewrite Hbuttons.
Qed.

Lemma slot_change_without_buttons_witness :
  onSlottedItemsChange (viewed_group [] None) = Throw (viewed_group [] None).
Proof.
  apply (slot_change_without_buttons (viewed_group [] None));
    [by eexists|reflexivity|reflexivity].
Defined.

(** X26. With a segment view attached and no button slotted, clearing the
    value that is held stores the cleared value and logs the error of the
    watcher; the buttons are not told and the assignment returns. *)
Theorem clear_value_without_buttons (s : Segment) :
  is_Some (segmentViewEl s) → buttons s = [] → value s ≠ None →
  set_value None s =
    Ok tt (with_trace (ConsoleError :: trace s) (with_value None s)).
Proof.
  intros [view Hview] Hbuttons Hvalue.
  rewrite set_value_None by done. by rewrite Hview, Hbuttons.
Qed.

Lemma clear_value_without_buttons_witness :
  set_value None (viewed_group [] (Some (VString "a"))) =
    Ok tt (with_trace (ConsoleError :: trace (viewed_group [] (Some (VString "a"))))
             (with_value None (viewed_group [] (Some (VString "a"))))).
Proof.
  apply (clear_value_without_buttons (viewed_group [] (Some (VString "a"))));
    [by eexists|reflexivity|discriminate].
Defined.

(** ** Loading *)

Lemma updateSegmentView_shows smooth s :
  ∃ s', updateSegmentView smooth s = Ok tt s'
        ∧ (s' = s ∨ ∃ id, s' = with_trace (SetContent id smooth :: trace s) s).
Proof.
  unfold updateSegmentView, bind, get, getButtons, emit, modify, ret.
  repeat case_match; eauto.
Qed.

(** X27. When the load resumes with the gesture created, in whatever state
    it is handed over, it returns with the gesture enabled exactly when the
    segment is neither scrollable nor disabled and [swipeGesture] is set;
    the value is left as it is, nothing is committed or told to the
    buttons, and a disabled segment has passed its state on to its buttons
    or, if one is attached, to its view. *)
Theorem load_syncs_gesture (enabled : bool) (s : Segment) :
  ∃ s', componentDidLoad_resumed enabled s = Ok tt s'
        ∧ gesture_synced s'
        ∧ value s' = value s
        ∧ ionChanges s' = ionChanges s
        ∧ ionSelects s' = ionSelects s
        ∧ (disabled s = true →
           match segmentViewEl s with
           | None => Forall (λ b, Button.disabled b = true) (buttons s')
           | Some _ => segmentViewEl s' = Some {| view_disabled := true |}
           end).
Proof.
  set (s1 := with_gesture (Some (negb (scrollable s) && negb (disabled s) && swipeGesture s))
               (with_gesture (Some enabled) s)).
  assert (∃ s2, (s0 <- get ;; when (disabled s0) disabledChanged) s1 = Ok tt s2
                ∧ gesture_synced s2 ∧ value s2 = value s ∧ trace s2 = trace s
                ∧ (disabled s = true →
                   match segmentViewEl s with
                   | None => Forall (λ b, Button.disabled b = true) (buttons s2)
                   | Some _ => segmentViewEl s2 = Some {| view_disabled := true |}
                   end)) as (s2 & Hrun2 & Hsynced & Hvalue & Htrace & Hdisabled).
  { unfold bind, get, when, disabledChanged, gestureChanged, bind, get, getButtons,
      modify, ret, gesture_synced.
    change (disabled s1) with (disabled s).
    destruct (disabled s) eqn:Hdis; cbv beta iota.
    - destruct (segmentViewEl s) as [view|] eqn:Hview; simpl; rewrite Hview;
        (eexists; split; [reflexivity|]); simpl; rewrite ?Hdis; repeat split; try done.
      intros _. apply Forall_fmap, Forall_forall. by intros b _.
    - eexists. split; [reflexivity|]. simpl. by rewrite Hdis. }
  destruct (updateSegmentView_shows false s2) as (s3 & Hrun3 & Hs3).
  exists s3. split.
  { unfold componentDidLoad_resumed, bind at 1, modify, bind at 1, gestureChanged,
      bind at 1, get.
    change (gesture (with_gesture (Some enabled) s)) with (Some enabled).
    cbv beta iota. unfold modify.
    change (scrollable (with_gesture (Some enabled) s)) with (scrollable s).
    change (disabled (with_gesture (Some enabled) s)) with (disabled s).
    change (swipeGesture (with_gesture (Some enabled) s)) with (swipeGesture s).
    fold s1. unfold bind in *. unfold get in *.
    destruct (when (disabled s1) disabledChanged s1) as [[] ?| |]; simplify_eq. done. }
  destruct Hs3 as [-> | [id ->]]; unfold gesture_synced, ionChanges, ionSelects, only in *;
    simpl; rewrite ?Htrace; done.
Qed.

(** ** The index resolved last *)

#[global] Instance remembers_scroll_preorder : PreOrder remembers_scroll.
Proof.
  split; [intros s; by unfold remembers_scroll|].
  intros s1 s2 s3 (H1 & H2 & H3) (H1' & H2' & H3').
  split; [congruence|]. split; [congruence|]. auto.
Qed.

Lemma remembers_updateSegmentView smooth :
  steps remembers_scroll false (updateSegmentView smooth).
Proof.
  intros s. destruct (updateSegmentView_shows smooth s) as (s' & Hrun & Hs').
  unfold sat. rewrite Hrun. by destruct Hs' as [-> | [id ->]].
Qed.

Lemma remembers_setCheckedClasses : steps remembers_scroll false setCheckedClasses.
Proof.
  intros s. unfold sat, setCheckedClasses, bind, get, getButtons, modify, remembers_scroll.
  simpl. case_decide; rewrite ?length_alter, ?length_fmap; done.
Qed.

Ltac remembers_solve :=
  first [ apply remembers_updateSegmentView | apply remembers_setCheckedClasses
        | by apply _
        | by (intros; unfold remembers_scroll; simpl; rewrite ?length_fmap) ].

Lemma remembers_handler input :
  resolves_anew input = false → steps remembers_scroll true (handler input).
Proof.
  destruct input; simpl; intros Hinput; try done.
  - apply chain_onStart; remembers_solve.
  - apply chain_onMove; remembers_solve.
  - apply chain_onEnd; remembers_solve.
  - apply chain_onClick; remembers_solve.
  - apply chain_onKeyDown; remembers_solve.
  - apply chain_onSlottedItemsChange; remembers_solve.
  - apply chain_set_value; remembers_solve.
  - refine (steps_weaken _ _ _ _). intros s. unfold sat, set_disabled.
    case_decide; [done|].
    unfold caught, disabledChanged, gestureChanged, bind, get, getButtons, modify, ret,
      remembers_scroll.
    simpl. destruct (gesture s); simpl;
      (destruct (segmentViewEl s) eqn:Hview; simpl; rewrite ?Hview, ?length_fmap; done).
  - refine (steps_weaken _ _ _ _). intros s. unfold sat, set_swipeGesture.
    case_decide; [done|].
    unfold caught, swipeGestureChanged, gestureChanged, bind, get, modify, ret,
      remembers_scroll.
    simpl. destruct (gesture s); simpl; done.
  - apply steps_modify. intros s. unfold remembers_scroll. simpl.
    split; [done|]. split; [done|]. by intros [? ?].
Qed.

(** X28. The index resolved from a scroll of the view is forgotten by no
    handler but the scroll listener: once a scroll event has been handled,
    and as long as no other scroll event is handled and the buttons are not
    slotted anew, the same event is ignored, with nothing changed, whatever
    other inputs came in between, assignments of the value among them. *)
Theorem scroll_index_is_remembered (ev : SegmentViewScrollEvent)
    (inputs : list Input) (s : Segment) :
  forallb (λ input, negb (resolves_anew input)) inputs = true →
  ∃ s1 s2, dispatch (handleSegmentViewScroll ev) s = Ok tt s1
           ∧ run inputs s1 = Ok tt s2
           ∧ handleSegmentViewScroll ev s2 = Ok tt s2.
Proof.
  intros Hinputs.
  destruct listeners_end as (_ & _ & _ & Hscroll & _).
  destruct (steps_dispatch anything true _ s (Hscroll ev)) as (s1 & Hs1 & _).
  assert (steps remembers_scroll false (run inputs)) as Hrun.
  { apply steps_dispatch_all; [apply _|]. apply Forall_fmap, Forall_forall.
    intros input Hin. apply remembers_handler.
    rewrite forallb_forall in Hinputs. apply negb_true_iff, Hinputs.
    by apply list_elem_of_In. }
  destruct (steps_Ok _ _ s1 Hrun) as ([] & s2 & Hs2 & Hidx & Hlen & Hview).
  exists s1, s2. split; [done|]. split; [done|].
  apply handleSegmentViewScroll_skips.
  pose proof (handleSegmentViewScroll_settles ev s s1 Hs1) as Hsettled.
  intros (Hmanual & Hfrom & Hbuttons & Hlast). apply Hsettled.
  split; [done|]. split; [|split].
  - destruct Hfrom as [[Hv Hpath]|Htarget]; [left|by right]. split; [by apply Hview|done].
  - intros Hnil. apply Hbuttons. apply length_zero_iff_nil.
    rewrite Hlen, Hnil. done.
  - by rewrite <-Hidx, <-Hlen.
Qed.

Lemma scroll_index_is_remembered_witness :
  ∃ s1 s2, dispatch (handleSegmentViewScroll (manual_scroll 1)) pages = Ok tt s1
           ∧ run [SetValue (Some (VString "a")); Click (EButton 1)] s1 = Ok tt s2
           ∧ handleSegmentViewScroll (manual_scroll 1) s2 = Ok tt s2.
Proof.
  apply (scroll_index_is_remembered (manual_scroll 1)
           [SetValue (Some (VString "a")); Click (EButton 1)] pages).
  reflexivity.
Defined.

(** ** Disabling and enabling again *)

(** X29. Without a segment view, disabling the segment and enabling it again
    leaves every button enabled, those that were disabled on their own
    before included; nothing else about the buttons changes. *)
Theorem disabled_round_trip (s : Segment) :
  segmentViewEl s = None → disabled s = false →
  ∃ s', (set_disabled true ;; set_disabled false) s = Ok tt s'
        ∧ disabled s' = false
        ∧ buttons s' = Button.with_disabled false <$> buttons s.
Proof.
  destruct s as [g vb view lni flag act dis scr sw v sof bs ae dir tr]. simpl.
  intros -> ->.
  unfold bind, set_disabled, disabledChanged, gestureChanged, bind, get, getButtons,
    modify, ret.
  destruct g; simpl;
    (eexists; split; [reflexivity|]; split; [done|]; simpl;
     rewrite <-list_fmap_compose; by apply list_fmap_ext).
Qed.

Lemma disabled_round_trip_witness :
  ∃ s', (set_disabled true ;; set_disabled false) a_c = Ok tt s'
        ∧ disabled s' = false
        ∧ buttons s' = Button.with_disabled false <$> buttons a_c.
Proof. apply (disabled_round_trip a_c); reflexivity. Defined.
